(** * floop.py: the FlooP interpreter, embedded and verified

    The interpreter of [src/floop.py] walks a tree of tagged tuples built by
    the [Sema] transformer and executes it against two Python dictionaries:
    the cells (integer index to value) and the parameters (name to value),
    with a third dictionary of procedure declarations.  Non-local exits are
    the Python exceptions [Abort] and [Break].

    The embedding below keeps the names of the source.  Dictionaries are
    stdpp [gmap]s, Python exceptions are an explicit outcome, the shared
    mutable [cells] dictionary is threaded as state, and the unbounded
    recursion of [runinstr] (the [while True] loop and procedure calls) is
    cut by a fuel argument; a result reached with some fuel is the result
    with any greater fuel ([runinstr_mono_S]).  The block validator
    [CheckBlocks] works on the parse tree of lark, modelled as a tree of
    rule names and tokens. *)

From Stdlib Require Import ZArith String List Lia.
From stdpp Require Import base gmap strings list fin_maps.

Set Warnings "-register-all".
Open Scope Z_scope.

(** ** Values

    The values that expressions produce are Python [int]s and [bool]s.
    Python's [bool] is a subclass of [int]: in arithmetic and comparisons
    [True] is 1 and [False] is 0. *)

Inductive value : Type :=
| VInt (n : Z)
| VBool (b : bool).

Definition py_int (v : value) : Z :=
  match v with
  | VInt n => n
  | VBool b => if b then 1 else 0
  end.

(** Truth value of [if cond:]. *)
Definition truthy (v : value) : bool :=
  match v with
  | VBool b => b
  | VInt n => negb (n =? 0)
  end.

(** ** The tuples built by [Sema]

    [Sema] returns tuples whose first component is a tag.  The grammar fixes
    which tuple can stand where: operands, call arguments, loop bounds and
    conditions are expression tuples, the target of an assignment is a
    [("cell", index)] tuple, the body of a loop or of a conditional is a
    [("block", blocknum, stmts)] tuple. *)

Inductive binop : Type := Oeq | Olt | Ogt | Oplus | Otimes.
(* the tags "eq", "lt", "gt", "plus", "times" *)

Inductive expr : Type :=
| Ebool (b : bool)                          (* ("bool", b) *)
| Enum (n : Z)                              (* ("num", n) *)
| Ecellfetch (index : Z)                    (* ("cellfetch", index) *)
| Eparamfetch (p : string)                  (* ("paramfetch", p) *)
| Ebinop (op : binop) (a b : expr)          (* (op, a, b) *)
| Ecall (procname : string) (args : list expr). (* ("call", procname, args) *)

Inductive lvalue : Type :=
| Lcell (index : Z).                        (* ("cell", index); OUTPUT is ("cell", -1) *)

Inductive stmt : Type :=
| Sloop (bound : option expr) (body : block) (* ("loop", bound, block); bound None for MU-LOOP *)
| Scond (c : expr) (body : block)            (* ("cond", c, block) *)
| Squit (blocknum : Z)                       (* ("quit", blocknum) *)
| Sabort (blocknum : Z)                      (* ("abort", blocknum) *)
| Sassign (l : lvalue) (e : expr)            (* ("assign", l, e) *)
with block : Type :=
| Block (blocknum : Z) (stmts : list stmt).  (* ("block", blocknum, stmts) *)

(** Top-level items of a program: [start: decl* call?]. *)
Inductive item : Type :=
| Idecl (procname : string) (params : list string) (body : block)
| Icall (procname : string) (args : list expr).

Definition block_num (b : block) : Z :=
  match b with Block n _ => n end.

(** ** Exceptions and outcomes *)

Inductive key : Type :=
| KInt (i : Z)
| KStr (s : string).

Inductive exn : Type :=
| Abort (blocknum : Z)       (* class Abort *)
| Break (blocknum : Z)       (* class Break *)
| KeyError (k : key)         (* a missing dictionary key *)
| TypeError                  (* unpacking None in [instr, *args = tup] *)
| AttributeError.            (* [a.str()] on an exception object *)

Inductive outcome (A : Type) : Type :=
| Return (a : A)
| Raise (e : exn)
| OutOfFuel.

Arguments Return {A} a.
Arguments Raise {A} e.
Arguments OutOfFuel {A}.

(** The object of class [Cell]. *)
Record Cell : Type := mkCell { index : Z }.

Abbreviation cells_t := (gmap Z value).
Abbreviation params_t := (gmap string value).
Abbreviation decls_t := (gmap string (list string * block)).

(** ** Helpers for Python built-ins *)

(** [dict(zip(keys, vals))]: [zip] stops at the shorter list, and a key that
    occurs twice keeps its last value. *)
Definition dict_zip (keys : list string) (vals : list value) : params_t :=
  fold_left (fun d kv => <[fst kv := snd kv]> d) (zip keys vals) ∅.

(** [s.endswith(suffix)]. *)
Definition endswith (s suffix : string) : bool :=
  let n := String.length s in
  let m := String.length suffix in
  if (m <=? n)%nat then String.eqb (substring (n - m) m s) suffix else false.

(** [default_output = False if procname.endswith("?") else 0]. *)
Definition default_output (procname : string) : value :=
  if endswith procname "?" then VBool false else VInt 0.

(** The operators of lines 94-104 on [int] and [bool] operands. *)
Definition eval_binop (op : binop) (a b : value) : value :=
  match op with
  | Oeq => VBool (py_int a =? py_int b)
  | Olt => VBool (py_int a <? py_int b)
  | Ogt => VBool (py_int a >? py_int b)
  | Oplus => VInt (py_int a + py_int b)
  | Otimes => VInt (py_int a * py_int b)
  end.

(** [for arg in args: funcargs.append(runinstr(arg, ...))]. *)
Fixpoint eval_args (ev : expr -> cells_t -> outcome value * cells_t)
    (args : list expr) (cells : cells_t) : outcome (list value) * cells_t :=
  match args with
  | [] => (Return [], cells)
  | arg :: rest =>
      match ev arg cells with
      | (Return v, cells1) =>
          match eval_args ev rest cells1 with
          | (Return vs, cells2) => (Return (v :: vs), cells2)
          | r => r
          end
      | (Raise e, cells1) => (Raise e, cells1)
      | (OutOfFuel, cells1) => (OutOfFuel, cells1)
      end
  end.

(** [run]: the statements of a list one after the other; an exception leaves
    the rest unexecuted. *)
Fixpoint run (ev : stmt -> cells_t -> outcome unit * cells_t)
    (instrs : list stmt) (cells : cells_t) : outcome unit * cells_t :=
  match instrs with
  | [] => (Return tt, cells)
  | tup :: rest =>
      match ev tup cells with
      | (Return _, cells1) => run ev rest cells1
      | r => r
      end
  end.

(** One pass of a loop body under the handler of lines 118-125 and 128-135:
    [None] says go on with the next pass, [Some r] says the loop is left
    with [r] ([Return tt] after [break]). *)
Definition loop_pass (body : cells_t -> outcome unit * cells_t)
    (blocknum : Z) (cells : cells_t) : option (outcome unit) * cells_t :=
  match body cells with
  | (Return _, cells1) => (None, cells1)
  | (Raise (Abort n), cells1) =>
      if n =? blocknum then (Some (Return tt), cells1)
      else (Some (Raise (Abort n)), cells1)
  | (Raise e, cells1) => (Some (Raise e), cells1)
  | (OutOfFuel, cells1) => (Some OutOfFuel, cells1)
  end.

(** [while True:] of line 117; every pass costs one unit of fuel. *)
Fixpoint while_true (fuel : nat) (body : cells_t -> outcome unit * cells_t)
    (blocknum : Z) (cells : cells_t) : outcome unit * cells_t :=
  match fuel with
  | O => (OutOfFuel, cells)
  | S fuel' =>
      match loop_pass body blocknum cells with
      | (None, cells1) => while_true fuel' body blocknum cells1
      | (Some r, cells1) => (r, cells1)
      end
  end.

(** [for i in range(bound):] of line 127. *)
Fixpoint for_range (bound : nat) (body : cells_t -> outcome unit * cells_t)
    (blocknum : Z) (cells : cells_t) : outcome unit * cells_t :=
  match bound with
  | O => (Return tt, cells)
  | S bound' =>
      match loop_pass body blocknum cells with
      | (None, cells1) => for_range bound' body blocknum cells1
      | (Some r, cells1) => (r, cells1)
      end
  end.

(** ** [runinstr]

    One function per kind of tuple; each branch is the branch of the source
    with the same tag.  Leaves need no fuel; a branch that calls [runinstr]
    again passes the fuel less one. *)

Section Runinstr.

Variable decls : decls_t.

Fixpoint runinstr_expr (fuel : nat) (tup : expr) (cells : cells_t)
    (params : params_t) {struct fuel} : outcome value * cells_t :=
  match tup with
  | Ebool b => (Return (VBool b), cells)
  | Enum n => (Return (VInt n), cells)
  | Ecellfetch i =>
      match cells !! i with
      | Some v => (Return v, cells)
      | None => (Raise (KeyError (KInt i)), cells)
      end
  | Eparamfetch p =>
      match params !! p with
      | Some v => (Return v, cells)
      | None => (Raise (KeyError (KStr p)), cells)
      end
  | Ebinop op a b =>
      match fuel with
      | O => (OutOfFuel, cells)
      | S fuel' =>
          match runinstr_expr fuel' a cells params with
          | (Return va, cells1) =>
              match runinstr_expr fuel' b cells1 params with
              | (Return vb, cells2) => (Return (eval_binop op va vb), cells2)
              | r => r
              end
          | r => r
          end
      end
  | Ecall procname args =>
      match fuel with
      | O => (OutOfFuel, cells)
      | S fuel' =>
          match eval_args (fun arg c => runinstr_expr fuel' arg c params)
                  args cells with
          | (Return funcargs, cells1) =>
              match decls !! procname with
              | None => (Raise (KeyError (KStr procname)), cells1)
              | Some (funcparams, body) =>
                  let funcargs := dict_zip funcparams funcargs in
                  let cells' : cells_t := {[ (-1) := default_output procname ]} in
                  match runinstr_block fuel' body cells' funcargs with
                  | (Return _, cells'') =>
                      match cells'' !! (-1) with
                      | Some v => (Return v, cells1)
                      | None => (Raise (KeyError (KInt (-1))), cells1)
                      end
                  (* lines 160-163: the handlers call [a.str()] and
                     [b.str()], which no exception object has *)
                  | (Raise (Abort _), _) => (Raise AttributeError, cells1)
                  | (Raise (Break _), _) => (Raise AttributeError, cells1)
                  | (Raise e, _) => (Raise e, cells1)
                  | (OutOfFuel, _) => (OutOfFuel, cells1)
                  end
              end
          | (Raise e, cells1) => (Raise e, cells1)
          | (OutOfFuel, cells1) => (OutOfFuel, cells1)
          end
      end
  end

with runinstr_stmt (fuel : nat) (tup : stmt) (cells : cells_t)
    (params : params_t) {struct fuel} : outcome unit * cells_t :=
  match tup with
  | Sabort blocknum => (Raise (Abort blocknum), cells)
  | Squit blocknum => (Raise (Break blocknum), cells)
  | Scond c body =>
      match fuel with
      | O => (OutOfFuel, cells)
      | S fuel' =>
          match runinstr_expr fuel' c cells params with
          | (Return cond, cells1) =>
              if truthy cond then runinstr_block fuel' body cells1 params
              else (Return tt, cells1)
          | (Raise e, cells1) => (Raise e, cells1)
          | (OutOfFuel, cells1) => (OutOfFuel, cells1)
          end
      end
  | Sassign (Lcell i) e =>
      match fuel with
      | O => (OutOfFuel, cells)
      | S fuel' =>
          let left := mkCell i in
          match runinstr_expr fuel' e cells params with
          | (Return v, cells1) => (Return tt, <[index left := v]> cells1)
          | (Raise e, cells1) => (Raise e, cells1)
          | (OutOfFuel, cells1) => (OutOfFuel, cells1)
          end
      end
  | Sloop bound body =>
      match fuel with
      | O => (OutOfFuel, cells)
      | S fuel' =>
          let pass := fun c => runinstr_block fuel' body c params in
          (* lines 116-125: [if args[0] is None: while True: ...] *)
          match
            match bound with
            | None => while_true fuel' pass (block_num body) cells
            | Some _ => (Return tt, cells)
            end
          with
          | (Return _, cells0) =>
              (* line 126, reached after the [while] loop too:
                 [bound = runinstr(args[0], ...)]; on [None] the unpacking
                 [instr, *args = tup] of line 78 raises a TypeError *)
              match
                match bound with
                | None => (Raise TypeError, cells0)
                | Some bound_expr => runinstr_expr fuel' bound_expr cells0 params
                end
              with
              | (Return n, cells1) =>
                  (* lines 127-135 *)
                  for_range (Z.to_nat (py_int n)) pass (block_num body) cells1
              | (Raise e, cells1) => (Raise e, cells1)
              | (OutOfFuel, cells1) => (OutOfFuel, cells1)
              end
          | r => r
          end
      end
  end

with runinstr_block (fuel : nat) (tup : block) (cells : cells_t)
    (params : params_t) {struct fuel} : outcome unit * cells_t :=
  match tup with
  | Block blocknum stmts =>
      match fuel with
      | O => (OutOfFuel, cells)
      | S fuel' =>
          match run (fun s c => runinstr_stmt fuel' s c params) stmts cells with
          | (Raise (Break n), cells1) =>
              if negb (n =? blocknum) then (Raise (Break n), cells1)
              else (Return tt, cells1)
          | r => r
          end
      end
  end.

End Runinstr.

(** ** The top level

    [run(ev, {}, {}, {})] of line 285 walks the items of the program with the
    same [runinstr]: a ["decl"] tuple stores the procedure in [decls] and
    gives [None], a ["call"] tuple gives the value of the call.  The result
    is that of the last item. *)

Definition runinstr_item (fuel : nat) (decls : decls_t) (tup : item)
    (cells : cells_t) (params : params_t)
  : outcome (option value) * decls_t * cells_t :=
  match tup with
  | Idecl procname params' body =>
      (Return None, <[procname := (params', body)]> decls, cells)
  | Icall procname args =>
      match runinstr_expr decls fuel (Ecall procname args) cells params with
      | (Return v, cells1) => (Return (Some v), decls, cells1)
      | (Raise e, cells1) => (Raise e, decls, cells1)
      | (OutOfFuel, cells1) => (OutOfFuel, decls, cells1)
      end
  end.

Fixpoint run_items (fuel : nat) (instrs : list item) (res : option value)
    (decls : decls_t) (cells : cells_t) (params : params_t)
  : outcome (option value) * decls_t * cells_t :=
  match instrs with
  | [] => (Return res, decls, cells)
  | tup :: rest =>
      match runinstr_item fuel decls tup cells params with
      | (Return res1, decls1, cells1) =>
          run_items fuel rest res1 decls1 cells1 params
      | r => r
      end
  end.

(** [res = run(ev, {}, {}, {})]. *)
Definition run_program (fuel : nat) (ev : list item) : outcome (option value) :=
  fst (fst (run_items fuel ev None ∅ ∅ ∅)).

(** ** The parse tree and [CheckBlocks]

    [CheckBlocks] is a lark [Visitor] over the parse tree.  A lark [Tree] has
    a rule name [data] and a list of [children], each a [Tree] or a [Token];
    a [Token] is a string with the position where it was read. *)

Record Token : Type := mkToken {
  tok_type : string;
  tok_value : string;
  line : nat;
  column : nat
}.

Inductive Tree : Type :=
| mkTree (data : string) (children : list (Tree + Token)).

Definition data (t : Tree) : string :=
  match t with mkTree d _ => d end.

Definition children (t : Tree) : list (Tree + Token) :=
  match t with mkTree _ cs => cs end.

(** [int(token)] on the text of a NUMBER token: a non-empty string of
    decimal digits; anything else is a [ValueError]. *)
Definition digit_of_ascii (a : Ascii.ascii) : option Z :=
  let n := Ascii.nat_of_ascii a in
  if ((48 <=? n) && (n <=? 57))%nat then Some (Z.of_nat (n - 48)) else None.

Fixpoint int_digits (acc : Z) (s : string) : option Z :=
  match s with
  | EmptyString => Some acc
  | String a s' =>
      match digit_of_ascii a with
      | Some d => int_digits (10 * acc + d) s'
      | None => None
      end
  end.

Definition int (s : string) : option Z :=
  match s with
  | EmptyString => None
  | _ => int_digits 0 s
  end.

(** What a visit can raise: the [SemanticError] of line 61, or a Python error
    on a tree that is not shaped as the grammar shapes it. *)
Inductive check_exn : Type :=
| SemanticError (start_num end_num : Z) (token : Token)
    (* message "Block numbers do not match: start_num vs end_num",
       printed after "[token.line:token.column]: " *)
| IndexError       (* children[0] of an empty list *)
| IntTypeError     (* int() of a Tree *)
| ValueError.      (* int() of a string that is no numeral *)

(** [CheckBlocks.block]; [None] when the method returns. *)
Definition CheckBlocks_block (tree : Tree) : option check_exn :=
  match head (children tree) with
  | None => Some IndexError
  | Some (inl _) => Some IntTypeError
  | Some (inr first) =>
      match int (tok_value first) with
      | None => Some ValueError
      | Some start_num =>
          match last (children tree) with
          | None => Some IndexError
          | Some (inl _) => Some IntTypeError
          | Some (inr final) =>
              match int (tok_value final) with
              | None => Some ValueError
              | Some end_num =>
                  if negb (start_num =? end_num)
                  then Some (SemanticError start_num end_num first)
                  else None
              end
          end
      end
  end.

(** The trees among the children of a tree. *)
Definition tree_children (t : Tree) : list Tree :=
  omap (fun c => match c with inl t' => Some t' | inr _ => None end)
       (children t).

Fixpoint height (t : Tree) : nat :=
  match t with
  | mkTree _ cs =>
      S ((fix go (cs : list (Tree + Token)) : nat :=
            match cs with
            | [] => O
            | inl t' :: rest => Nat.max (height t') (go rest)
            | inr _ :: rest => go rest
            end) cs)
  end.

(** lark's [Tree.iter_subtrees]: a queue that starts with the tree and to
    which each tree, in turn, appends its tree children in reverse; the
    subtrees are then given in the reverse order of the queue.  The queue is
    the trees of depth 0, then those of depth 1, and so on. *)
Fixpoint level (d : nat) (t : Tree) : list Tree :=
  match d with
  | O => [t]
  | S d' => flat_map (level d') (rev (tree_children t))
  end.

Definition queue (t : Tree) : list Tree :=
  flat_map (fun d => level d t) (seq 0 (height t)).

Definition iter_subtrees (t : Tree) : list Tree := rev (queue t).

(** [Visitor._call_userfunc]: the method named after the rule, when the
    visitor has one. *)
Definition call_userfunc (tree : Tree) : option check_exn :=
  if String.eqb (data tree) "block" then CheckBlocks_block tree else None.

Fixpoint visit_each (subtrees : list Tree) : option check_exn :=
  match subtrees with
  | [] => None
  | subtree :: rest =>
      match call_userfunc subtree with
      | Some e => Some e
      | None => visit_each rest
      end
  end.

(** [CheckBlocks().visit(tree)]. *)
Definition visit (tree : Tree) : option check_exn :=
  visit_each (iter_subtrees tree).

(** The script body of lines 281-288; what [Sema().transform(tree)] gives is
    taken as a function of the tree. *)
Inductive main_result : Type :=
| PrintResult (res : outcome (option value))   (* print(f"Result: {res}") *)
| PrintError (e : check_exn)                   (* print(f"Error {e}") *)
| Uncaught (e : check_exn).                    (* not a SemanticError *)

Definition main (Sema_transform : Tree -> list item) (fuel : nat)
    (tree : Tree) : main_result :=
  match visit tree with
  | Some (SemanticError s e tok) => PrintError (SemanticError s e tok)
  | Some e => Uncaught e
  | None => PrintResult (run_program fuel (Sema_transform tree))
  end.

(** *** Blocks of a parse tree, by position *)

(** The subtree reached from [t] by the child indices of [p]. *)
Fixpoint subtree_at (t : Tree) (p : list nat) : option Tree :=
  match p with
  | [] => Some t
  | i :: p' =>
      match children t !! i with
      | Some (inl t') => subtree_at t' p'
      | _ => None
      end
  end.

Definition is_block (t : Tree) : bool := String.eqb (data t) "block".

(** The opening and the closing label of a block tree, as the grammar lays
    them out: the first and the last child, both NUMBER tokens. *)
Definition open_token (b : Tree) : option Token :=
  match head (children b) with
  | Some (inr tok) => Some tok
  | _ => None
  end.

Definition close_token (b : Tree) : option Token :=
  match last (children b) with
  | Some (inr tok) => Some tok
  | _ => None
  end.

Definition open_label (b : Tree) : option Z :=
  tok ← open_token b; int (tok_value tok).

Definition close_label (b : Tree) : option Z :=
  tok ← close_token b; int (tok_value tok).

(** A block tree of the grammar: opening label, statements, closing label. *)
Definition wf_block (b : Tree) : bool :=
  (2 <=? length (children b))%nat
  && bool_decide (is_Some (open_label b))
  && bool_decide (is_Some (close_label b)).

Definition wf_tree (t : Tree) : bool :=
  forallb (fun b => implb (is_block b) (wf_block b)) (queue t).

(** Replacing the text of the closing label of a block. *)
Definition set_close_label (text : string) (b : Tree) : Tree :=
  match b with
  | mkTree d cs =>
      mkTree d
        (alter (fun c =>
                  match c with
                  | inr tok =>
                      inr (mkToken (tok_type tok) text (line tok) (column tok))
                  | inl t' => inl t'
                  end)
               (length cs - 1)%nat cs)
  end.

Fixpoint update_at (p : list nat) (f : Tree -> Tree) (t : Tree) : Tree :=
  match p with
  | [] => f t
  | i :: p' =>
      mkTree (data t)
        (alter (fun c =>
                  match c with
                  | inl t' => inl (update_at p' f t')
                  | inr tok => inr tok
                  end)
               i (children t))
  end.

(** ** Bounded loops, in the words of the specification

    [bounded_loop_spec body blocknum N c k r c']: a loop of bound [N] started
    in store [c] evaluates the body [k] times, one pass after the other on
    the store the pass before left, and ends with [r] in store [c']: after
    [N] passes, or earlier at an [Abort] of the body's label, or at any other
    exception, which it lets through. *)
Inductive bounded_loop_spec (body : cells_t -> outcome unit * cells_t)
    (blocknum : Z) : nat -> cells_t -> nat -> outcome unit -> cells_t -> Prop :=
| bl_done c :
    bounded_loop_spec body blocknum O c O (Return tt) c
| bl_pass N c u c1 k r c2 :
    body c = (Return u, c1) ->
    bounded_loop_spec body blocknum N c1 k r c2 ->
    bounded_loop_spec body blocknum (S N) c (S k) r c2
| bl_abort N c c1 :
    body c = (Raise (Abort blocknum), c1) ->
    bounded_loop_spec body blocknum (S N) c 1%nat (Return tt) c1
| bl_raise N c e c1 :
    body c = (Raise e, c1) ->
    e <> Abort blocknum ->
    bounded_loop_spec body blocknum (S N) c 1%nat (Raise e) c1
| bl_fuel N c c1 :
    body c = (OutOfFuel, c1) ->
    bounded_loop_spec body blocknum (S N) c 1%nat OutOfFuel c1.

(** [passes body k c c']: [k] passes of the body, each returning normally,
    lead from store [c] to store [c']. *)
Inductive passes (body : cells_t -> outcome unit * cells_t)
  : nat -> cells_t -> cells_t -> Prop :=
| passes_O c : passes body O c c
| passes_S k c u c1 c2 :
    body c = (Return u, c1) -> passes body k c1 c2 -> passes body (S k) c c2.

(** ** Properties of the store kept by a computation *)

Definition keeps (P : cells_t -> Prop) {A}
    (f : cells_t -> outcome A * cells_t) : Prop :=
  forall c, P c -> P (snd (f c)).

(** [g] gives every result that [f] gives, except where [f] ran out of
    fuel. *)
Definition extends {A B} (f g : A -> cells_t -> outcome B * cells_t) : Prop :=
  forall a c r c', f a c = (r, c') -> r <> OutOfFuel -> g a c = (r, c').

Definition extends0 {B} (f g : cells_t -> outcome B * cells_t) : Prop :=
  forall c r c', f c = (r, c') -> r <> OutOfFuel -> g c = (r, c').

(** ** Programs used as examples

    Each is the tuple tree [Sema] builds for the FlooP text in its comment. *)

(** MU-LOOP: BLOCK 1: BEGIN
      CELL(0) <= CELL(0) + 1;
      IF CELL(0) = 5, THEN: BLOCK 2: BEGIN ABORT LOOP 1; BLOCK 2: END
    BLOCK 1: END *)
Definition mu_body : block :=
  Block 1 [ Sassign (Lcell 0) (Ebinop Oplus (Ecellfetch 0) (Enum 1));
            Scond (Ebinop Oeq (Ecellfetch 0) (Enum 5))
                  (Block 2 [Sabort 1]) ].

Definition mu_loop : stmt := Sloop None mu_body.

(** DEFINE PROCEDURE "count" [A]: BLOCK 0: BEGIN
      CELL(0) <= 0; MU-LOOP: ...; OUTPUT <= CELL(0);
    BLOCK 0: END
    count(0) *)
Definition prog_count : list item :=
  [ Idecl "count" ["A"]
      (Block 0 [ Sassign (Lcell 0) (Enum 0);
                 mu_loop;
                 Sassign (Lcell (-1)) (Ecellfetch 0) ]);
    Icall "count" [Enum 0] ].

(** DEFINE PROCEDURE "add" [A, B]: BLOCK 0: BEGIN OUTPUT <= A + B; BLOCK 0: END *)
Definition decl_add : item :=
  Idecl "add" ["A"; "B"]
    (Block 0 [Sassign (Lcell (-1))
                (Ebinop Oplus (Eparamfetch "A") (Eparamfetch "B"))]).

(** add(2, 3) *)
Definition prog_add : list item := [ decl_add; Icall "add" [Enum 2; Enum 3] ].

(** add(2, 3, 4) and add(2): one argument too many, one too few *)
Definition prog_add_three : list item :=
  [ decl_add; Icall "add" [Enum 2; Enum 3; Enum 4] ].

(** DEFINE PROCEDURE "first" [A, B]: BLOCK 0: BEGIN OUTPUT <= A; BLOCK 0: END
    first(7) *)
Definition prog_first : list item :=
  [ Idecl "first" ["A"; "B"]
      (Block 0 [Sassign (Lcell (-1)) (Eparamfetch "A")]);
    Icall "first" [Enum 7] ].

(** DEFINE PROCEDURE "is_zero?" [X]: BLOCK 0: BEGIN
      IF X = 0, THEN: BLOCK 1: BEGIN OUTPUT <= YES; BLOCK 1: END
    BLOCK 0: END *)
Definition decl_is_zero : item :=
  Idecl "is_zero?" ["X"]
    (Block 0 [Scond (Ebinop Oeq (Eparamfetch "X") (Enum 0))
                (Block 1 [Sassign (Lcell (-1)) (Ebool true)])]).

(** DEFINE PROCEDURE "idle?" [X]: BLOCK 0: BEGIN BLOCK 0: END, and the same
    without the question mark *)
Definition decl_idle_p : item := Idecl "idle?" ["X"] (Block 0 []).
Definition decl_idle : item := Idecl "idle" ["X"] (Block 0 []).

(** DEFINE PROCEDURE "mix" [X]: BLOCK 0: BEGIN
      CELL(0) <= 1 = 1; OUTPUT <= CELL(0) + 1;
    BLOCK 0: END
    mix(0)
    and the same with CELL(0) * 3, CELL(0) < 2, CELL(0) > 0 and CELL(0) = 1
    for CELL(0) + 1: cell 0 holds the Boolean true of [1 = 1] *)
Definition prog_mix (op : binop) (n : Z) : list item :=
  [ Idecl "mix" ["X"]
      (Block 0 [ Sassign (Lcell 0) (Ebinop Oeq (Enum 1) (Enum 1));
                 Sassign (Lcell (-1)) (Ebinop op (Ecellfetch 0) (Enum n)) ]);
    Icall "mix" [Enum 0] ].

(** DEFINE PROCEDURE "inner" [X]: BLOCK 0: BEGIN
      CELL(0) <= 99; CELL(1) <= 98; OUTPUT <= CELL(0);
    BLOCK 0: END
    DEFINE PROCEDURE "outer" [X]: BLOCK 0: BEGIN
      CELL(0) <= 1; CELL(2) <= inner(X); OUTPUT <= CELL(0);
    BLOCK 0: END
    outer(0) *)
Definition prog_nested : list item :=
  [ Idecl "inner" ["X"]
      (Block 0 [ Sassign (Lcell 0) (Enum 99);
                 Sassign (Lcell 1) (Enum 98);
                 Sassign (Lcell (-1)) (Ecellfetch 0) ]);
    Idecl "outer" ["X"]
      (Block 0 [ Sassign (Lcell 0) (Enum 1);
                 Sassign (Lcell 2) (Ecall "inner" [Eparamfetch "X"]);
                 Sassign (Lcell (-1)) (Ecellfetch 0) ]);
    Icall "outer" [Enum 0] ].

(** DEFINE PROCEDURE "peek" [X]: BLOCK 0: BEGIN OUTPUT <= CELL(3); BLOCK 0: END
    peek(0) *)
Definition prog_peek : list item :=
  [ Idecl "peek" ["X"]
      (Block 0 [Sassign (Lcell (-1)) (Ecellfetch 3)]);
    Icall "peek" [Enum 0] ].

(** DEFINE PROCEDURE "bump" [X]: BLOCK 0: BEGIN OUTPUT <= OUTPUT + 1; BLOCK 0: END
    bump(0) *)
Definition prog_bump : list item :=
  [ Idecl "bump" ["X"]
      (Block 0 [Sassign (Lcell (-1))
                  (Ebinop Oplus (Ecellfetch (-1)) (Enum 1))]);
    Icall "bump" [Enum 0] ].

(** LOOP 3 TIMES: BLOCK 1: BEGIN
      CELL(0) <= CELL(0) + 1; QUIT BLOCK 1; CELL(0) <= 100;
    BLOCK 1: END *)
Definition loop_quit : stmt :=
  Sloop (Some (Enum 3))
    (Block 1 [ Sassign (Lcell 0) (Ebinop Oplus (Ecellfetch 0) (Enum 1));
               Squit 1;
               Sassign (Lcell 0) (Enum 100) ]).

(** LOOP CELL(0) TIMES: BLOCK 1: BEGIN CELL(0) <= CELL(0) + 1; BLOCK 1: END *)
Definition incr_body : block :=
  Block 1 [Sassign (Lcell 0) (Ebinop Oplus (Ecellfetch 0) (Enum 1))].

Definition loop_incr : stmt := Sloop (Some (Ecellfetch 0)) incr_body.

(** LOOP AT MOST 10 TIMES: the block of [mu_body] *)
Definition loop_abort : stmt := Sloop (Some (Enum 10)) mu_body.

(** The parse tree of

      DEFINE PROCEDURE "f" [A]: BLOCK 0: BEGIN
        LOOP 3 TIMES: BLOCK 1: BEGIN
        BLOCK 1: END
      BLOCK 0: END

    with the positions of the four labels. *)
Definition number (text : string) (l c : nat) : Tree + Token :=
  inr (mkToken "NUMBER" text l c).

Definition tree_inner_block : Tree :=
  mkTree "block" [ number "1" 2 27; number "1" 3 9 ].

Definition tree_f : Tree :=
  mkTree "start"
    [ inl (mkTree "decl"
        [ inl (mkTree "procname"
                 [inl (mkTree "funcname" [inr (mkToken "__ANON_1" "f" 1 19)])]);
          inl (mkTree "params"
                 [inl (mkTree "param" [inr (mkToken "__ANON_0" "A" 1 23)])]);
          inl (mkTree "block"
                 [ number "0" 1 33;
                   inl (mkTree "stmt"
                     [inl (mkTree "loop"
                        [ inl (mkTree "loophead"
                            [inl (mkTree "intval"
                               [inl (mkTree "num" [number "3" 2 10])])]);
                          inl tree_inner_block ])]);
                   number "0" 4 7 ]) ]) ].

(** The position of the inner block in [tree_f]. *)
Definition path_inner_block : list nat := [0; 2; 1; 0; 1]%nat.

(** DEFINE PROCEDURE "idle" [X]: BLOCK 0: BEGIN BLOCK 0: END
    idle(OUTPUT) *)
Definition prog_top_output : list item :=
  [ decl_idle; Icall "idle" [Ecellfetch (-1)] ].

(** ** The registry a program builds

    What the ["decl"] tuples of a list of items leave in [decls]: each
    stores its procedure under its name, over whatever was there. *)
Definition declare (decls : decls_t) (tup : item) : decls_t :=
  match tup with
  | Idecl procname params body => <[procname := (params, body)]> decls
  | Icall _ _ => decls
  end.

Definition declared (instrs : list item) (decls : decls_t) : decls_t :=
  fold_left declare instrs decls.

Definition is_decl (tup : item) : bool :=
  match tup with Idecl _ _ _ => true | Icall _ _ => false end.

Definition declares (procname : string) (tup : item) : bool :=
  match tup with
  | Idecl name _ _ => String.eqb name procname
  | Icall _ _ => false
  end.

(** ** The cells a statement can write

    The indices of the [("cell", index)] targets of the assignments that
    occur in a statement, the blocks under it included. *)
Fixpoint writes_stmt (s : stmt) : list Z :=
  match s with
  | Sloop _ body => writes_block body
  | Scond _ body => writes_block body
  | Squit _ => []
  | Sabort _ => []
  | Sassign (Lcell i) _ => [i]
  end
with writes_block (b : block) : list Z :=
  match b with
  | Block _ stmts => flat_map writes_stmt stmts
  end.

(** ** Numbers that are not negative

    The NUMBER tokens of the grammar are numerals without sign.  A tuple
    tree is [nonneg] when its ["num"] tuples hold no negative number. *)
Definition nonneg_value (v : value) : Prop := 0 <= py_int v.

Fixpoint nonneg_expr (e : expr) : bool :=
  match e with
  | Ebool _ => true
  | Enum n => 0 <=? n
  | Ecellfetch _ => true
  | Eparamfetch _ => true
  | Ebinop _ a b => nonneg_expr a && nonneg_expr b
  | Ecall _ args => forallb nonneg_expr args
  end.

Fixpoint nonneg_stmt (s : stmt) : bool :=
  match s with
  | Sloop None body => nonneg_block body
  | Sloop (Some bound) body => nonneg_expr bound && nonneg_block body
  | Scond c body => nonneg_expr c && nonneg_block body
  | Squit _ => true
  | Sabort _ => true
  | Sassign _ e => nonneg_expr e
  end
with nonneg_block (b : block) : bool :=
  match b with
  | Block _ stmts => forallb nonneg_stmt stmts
  end.

Definition nonneg_cells (c : cells_t) : Prop :=
  map_Forall (fun _ v => nonneg_value v) c.

Definition nonneg_params (p : params_t) : Prop :=
  map_Forall (fun _ v => nonneg_value v) p.

Definition nonneg_decls (decls : decls_t) : Prop :=
  map_Forall (fun _ d => nonneg_block (snd d) = true) decls.

(** LOOP e TIMES: BLOCK n: BEGIN CELL(i) <= CELL(i) + 1; BLOCK n: END *)
Definition count_up (e : expr) (n i : Z) : stmt :=
  Sloop (Some e)
    (Block n [Sassign (Lcell i) (Ebinop Oplus (Ecellfetch i) (Enum 1))]).

(** The two exceptions of the interpreter's own. *)
Definition is_signal (e : exn) : bool :=
  match e with Abort _ | Break _ => true | _ => false end.

Definition nonneg_item (tup : item) : bool :=
  match tup with
  | Idecl _ _ body => nonneg_block body
  | Icall _ args => forallb nonneg_expr args
  end.

(** ** [Sema]: from the parse tree to the tuples

    [Sema] is a lark [Transformer]: [transform] rewrites the tree bottom-up,
    replacing each token by what the method named after its type returns
    (here only [NUMBER] has one) and each tree by what the method named
    after its rule returns on the list of its rewritten children.  What the
    methods handle and return has no fixed type: Python objects. *)

Inductive pyobj : Type :=
| PNone
| PInt (n : Z)
| PBool (b : bool)
| PStr (s : string)
| PToken (tok : Token)          (* a token without method: itself, a [str] *)
| PTuple (items : list pyobj)
| PList (items : list pyobj).

(** In the definitions below [None] says that the method raises an
    exception, or that it meets an object that no tree of the grammar hands
    it and that the model does not follow ([str] of a tuple, say). *)

(** [str(x)] on a string or a token. *)
Definition py_str (x : pyobj) : option string :=
  match x with
  | PStr s => Some s
  | PToken tok => Some (tok_value tok)
  | _ => None
  end.

(** [int(x)] on an [int], a [bool], or the numeral of a string or token. *)
Definition int_obj (x : pyobj) : option Z :=
  match x with
  | PInt n => Some n
  | PBool b => Some (if b then 1 else 0)
  | PStr s => int s
  | PToken tok => int (tok_value tok)
  | _ => None
  end.

(** [items[1:-1]] and [items[1:]]. *)
Definition slice_1_m1 (items : list pyobj) : list pyobj :=
  removelast (tail items).

Definition slice_1 (items : list pyobj) : list pyobj := tail items.

(** The token types that have no method in [Sema]: the named terminals
    other than NUMBER, and the names lark gives to the anonymous patterns
    of [param], [testname] and [funcname]. *)
Definition plain_token_type (ty : string) : bool :=
  bool_decide (ty ∈ ["YES"; "NO"; "PLUS"; "TIMES"; "EQ"; "LT"; "GT"])
  || String.prefix "__ANON_" ty.

(** [Sema.NUMBER] and the tokens left as they are. *)
Definition Sema_token (tok : Token) : option pyobj :=
  if String.eqb (tok_type tok) "NUMBER" then PInt <$> int (tok_value tok)
  else if plain_token_type (tok_type tok) then Some (PToken tok)
  else None.

Definition Sema_start (items : list pyobj) : option pyobj :=
  Some (PList items).

Definition Sema_decl (items : list pyobj) : option pyobj :=
  match items with
  | [procname; params; block] =>
      Some (PTuple [PStr "decl"; procname; params; block])
  | _ => None
  end.

Definition Sema_params (toks : list pyobj) : option pyobj :=
  Some (PList toks).

Definition Sema_param (toks : list pyobj) : option pyobj :=
  x ← head toks; s ← py_str x; Some (PStr s).

Definition Sema_procname (toks : list pyobj) : option pyobj :=
  x ← head toks; s ← py_str x; Some (PStr s).

Definition Sema_testname (toks : list pyobj) : option pyobj :=
  x ← head toks; s ← py_str x; Some (PStr (s ++ "?")).

Definition Sema_funcname (toks : list pyobj) : option pyobj :=
  x ← head toks; s ← py_str x; Some (PStr s).

Definition Sema_block (items : list pyobj) : option pyobj :=
  first ← head items;
  blocknum ← int_obj first;
  final ← last items;
  end_num ← int_obj final;
  if end_num =? blocknum
  then Some (PTuple [PStr "block"; PInt blocknum; PList (slice_1_m1 items)])
  else None.

Definition Sema_item0 (items : list pyobj) : option pyobj := head items.

Definition Sema_loop (items : list pyobj) : option pyobj :=
  bound ← items !! 0%nat;
  block ← items !! 1%nat;
  Some (PTuple [PStr "loop"; bound; block]).

Definition Sema_muloop (items : list pyobj) : option pyobj :=
  block ← items !! 0%nat;
  Some (PTuple [PStr "loop"; PNone; block]).

Definition Sema_assign (items : list pyobj) : option pyobj :=
  l ← items !! 0%nat;
  r ← items !! 1%nat;
  Some (PTuple [PStr "assign"; l; r]).

Definition Sema_cell (items : list pyobj) : option pyobj :=
  x ← head items; index ← int_obj x;
  Some (PTuple [PStr "cell"; PInt index]).

Definition Sema_intexpr (items : list pyobj) : option pyobj :=
  if (length items =? 3)%nat then
    a ← items !! 0%nat;
    b ← items !! 2%nat;
    x ← items !! 1%nat;
    op ← py_str x;
    if String.eqb op "+" then Some (PTuple [PStr "plus"; a; b])
    else if String.eqb op "*" then Some (PTuple [PStr "times"; a; b])
    else None
  else head items.

Definition Sema_boolexpr (items : list pyobj) : option pyobj :=
  if (length items =? 3)%nat then
    a ← items !! 0%nat;
    b ← items !! 2%nat;
    x ← items !! 1%nat;
    op ← py_str x;
    if String.eqb op "=" then Some (PTuple [PStr "eq"; a; b])
    else if String.eqb op "<" then Some (PTuple [PStr "lt"; a; b])
    else if String.eqb op ">" then Some (PTuple [PStr "gt"; a; b])
    else None
  else head items.

Definition Sema_cond (items : list pyobj) : option pyobj :=
  c ← items !! 0%nat;
  block ← items !! 1%nat;
  Some (PTuple [PStr "cond"; c; block]).

Definition Sema_quit (items : list pyobj) : option pyobj :=
  x ← head items; blockidx ← int_obj x;
  Some (PTuple [PStr "quit"; PInt blockidx]).

Definition Sema_abort (items : list pyobj) : option pyobj :=
  x ← head items; loopidx ← int_obj x;
  Some (PTuple [PStr "abort"; PInt loopidx]).

Definition Sema_output (items : list pyobj) : option pyobj :=
  Some (PTuple [PStr "cell"; PInt (-1)]).

Definition Sema_bool (items : list pyobj) : option pyobj :=
  x ← head items; variant ← py_str x;
  if String.eqb variant "YES" || String.eqb variant "NO"
  then Some (PTuple [PStr "bool"; PBool (String.eqb variant "YES")])
  else None.

Definition Sema_num (items : list pyobj) : option pyobj :=
  x ← head items; Some (PTuple [PStr "num"; x]).

Definition Sema_cellfetch (items : list pyobj) : option pyobj :=
  x ← head items;
  match x with
  | PTuple [instr; index] | PList [instr; index] =>
      tag ← py_str instr;
      if String.eqb tag "cell"
      then Some (PTuple [PStr "cellfetch"; index])
      else None
  | _ => None
  end.

Definition Sema_paramfetch (items : list pyobj) : option pyobj :=
  x ← head items; Some (PTuple [PStr "paramfetch"; x]).

Definition Sema_outputfetch (items : list pyobj) : option pyobj :=
  Some (PTuple [PStr "cellfetch"; PInt (-1)]).

Definition Sema_call (items : list pyobj) : option pyobj :=
  x ← head items; procname ← py_str x;
  Some (PTuple [PStr "call"; PStr procname; PList (slice_1 items)]).

(** The methods of [Sema] by name. *)
Definition Sema_methods : list (string * (list pyobj -> option pyobj)) :=
  [ ("start", Sema_start); ("decl", Sema_decl); ("params", Sema_params);
    ("param", Sema_param); ("procname", Sema_procname);
    ("testname", Sema_testname); ("funcname", Sema_funcname);
    ("block", Sema_block); ("stmt", Sema_item0); ("loophead", Sema_item0);
    ("loop", Sema_loop); ("muloop", Sema_muloop); ("assign", Sema_assign);
    ("lvalue", Sema_item0); ("cell", Sema_cell); ("expr", Sema_item0);
    ("intexpr", Sema_intexpr); ("boolexpr", Sema_boolexpr);
    ("intval", Sema_item0); ("boolval", Sema_item0); ("cond", Sema_cond);
    ("quit", Sema_quit); ("abort", Sema_abort); ("output", Sema_output);
    ("bool", Sema_bool); ("num", Sema_num); ("cellfetch", Sema_cellfetch);
    ("paramfetch", Sema_paramfetch); ("outputfetch", Sema_outputfetch);
    ("call", Sema_call) ].

Fixpoint lookup_method (name : string)
    (methods : list (string * (list pyobj -> option pyobj)))
  : option (list pyobj -> option pyobj) :=
  match methods with
  | [] => None
  | (n, f) :: rest => if String.eqb n name then Some f else lookup_method name rest
  end.

(** [Transformer._call_userfunc]; a rule without method is outside the
    grammar. *)
Definition Sema_call_userfunc (data : string) (items : list pyobj)
  : option pyobj :=
  f ← lookup_method data Sema_methods; f items.

(** [Sema().transform(tree)]. *)
Fixpoint transform (tree : Tree) : option pyobj :=
  match tree with
  | mkTree d cs =>
      items ← (fix transform_children (cs : list (Tree + Token))
                 : option (list pyobj) :=
                 match cs with
                 | [] => Some []
                 | inl t :: rest =>
                     x ← transform t;
                     xs ← transform_children rest;
                     Some (x :: xs)
                 | inr tok :: rest =>
                     x ← Sema_token tok;
                     xs ← transform_children rest;
                     Some (x :: xs)
                 end) cs;
      Sema_call_userfunc d items
  end.

Definition transform_child (c : Tree + Token) : option pyobj :=
  match c with
  | inl t => transform t
  | inr tok => Sema_token tok
  end.

(** ** The tuples as typed trees

    [runinstr] reads the tuples of [Sema] by their tags.  The decoders give
    the typed tree of a tuple that has the shape [runinstr] expects, and
    [None] for any other object. *)

Definition binop_of_tag (tag : string) : option binop :=
  if String.eqb tag "eq" then Some Oeq
  else if String.eqb tag "lt" then Some Olt
  else if String.eqb tag "gt" then Some Ogt
  else if String.eqb tag "plus" then Some Oplus
  else if String.eqb tag "times" then Some Otimes
  else None.

Fixpoint decode_expr (v : pyobj) : option expr :=
  match v with
  | PTuple [PStr tag; x] =>
      if String.eqb tag "bool" then
        match x with PBool b => Some (Ebool b) | _ => None end
      else if String.eqb tag "num" then
        match x with PInt n => Some (Enum n) | _ => None end
      else if String.eqb tag "cellfetch" then
        match x with PInt i => Some (Ecellfetch i) | _ => None end
      else if String.eqb tag "paramfetch" then
        match x with PStr p => Some (Eparamfetch p) | _ => None end
      else None
  | PTuple [PStr tag; a; b] =>
      if String.eqb tag "call" then
        match a, b with
        | PStr procname, PList args =>
            args' ← (fix decode_args (l : list pyobj) : option (list expr) :=
                       match l with
                       | [] => Some []
                       | x :: rest =>
                           e ← decode_expr x;
                           es ← decode_args rest;
                           Some (e :: es)
                       end) args;
            Some (Ecall procname args')
        | _, _ => None
        end
      else
        op ← binop_of_tag tag;
        a' ← decode_expr a;
        b' ← decode_expr b;
        Some (Ebinop op a' b')
  | _ => None
  end.

Definition decode_lvalue (v : pyobj) : option lvalue :=
  match v with
  | PTuple [PStr tag; PInt i] =>
      if String.eqb tag "cell" then Some (Lcell i) else None
  | _ => None
  end.

Fixpoint decode_stmt (v : pyobj) : option stmt :=
  match v with
  | PTuple [PStr tag; PInt n] =>
      if String.eqb tag "quit" then Some (Squit n)
      else if String.eqb tag "abort" then Some (Sabort n)
      else None
  | PTuple [PStr tag; a; b] =>
      if String.eqb tag "loop" then
        body ← decode_block b;
        match a with
        | PNone => Some (Sloop None body)
        | _ => bound ← decode_expr a; Some (Sloop (Some bound) body)
        end
      else if String.eqb tag "cond" then
        c ← decode_expr a; body ← decode_block b; Some (Scond c body)
      else if String.eqb tag "assign" then
        l ← decode_lvalue a; e ← decode_expr b; Some (Sassign l e)
      else None
  | _ => None
  end
with decode_block (v : pyobj) : option block :=
  match v with
  | PTuple [PStr tag; PInt blocknum; PList stmts] =>
      if String.eqb tag "block" then
        stmts' ← (fix decode_stmts (l : list pyobj) : option (list stmt) :=
                    match l with
                    | [] => Some []
                    | x :: rest =>
                        s ← decode_stmt x;
                        ss ← decode_stmts rest;
                        Some (s :: ss)
                    end) stmts;
        Some (Block blocknum stmts')
      else None
  | _ => None
  end.

Definition decode_name (v : pyobj) : option string :=
  match v with PStr s => Some s | _ => None end.

Definition decode_item (v : pyobj) : option item :=
  match v with
  | PTuple [PStr tag; PStr procname; PList params; block] =>
      if String.eqb tag "decl" then
        ps ← mapM decode_name params;
        body ← decode_block block;
        Some (Idecl procname ps body)
      else None
  | PTuple [PStr tag; PStr procname; PList args] =>
      if String.eqb tag "call" then
        args' ← mapM decode_expr args;
        Some (Icall procname args')
      else None
  | _ => None
  end.

Definition decode_program (v : pyobj) : option (list item) :=
  match v with
  | PList items => mapM decode_item items
  | _ => None
  end.

(** ** The trees of the grammar

    The parse trees lark builds for the grammar of lines 4-46: a tree per
    rule, named after it, whose children are the trees and the tokens of
    the alternative taken, in order, without the tokens of the quoted
    strings of the rules (lark leaves them out) and with those of the named
    terminals and of the patterns. *)

Definition is_tree (names : list string) (c : Tree + Token) : bool :=
  match c with
  | inl t => bool_decide (data t ∈ names)
  | inr _ => false
  end.

Definition is_number (c : Tree + Token) : bool :=
  match c with
  | inl _ => false
  | inr tok =>
      String.eqb (tok_type tok) "NUMBER"
      && bool_decide (is_Some (int (tok_value tok)))
  end.

Definition is_word (c : Tree + Token) : bool :=
  match c with
  | inl _ => false
  | inr tok => String.prefix "__ANON_" (tok_type tok)
  end.

Definition is_terminal (names : list string) (c : Tree + Token) : bool :=
  match c with
  | inl _ => false
  | inr tok =>
      bool_decide ((tok_type tok, tok_value tok) ∈
        filter (fun p => bool_decide (fst p ∈ names))
          [("YES", "YES"); ("NO", "NO"); ("PLUS", "+"); ("TIMES", "*");
           ("EQ", "="); ("LT", "<"); ("GT", ">")])
  end.

Definition one (p : Tree + Token -> bool) (cs : list (Tree + Token)) : bool :=
  match cs with [c] => p c | _ => false end.

Definition Grammar_rules : list (string * (list (Tree + Token) -> bool)) :=
  [ ("start", fun cs =>
       forallb (is_tree ["decl"]) (removelast cs)
       && match last cs with
          | None => true
          | Some c => is_tree ["decl"; "call"] c
          end);
    ("decl", fun cs =>
       match cs with
       | [a; b; c] =>
           is_tree ["procname"] a && is_tree ["params"] b && is_tree ["block"] c
       | _ => false
       end);
    ("params", fun cs =>
       negb (bool_decide (cs = [])) && forallb (is_tree ["param"]) cs);
    ("param", one is_word);
    ("procname", one (is_tree ["testname"; "funcname"]));
    ("testname", one is_word);
    ("funcname", one is_word);
    ("block", fun cs =>
       match cs with
       | first :: rest =>
           is_number first
           && match last rest with
              | None => false
              | Some final => is_number final
              end
           && forallb (is_tree ["stmt"]) (removelast rest)
       | [] => false
       end);
    ("stmt", one (is_tree ["loop"; "cond"; "quit"; "abort"; "muloop"; "assign"]));
    ("loophead", one (is_tree ["intval"]));
    ("loop", fun cs =>
       match cs with
       | [a; b] => is_tree ["loophead"] a && is_tree ["block"] b
       | _ => false
       end);
    ("muloop", one (is_tree ["block"]));
    ("assign", fun cs =>
       match cs with
       | [a; b] => is_tree ["lvalue"] a && is_tree ["expr"] b
       | _ => false
       end);
    ("lvalue", one (is_tree ["cell"; "output"]));
    ("cell", one is_number);
    ("expr", one (is_tree ["boolexpr"; "intexpr"]));
    ("intexpr", fun cs =>
       match cs with
       | [a; op; b] =>
           is_tree ["intval"] a && is_terminal ["PLUS"; "TIMES"] op
           && is_tree ["intval"] b
       | [a] => is_tree ["intval"] a
       | _ => false
       end);
    ("boolexpr", fun cs =>
       match cs with
       | [a; op; b] =>
           (is_tree ["boolval"] a && is_terminal ["EQ"] op
            && is_tree ["boolval"] b)
           || (is_tree ["intval"] a && is_terminal ["EQ"; "LT"; "GT"] op
               && is_tree ["intval"] b)
       | [a] => is_tree ["boolval"] a
       | _ => false
       end);
    ("intval",
       one (is_tree ["num"; "cellfetch"; "outputfetch"; "call"; "paramfetch"]));
    ("boolval", one (is_tree ["bool"; "cellfetch"; "outputfetch"; "call"]));
    ("cellfetch", one (is_tree ["cell"]));
    ("paramfetch", one (is_tree ["param"]));
    ("outputfetch", one (is_tree ["output"]));
    ("cond", fun cs =>
       match cs with
       | [a; b] => is_tree ["boolexpr"] a && is_tree ["block"] b
       | _ => false
       end);
    ("quit", one is_number);
    ("abort", one is_number);
    ("output", fun cs => bool_decide (cs = []));
    ("bool", one (is_terminal ["YES"; "NO"]));
    ("num", one is_number);
    ("call", fun cs =>
       match cs with
       | name :: arg :: args =>
           is_tree ["procname"] name
           && forallb (is_tree ["intval"]) (arg :: args)
       | _ => false
       end) ].

Fixpoint lookup_rule (name : string)
    (rules : list (string * (list (Tree + Token) -> bool)))
  : option (list (Tree + Token) -> bool) :=
  match rules with
  | [] => None
  | (n, f) :: rest => if String.eqb n name then Some f else lookup_rule name rest
  end.

(** The children of a tree are those of an alternative of its rule. *)
Definition rule_ok (t : Tree) : bool :=
  match lookup_rule (data t) Grammar_rules with
  | Some f => f (children t)
  | None => false
  end.

(** Every tree in it is. *)
Fixpoint grammar (t : Tree) : bool :=
  match t with
  | mkTree d cs =>
      rule_ok (mkTree d cs)
      && (fix all (cs : list (Tree + Token)) : bool :=
            match cs with
            | [] => true
            | inl t' :: rest => grammar t' && all rest
            | inr _ :: rest => all rest
            end) cs
  end.

(** The program a tree stands for: validated, built, decoded. *)
Definition build (tree : Tree) : option (list item) :=
  match visit tree with
  | Some _ => None
  | None => v ← transform tree; decode_program v
  end.

(** What the method of each rule is to return on a tree of the grammar, by
    the kind of the rule. *)
Inductive kind : Type :=
| KProgram | KDecl | KParams | KName | KBlock | KStmt | KLvalue | KCall | KExpr.

Definition kind_of (name : string) : option kind :=
  let among := existsb (String.eqb name) in
  if among ["start"] then Some KProgram
  else if among ["decl"] then Some KDecl
  else if among ["params"] then Some KParams
  else if among ["param"; "procname"; "testname"; "funcname"] then Some KName
  else if among ["block"] then Some KBlock
  else if among ["stmt"; "loop"; "muloop"; "assign"; "cond"; "quit"; "abort"]
  then Some KStmt
  else if among ["lvalue"; "cell"; "output"] then Some KLvalue
  else if among ["call"] then Some KCall
  else if among ["loophead"; "expr"; "intexpr"; "boolexpr"; "intval";
                 "boolval"; "cellfetch"; "paramfetch"; "outputfetch"; "bool";
                 "num"]
  then Some KExpr
  else None.

Definition decodes_kind (k : kind) (v : pyobj) : Prop :=
  match k with
  | KProgram =>
      exists prog, decode_program v = Some prog /\
        forallb nonneg_item prog = true
  | KDecl =>
      exists it, decode_item v = Some it /\ is_decl it = true /\
        nonneg_item it = true
  | KParams => exists ps, v = PList (PStr <$> ps)
  | KName => exists s, v = PStr s
  | KBlock => exists b, decode_block v = Some b /\ nonneg_block b = true
  | KStmt => exists s, decode_stmt v = Some s /\ nonneg_stmt s = true
  | KLvalue => exists i, v = PTuple [PStr "cell"; PInt i]
  | KCall =>
      exists procname vs args,
        v = PTuple [PStr "call"; PStr procname; PList vs] /\
        mapM decode_expr vs = Some args /\ forallb nonneg_expr args = true
  | KExpr => exists e, decode_expr v = Some e /\ nonneg_expr e = true
  end.

Definition decodes (name : string) (v : pyobj) : Prop :=
  match kind_of name with
  | Some k => decodes_kind k v
  | None => False
  end.

(** Every block under the tree passes [CheckBlocks.block]. *)
Definition checked (t : Tree) : Prop :=
  forall p b, subtree_at t p = Some b -> call_userfunc b = None.

(** A tuple of kind [k'] serves where one of kind [k] is expected: a call is
    an expression too. *)
Definition kind_le (k' k : kind) : bool :=
  match k', k with
  | KProgram, KProgram | KDecl, KDecl | KParams, KParams | KName, KName
  | KBlock, KBlock | KStmt, KStmt | KLvalue, KLvalue | KCall, KCall
  | KExpr, KExpr | KCall, KExpr => true
  | _, _ => false
  end.

Definition names_of_kind (k : kind) (names : list string) : bool :=
  forallb (fun n => match kind_of n with
                    | Some k' => kind_le k' k
                    | None => false
                    end) names.

(** * Properties *)

Ltac by_computation := vm_compute; reflexivity.

(** ** Leaves need no fuel *)

Lemma runinstr_expr_bool decls fuel b (c : cells_t) params :
  runinstr_expr decls fuel (Ebool b) c params = (Return (VBool b), c).
Proof. destruct fuel; reflexivity. Qed.

Lemma runinstr_expr_num decls fuel n (c : cells_t) params :
  runinstr_expr decls fuel (Enum n) c params = (Return (VInt n), c).
Proof. destruct fuel; reflexivity. Qed.

Lemma runinstr_expr_cellfetch decls fuel i (c : cells_t) params :
  runinstr_expr decls fuel (Ecellfetch i) c params =
  match c !! i with
  | Some v => (Return v, c)
  | None => (Raise (KeyError (KInt i)), c)
  end.
Proof. destruct fuel; reflexivity. Qed.

Lemma runinstr_expr_paramfetch decls fuel p (c : cells_t) (params : params_t) :
  runinstr_expr decls fuel (Eparamfetch p) c params =
  match params !! p with
  | Some v => (Return v, c)
  | None => (Raise (KeyError (KStr p)), c)
  end.
Proof. destruct fuel; reflexivity. Qed.

Lemma runinstr_stmt_quit decls fuel n (c : cells_t) params :
  runinstr_stmt decls fuel (Squit n) c params = (Raise (Break n), c).
Proof. destruct fuel; reflexivity. Qed.

Lemma runinstr_stmt_abort decls fuel n (c : cells_t) params :
  runinstr_stmt decls fuel (Sabort n) c params = (Raise (Abort n), c).
Proof. destruct fuel; reflexivity. Qed.

(** ** Expressions leave the cells alone *)

Lemma eval_args_frame ev args (c : cells_t) :
  (forall a c0, snd (ev a c0) = c0) ->
  snd (eval_args ev args c) = c.
Proof.
  intros Hev. revert c. induction args as [|a rest IH]; intros c; simpl.
  - reflexivity.
  - specialize (Hev a c). destruct (ev a c) as [[v| |] c1]; simpl in *; subst; auto.
    specialize (IH c). destruct (eval_args ev rest c) as [[vs| |] c2]; simpl in *; auto.
Qed.

Lemma runinstr_expr_frame decls fuel tup (c : cells_t) params :
  snd (runinstr_expr decls fuel tup c params) = c.
Proof.
  revert tup c params. induction fuel as [|fuel IH]; intros tup c params.
  - destruct tup as [b|n|i|p|op a b|procname args]; simpl; try reflexivity.
    + destruct (c !! i); reflexivity.
    + destruct (params !! p); reflexivity.
  - destruct tup as [b|n|i|p|op a b|procname args]; simpl; try reflexivity.
    + destruct (c !! i); reflexivity.
    + destruct (params !! p); reflexivity.
    + pose proof (IH a c params) as H1.
      destruct (runinstr_expr decls fuel a c params) as [[va| |] c1];
        simpl in *; subst; auto.
      pose proof (IH b c params) as H2.
      destruct (runinstr_expr decls fuel b c params) as [[vb| |] c2];
        simpl in *; subst; auto.
    + pose proof (eval_args_frame
                    (fun arg c0 => runinstr_expr decls fuel arg c0 params)
                    args c (fun a c0 => IH a c0 params)) as Ha.
      destruct (eval_args _ args c) as [[vs| |] c1]; simpl in *; subst; auto.
      destruct (decls !! procname) as [[funcparams body]|]; simpl; auto.
      destruct (runinstr_block decls fuel body _ _) as [[u|e|] c2]; simpl; auto.
      * destruct (c2 !! (-1)); reflexivity.
      * destruct e; reflexivity.
Qed.

Lemma runinstr_expr_cells decls fuel tup (c : cells_t) params r c' :
  runinstr_expr decls fuel tup c params = (r, c') -> c' = c.
Proof.
  intros H. pose proof (runinstr_expr_frame decls fuel tup c params) as F.
  rewrite H in F. exact F.
Qed.

(** ** Invariants of the cells

    A property of the store that every assignment keeps is kept by every
    statement, whatever its outcome. *)

Section Invariant.

Variable P : cells_t -> Prop.

Lemma run_keeps ev instrs :
  (forall s, keeps P (ev s)) -> keeps P (run ev instrs).
Proof.
  intros Hev. induction instrs as [|s rest IH]; intros c Hc; simpl; auto.
  specialize (Hev s c Hc).
  destruct (ev s c) as [[u|e|] c1]; simpl in *; auto.
Qed.

Lemma loop_pass_keeps body blocknum c :
  keeps P body -> P c -> P (snd (loop_pass body blocknum c)).
Proof.
  intros Hb Hc. unfold loop_pass. specialize (Hb c Hc).
  destruct (body c) as [[u|e|] c1]; simpl in *; auto.
  destruct e as [n|n|k| |]; simpl; auto.
  destruct (n =? blocknum); simpl; auto.
Qed.

Lemma for_range_keeps bound body blocknum :
  keeps P body -> keeps P (for_range bound body blocknum).
Proof.
  intros Hb. induction bound as [|n IH]; intros c Hc; simpl; auto.
  pose proof (loop_pass_keeps body blocknum c Hb Hc) as Hp.
  destruct (loop_pass body blocknum c) as [[r|] c1]; simpl in *; auto.
Qed.

Lemma while_true_keeps fuel body blocknum :
  keeps P body -> keeps P (while_true fuel body blocknum).
Proof.
  intros Hb. induction fuel as [|n IH]; intros c Hc; simpl; auto.
  pose proof (loop_pass_keeps body blocknum c Hb Hc) as Hp.
  destruct (loop_pass body blocknum c) as [[r|] c1]; simpl in *; auto.
Qed.

Hypothesis P_insert : forall c i v, P c -> P (<[i := v]> c).

Lemma runinstr_keeps decls fuel :
  (forall s params, keeps P (fun c => runinstr_stmt decls fuel s c params)) /\
  (forall b params, keeps P (fun c => runinstr_block decls fuel b c params)).
Proof.
  induction fuel as [|fuel [IHs IHb]].
  - split.
    + intros s params c Hc. destruct s as [[bd|] body|t body|n|n|[i] e]; simpl; auto.
    + intros [n stmts] params c Hc. simpl. auto.
  - split.
    + intros s params c Hc.
      destruct s as [[bd|] body|t body|n|n|[i] e]; simpl; auto.
      * destruct (runinstr_expr decls fuel bd c params) as [[v|x|] c1] eqn:E;
          apply runinstr_expr_cells in E; subst; simpl; auto.
        apply for_range_keeps; [exact (IHb body params) | exact Hc].
      * pose proof (while_true_keeps fuel
                      (fun c0 => runinstr_block decls fuel body c0 params)
                      (block_num body) (fun c0 H0 => IHb body params c0 H0) c Hc) as Hw.
        destruct (while_true _ _ _ c) as [[u|x|] c1]; simpl in *; auto.
      * destruct (runinstr_expr decls fuel t c params) as [[v|x|] c1] eqn:E;
          apply runinstr_expr_cells in E; subst; simpl; auto.
        destruct (truthy v); simpl; auto. apply IHb; auto.
      * destruct (runinstr_expr decls fuel e c params) as [[v|x|] c1] eqn:E;
          apply runinstr_expr_cells in E; subst; simpl; auto.
    + intros [n stmts] params c Hc. simpl.
      pose proof (run_keeps (fun s c0 => runinstr_stmt decls fuel s c0 params)
                    stmts (fun s c0 H0 => IHs s params c0 H0) c Hc) as Hr.
      destruct (run _ stmts c) as [[u|x|] c1]; simpl in *; auto.
      destruct x as [m|m|k| |]; simpl; auto.
      destruct (negb (m =? n)); simpl; auto.
Qed.

End Invariant.

(** A cell that holds a value keeps holding one: nothing deletes a cell. *)
Lemma insert_keeps_cell (j : Z) (c : cells_t) i v :
  is_Some (c !! j) -> is_Some (<[i := v]> c !! j).
Proof.
  intros H. destruct (decide (i = j)) as [->|Hne].
  - rewrite lookup_insert_eq. eauto.
  - rewrite lookup_insert_ne; auto.
Qed.

Lemma runinstr_block_keeps_cell decls fuel b params (c : cells_t) j :
  is_Some (c !! j) ->
  is_Some (snd (runinstr_block decls fuel b c params) !! j).
Proof.
  intros H.
  apply (proj2 (runinstr_keeps (fun c0 => is_Some (c0 !! j))
                  (insert_keeps_cell j) decls fuel) b params c H).
Qed.

Lemma runinstr_stmt_keeps_cell decls fuel s params (c : cells_t) j :
  is_Some (c !! j) ->
  is_Some (snd (runinstr_stmt decls fuel s c params) !! j).
Proof.
  intros H.
  apply (proj1 (runinstr_keeps (fun c0 => is_Some (c0 !! j))
                  (insert_keeps_cell j) decls fuel) s params c H).
Qed.

(** ** The equations of [runinstr] at positive fuel *)

Lemma runinstr_expr_binop decls fuel op a b (c : cells_t) params :
  runinstr_expr decls (S fuel) (Ebinop op a b) c params =
  match runinstr_expr decls fuel a c params with
  | (Return va, cells1) =>
      match runinstr_expr decls fuel b cells1 params with
      | (Return vb, cells2) => (Return (eval_binop op va vb), cells2)
      | r => r
      end
  | r => r
  end.
Proof. reflexivity. Qed.

Lemma runinstr_expr_call decls fuel procname args (c : cells_t) params :
  runinstr_expr decls (S fuel) (Ecall procname args) c params =
  match eval_args (fun arg c0 => runinstr_expr decls fuel arg c0 params)
          args c with
  | (Return funcargs, cells1) =>
      match decls !! procname with
      | None => (Raise (KeyError (KStr procname)), cells1)
      | Some (funcparams, body) =>
          match runinstr_block decls fuel body
                  {[ (-1) := default_output procname ]}
                  (dict_zip funcparams funcargs) with
          | (Return _, cells'') =>
              match cells'' !! (-1) with
              | Some v => (Return v, cells1)
              | None => (Raise (KeyError (KInt (-1))), cells1)
              end
          | (Raise (Abort _), _) => (Raise AttributeError, cells1)
          | (Raise (Break _), _) => (Raise AttributeError, cells1)
          | (Raise e, _) => (Raise e, cells1)
          | (OutOfFuel, _) => (OutOfFuel, cells1)
          end
      end
  | (Raise e, cells1) => (Raise e, cells1)
  | (OutOfFuel, cells1) => (OutOfFuel, cells1)
  end.
Proof. reflexivity. Qed.

Lemma runinstr_stmt_cond decls fuel t body (c : cells_t) params :
  runinstr_stmt decls (S fuel) (Scond t body) c params =
  match runinstr_expr decls fuel t c params with
  | (Return cond, cells1) =>
      if truthy cond then runinstr_block decls fuel body cells1 params
      else (Return tt, cells1)
  | (Raise e, cells1) => (Raise e, cells1)
  | (OutOfFuel, cells1) => (OutOfFuel, cells1)
  end.
Proof. reflexivity. Qed.

Lemma runinstr_stmt_assign decls fuel i e (c : cells_t) params :
  runinstr_stmt decls (S fuel) (Sassign (Lcell i) e) c params =
  match runinstr_expr decls fuel e c params with
  | (Return v, cells1) => (Return tt, <[i := v]> cells1)
  | (Raise x, cells1) => (Raise x, cells1)
  | (OutOfFuel, cells1) => (OutOfFuel, cells1)
  end.
Proof. reflexivity. Qed.

Lemma runinstr_stmt_mu_loop decls fuel body (c : cells_t) params :
  runinstr_stmt decls (S fuel) (Sloop None body) c params =
  match while_true fuel (fun c0 => runinstr_block decls fuel body c0 params)
          (block_num body) c with
  | (Return _, cells1) => (Raise TypeError, cells1)
  | r => r
  end.
Proof. reflexivity. Qed.

Lemma runinstr_stmt_loop decls fuel bound_expr body (c : cells_t) params :
  runinstr_stmt decls (S fuel) (Sloop (Some bound_expr) body) c params =
  match runinstr_expr decls fuel bound_expr c params with
  | (Return bound, cells1) =>
      for_range (Z.to_nat (py_int bound))
        (fun c0 => runinstr_block decls fuel body c0 params)
        (block_num body) cells1
  | (Raise e, cells1) => (Raise e, cells1)
  | (OutOfFuel, cells1) => (OutOfFuel, cells1)
  end.
Proof. reflexivity. Qed.

Lemma runinstr_block_S decls fuel blocknum stmts (c : cells_t) params :
  runinstr_block decls (S fuel) (Block blocknum stmts) c params =
  match run (fun s c0 => runinstr_stmt decls fuel s c0 params) stmts c with
  | (Raise (Break n), cells1) =>
      if negb (n =? blocknum) then (Raise (Break n), cells1)
      else (Return tt, cells1)
  | r => r
  end.
Proof. reflexivity. Qed.

(** ** More fuel changes no result *)

Lemma eval_args_mono ev1 ev2 :
  extends ev1 ev2 -> extends (eval_args ev1) (eval_args ev2).
Proof.
  intros Hext args. induction args as [|a rest IH]; intros c r c' H Hr; simpl in *.
  - exact H.
  - destruct (ev1 a c) as [[v|e|] c1] eqn:E1.
    + rewrite (Hext a c _ _ E1) by discriminate.
      destruct (eval_args ev1 rest c1) as [[vs|e|] c2] eqn:E2.
      * rewrite (IH c1 _ _ E2) by discriminate. exact H.
      * rewrite (IH c1 _ _ E2) by discriminate. exact H.
      * injection H as <- <-. contradiction.
    + rewrite (Hext a c _ _ E1) by discriminate. exact H.
    + injection H as <- <-. contradiction.
Qed.

Lemma run_mono ev1 ev2 :
  extends ev1 ev2 -> extends (run ev1) (run ev2).
Proof.
  intros Hext instrs. induction instrs as [|s rest IH]; intros c r c' H Hr; simpl in *.
  - exact H.
  - destruct (ev1 s c) as [[v|e|] c1] eqn:E1.
    + rewrite (Hext s c _ _ E1) by discriminate. apply IH; auto.
    + rewrite (Hext s c _ _ E1) by discriminate. exact H.
    + injection H as <- <-. contradiction.
Qed.

Lemma loop_pass_mono body1 body2 blocknum (c : cells_t) o c' :
  extends0 body1 body2 ->
  loop_pass body1 blocknum c = (o, c') -> o <> Some OutOfFuel ->
  loop_pass body2 blocknum c = (o, c').
Proof.
  intros Hext H Ho. unfold loop_pass in *.
  destruct (body1 c) as [[v|e|] c1] eqn:E1.
  - rewrite (Hext c _ _ E1) by discriminate. exact H.
  - rewrite (Hext c _ _ E1) by discriminate. exact H.
  - injection H as <- <-. contradiction.
Qed.

Lemma for_range_mono bound body1 body2 blocknum :
  extends0 body1 body2 ->
  extends0 (for_range bound body1 blocknum) (for_range bound body2 blocknum).
Proof.
  intros Hext. induction bound as [|n IH]; intros c r c' H Hr; simpl in *.
  - exact H.
  - destruct (loop_pass body1 blocknum c) as [[o|] c1] eqn:E1.
    + rewrite (loop_pass_mono body1 body2 blocknum c _ _ Hext E1).
      * exact H.
      * injection H as <- <-. congruence.
    + rewrite (loop_pass_mono body1 body2 blocknum c _ _ Hext E1) by discriminate.
      apply IH; auto.
Qed.

Lemma while_true_S fuel body blocknum (c : cells_t) :
  while_true (S fuel) body blocknum c =
  match loop_pass body blocknum c with
  | (None, cells1) => while_true fuel body blocknum cells1
  | (Some r, cells1) => (r, cells1)
  end.
Proof. reflexivity. Qed.

Lemma while_true_mono fuel body1 body2 blocknum :
  extends0 body1 body2 ->
  extends0 (while_true fuel body1 blocknum) (while_true (S fuel) body2 blocknum).
Proof.
  intros Hext. induction fuel as [|n IH]; intros c r c' H Hr.
  - simpl in H. injection H as <- <-. contradiction.
  - rewrite while_true_S in H. rewrite while_true_S.
    destruct (loop_pass body1 blocknum c) as [[o|] c1] eqn:E1.
    + rewrite (loop_pass_mono body1 body2 blocknum c _ _ Hext E1).
      * exact H.
      * injection H as <- <-. congruence.
    + rewrite (loop_pass_mono body1 body2 blocknum c _ _ Hext E1) by discriminate.
      apply IH; auto.
Qed.

Ltac out_of_fuel H := injection H as <- <-; contradiction.

Lemma runinstr_mono_S decls fuel :
  (forall params, extends (fun e c => runinstr_expr decls fuel e c params)
                          (fun e c => runinstr_expr decls (S fuel) e c params)) /\
  (forall params, extends (fun s c => runinstr_stmt decls fuel s c params)
                          (fun s c => runinstr_stmt decls (S fuel) s c params)) /\
  (forall params, extends (fun b c => runinstr_block decls fuel b c params)
                          (fun b c => runinstr_block decls (S fuel) b c params)).
Proof.
  induction fuel as [|fuel (IHe & IHs & IHb)].
  - repeat split; intros params tup c r c' H Hr.
    + destruct tup as [b|n|i|p|op a b|procname args]; simpl in *;
        try exact H; out_of_fuel H.
    + destruct tup as [[bd|] body|t body|n|n|[i] e]; simpl in *;
        try exact H; out_of_fuel H.
    + destruct tup as [n stmts]. simpl in H. out_of_fuel H.
  - repeat split; intros params tup c r c' H Hr.
    + destruct tup as [b|n|i|p|op a b|procname args]; try exact H.
      * rewrite runinstr_expr_binop in H. rewrite runinstr_expr_binop.
        destruct (runinstr_expr decls fuel a c params) as [[va|e|] c1] eqn:E1.
        -- rewrite (IHe params a c _ _ E1) by discriminate.
           destruct (runinstr_expr decls fuel b c1 params) as [[vb|e|] c2] eqn:E2.
           ++ rewrite (IHe params b c1 _ _ E2) by discriminate. exact H.
           ++ rewrite (IHe params b c1 _ _ E2) by discriminate. exact H.
           ++ out_of_fuel H.
        -- rewrite (IHe params a c _ _ E1) by discriminate. exact H.
        -- out_of_fuel H.
      * rewrite runinstr_expr_call in H. rewrite runinstr_expr_call.
        destruct (eval_args (fun arg c0 => runinstr_expr decls fuel arg c0 params)
                    args c) as [[vs|e|] c1] eqn:E1.
        -- rewrite (eval_args_mono _ _ (IHe params) args c _ _ E1) by discriminate.
           destruct (decls !! procname) as [[funcparams body]|]; [|exact H].
           destruct (runinstr_block decls fuel body _ _) as [[u|e|] c2] eqn:E2.
           ++ rewrite (IHb _ body _ _ _ E2) by discriminate. exact H.
           ++ rewrite (IHb _ body _ _ _ E2) by discriminate. exact H.
           ++ out_of_fuel H.
        -- rewrite (eval_args_mono _ _ (IHe params) args c _ _ E1) by discriminate.
           exact H.
        -- out_of_fuel H.
    + destruct tup as [[bd|] body|t body|n|n|[i] e]; try exact H.
      * rewrite runinstr_stmt_loop in H. rewrite runinstr_stmt_loop.
        destruct (runinstr_expr decls fuel bd c params) as [[v|e|] c1] eqn:E1.
        -- rewrite (IHe params bd c _ _ E1) by discriminate.
           apply (for_range_mono _ _ _ _ (IHb params body) _ _ _ H Hr).
        -- rewrite (IHe params bd c _ _ E1) by discriminate. exact H.
        -- out_of_fuel H.
      * rewrite runinstr_stmt_mu_loop in H. rewrite runinstr_stmt_mu_loop.
        destruct (while_true fuel _ _ c) as [[u|e|] c1] eqn:E1.
        -- rewrite (while_true_mono _ _ _ _ (IHb params body) _ _ _ E1)
             by discriminate. exact H.
        -- rewrite (while_true_mono _ _ _ _ (IHb params body) _ _ _ E1)
             by discriminate. exact H.
        -- out_of_fuel H.
      * rewrite runinstr_stmt_cond in H. rewrite runinstr_stmt_cond.
        destruct (runinstr_expr decls fuel t c params) as [[v|e|] c1] eqn:E1.
        -- rewrite (IHe params t c _ _ E1) by discriminate.
           destruct (truthy v); [|exact H]. apply IHb; auto.
        -- rewrite (IHe params t c _ _ E1) by discriminate. exact H.
        -- out_of_fuel H.
      * rewrite runinstr_stmt_assign in H. rewrite runinstr_stmt_assign.
        destruct (runinstr_expr decls fuel e c params) as [[v|x|] c1] eqn:E1.
        -- rewrite (IHe params e c _ _ E1) by discriminate. exact H.
        -- rewrite (IHe params e c _ _ E1) by discriminate. exact H.
        -- out_of_fuel H.
    + destruct tup as [n stmts].
      rewrite runinstr_block_S in H. rewrite runinstr_block_S.
      destruct (run (fun s c0 => runinstr_stmt decls fuel s c0 params) stmts c)
        as [[u|e|] c1] eqn:E1.
      * rewrite (run_mono _ _ (IHs params) stmts c _ _ E1) by discriminate. exact H.
      * rewrite (run_mono _ _ (IHs params) stmts c _ _ E1) by discriminate. exact H.
      * out_of_fuel H.
Qed.

Lemma runinstr_expr_more_fuel decls fuel fuel' tup (c : cells_t) params r c' :
  (fuel <= fuel')%nat ->
  runinstr_expr decls fuel tup c params = (r, c') -> r <> OutOfFuel ->
  runinstr_expr decls fuel' tup c params = (r, c').
Proof.
  intros Hle H Hr. induction Hle as [|m _ IH]; [exact H|].
  apply (proj1 (runinstr_mono_S decls m) params tup c r c' IH Hr).
Qed.

Lemma runinstr_stmt_more_fuel decls fuel fuel' tup (c : cells_t) params r c' :
  (fuel <= fuel')%nat ->
  runinstr_stmt decls fuel tup c params = (r, c') -> r <> OutOfFuel ->
  runinstr_stmt decls fuel' tup c params = (r, c').
Proof.
  intros Hle H Hr. induction Hle as [|m _ IH]; [exact H|].
  apply (proj1 (proj2 (runinstr_mono_S decls m)) params tup c r c' IH Hr).
Qed.

Lemma runinstr_block_more_fuel decls fuel fuel' tup (c : cells_t) params r c' :
  (fuel <= fuel')%nat ->
  runinstr_block decls fuel tup c params = (r, c') -> r <> OutOfFuel ->
  runinstr_block decls fuel' tup c params = (r, c').
Proof.
  intros Hle H Hr. induction Hle as [|m _ IH]; [exact H|].
  apply (proj2 (proj2 (runinstr_mono_S decls m)) params tup c r c' IH Hr).
Qed.

Lemma run_items_more_fuel fuel fuel' instrs res decls (c : cells_t) params r d' c' :
  (fuel <= fuel')%nat ->
  run_items fuel instrs res decls c params = (r, d', c') -> r <> OutOfFuel ->
  run_items fuel' instrs res decls c params = (r, d', c').
Proof.
  intros Hle. revert res decls c.
  induction instrs as [|tup rest IH]; intros res decls c H Hr; simpl in *.
  - exact H.
  - destruct tup as [procname ps body|procname args]; simpl in *.
    + apply IH; auto.
    + destruct (runinstr_expr decls fuel (Ecall procname args) c params)
        as [[v|e|] c1] eqn:E1.
      * rewrite (runinstr_expr_more_fuel _ _ _ _ _ _ _ _ Hle E1) by discriminate.
        apply IH; auto.
      * rewrite (runinstr_expr_more_fuel _ _ _ _ _ _ _ _ Hle E1) by discriminate.
        exact H.
      * injection H as <- <- <-. contradiction.
Qed.

Lemma run_program_more_fuel fuel fuel' ev r :
  (fuel <= fuel')%nat ->
  run_program fuel ev = r -> r <> OutOfFuel ->
  run_program fuel' ev = r.
Proof.
  unfold run_program. intros Hle H Hr.
  destruct (run_items fuel ev None ∅ ∅ ∅) as [[r0 d'] c'] eqn:E.
  simpl in H. subst r0.
  rewrite (run_items_more_fuel _ _ _ _ _ _ _ _ _ _ Hle E Hr). reflexivity.
Qed.

(** A program's result at fuel [n] is its result at any greater fuel. *)
Ltac program_at n :=
  let fuel := fresh "fuel" in
  let Hf := fresh "Hf" in
  intros fuel Hf;
  apply (run_program_more_fuel n fuel); [exact Hf | by_computation | discriminate].

(** ** Calls *)

Lemma fold_insert_untouched (ps : list string) (vs : list value)
    (m : params_t) p :
  p ∉ take (length vs) ps ->
  fold_left (fun d kv => <[fst kv := snd kv]> d) (zip ps vs) m !! p = m !! p.
Proof.
  revert vs m. induction ps as [|q ps IH]; intros [|w vs] m Hp; simpl; auto.
  simpl in Hp. apply not_elem_of_cons in Hp as [Hne Hp].
  rewrite IH by exact Hp. rewrite lookup_insert_ne; auto.
Qed.

Lemma dict_zip_unbound ps vs p :
  p ∉ take (length vs) ps -> dict_zip ps vs !! p = None.
Proof.
  intros Hp. unfold dict_zip. rewrite fold_insert_untouched by exact Hp.
  apply lookup_empty.
Qed.

Lemma fold_insert_bound (ps : list string) (vs : list value)
    (m : params_t) (i : nat) p v :
  NoDup ps -> ps !! i = Some p -> vs !! i = Some v ->
  fold_left (fun d kv => <[fst kv := snd kv]> d) (zip ps vs) m !! p = Some v.
Proof.
  revert vs m i. induction ps as [|q ps IH]; intros [|w vs] m i Hnd Hp Hv;
    try discriminate.
  apply NoDup_cons in Hnd as [Hq Hnd]. destruct i as [|i]; simpl in *.
  - injection Hp as ->. injection Hv as ->.
    rewrite fold_insert_untouched.
    + apply lookup_insert_eq.
    + intros Hin. apply Hq. eapply subseteq_take; eauto.
  - eapply IH; eauto.
Qed.

Lemma dict_zip_bound ps vs (i : nat) p v :
  NoDup ps -> ps !! i = Some p -> vs !! i = Some v ->
  dict_zip ps vs !! p = Some v.
Proof. apply fold_insert_bound. Qed.

Lemma eval_args_length ev args (c : cells_t) vs c1 :
  eval_args ev args c = (Return vs, c1) -> length vs = length args.
Proof.
  revert c vs. induction args as [|a rest IH]; intros c vs H; simpl in *.
  - injection H as <- _. reflexivity.
  - destruct (ev a c) as [[v|e|] c0]; try discriminate.
    destruct (eval_args ev rest c0) as [[ws|e|] c2] eqn:E; try discriminate.
    injection H as <- <-. simpl. f_equal. eapply IH; eauto.
Qed.

(** A call whose arguments evaluate and whose body returns gives the final
    value of cell -1 of the store made for it. *)
Lemma call_completes decls fuel procname args (c : cells_t) params
    funcparams body vs c1 u cells'' :
  decls !! procname = Some (funcparams, body) ->
  eval_args (fun arg c0 => runinstr_expr decls fuel arg c0 params) args c
    = (Return vs, c1) ->
  runinstr_block decls fuel body {[ (-1) := default_output procname ]}
    (dict_zip funcparams vs) = (Return u, cells'') ->
  exists v, cells'' !! (-1) = Some v /\
    runinstr_expr decls (S fuel) (Ecall procname args) c params = (Return v, c).
Proof.
  intros Hd Ha Hb.
  assert (Hc1 : c1 = c).
  { pose proof (eval_args_frame
                  (fun arg c0 => runinstr_expr decls fuel arg c0 params) args c
                  (fun a c0 => runinstr_expr_frame decls fuel a c0 params)) as F.
    rewrite Ha in F. exact F. }
  subst c1.
  pose proof (runinstr_block_keeps_cell decls fuel body (dict_zip funcparams vs)
                {[ (-1) := default_output procname ]} (-1)) as Hk.
  rewrite Hb in Hk. simpl in Hk.
  destruct Hk as [v Hv]. { rewrite lookup_singleton_eq. eauto. }
  exists v. split; [exact Hv|].
  simpl. rewrite Ha, Hd. simpl. rewrite Hb, Hv. reflexivity.
Qed.

(** ** The unbounded loop *)

(** C1 (the code departs from the claim).  A MU-LOOP whose body raises an
    [Abort] of the body's own label leaves its [while True] by [break], but
    control then runs on into the bounded-loop lines and evaluates the
    missing bound, [runinstr(None, ...)], which raises a [TypeError]: no
    MU-LOOP ever returns normally, whatever the fuel.  On the loop of the
    scenario, started with cell 0 at 0, the passes stop with cell 0 at 5 and
    the statement raises [TypeError]; the program [prog_count] around it dies
    with the same error instead of giving 5. *)
Theorem mu_loop_raises_TypeError :
  (forall decls fuel body (c : cells_t) params u c',
      runinstr_stmt decls fuel (Sloop None body) c params <> (Return u, c')) /\
  (forall fuel, (8 <= fuel)%nat ->
      runinstr_stmt ∅ fuel mu_loop {[ 0 := VInt 0 ]} ∅
        = (Raise TypeError, {[ 0 := VInt 5 ]})) /\
  (forall fuel, (10 <= fuel)%nat ->
      run_program fuel prog_count = Raise TypeError).
Proof.
  split; [|split].
  - intros decls fuel body c params u c'. destruct fuel as [|fuel]; simpl.
    + discriminate.
    + destruct (while_true _ _ _ c) as [[x|e|] c1]; discriminate.
  - intros fuel Hf.
    apply (runinstr_stmt_more_fuel ∅ 8 fuel); [exact Hf | by_computation | discriminate].
  - program_at 10%nat.
Qed.

Lemma mu_loop_raises_TypeError_witness :
  run_program 12 prog_count = Raise TypeError.
Proof.
  destruct mu_loop_raises_TypeError as (_ & _ & H). apply H. lia.
Defined.

(** ** Arity *)

(** C2, as the claim states it, fails: [add] declares two parameters, and
    the call [add(2, 3, 4)] returns 5; [first] declares two parameters, and
    the call [first(7)] returns 7.  Neither raises an error. *)
Lemma arity_mismatch_counterexample :
  prog_add_three = [ decl_add; Icall "add" [Enum 2; Enum 3; Enum 4] ] /\
  (exists body, decl_add = Idecl "add" ["A"; "B"] body) /\
  run_program 5 prog_add_three = Return (Some (VInt 5)) /\
  (exists body,
      prog_first = [ Idecl "first" ["A"; "B"] body; Icall "first" [Enum 7] ]) /\
  run_program 5 prog_first = Return (Some (VInt 7)).
Proof.
  split; [reflexivity|]. split; [eexists; reflexivity|].
  split; [by_computation|]. split; [eexists; reflexivity|]. by_computation.
Qed.

(** C2, amended.  A call whose number of arguments differs from the number
    of declared parameters raises no arity error.  Once the arguments have
    evaluated, one value for each, the parameters are bound by position up
    to the shorter of the two lists ([dict(zip(funcparams, funcargs))]): a
    parameter (of a list without repetition) that has an argument at its
    position is bound to it, a name outside the first [length args]
    parameters is unbound, and when the body returns under that binding the
    call returns the body's cell -1. *)
Theorem call_binds_shorter_list decls fuel procname args (c : cells_t) params
    funcparams body vs c1 :
  decls !! procname = Some (funcparams, body) ->
  eval_args (fun arg c0 => runinstr_expr decls fuel arg c0 params) args c
    = (Return vs, c1) ->
  length args <> length funcparams ->
  length vs = length args /\
  (forall (i : nat) p v, NoDup funcparams ->
      funcparams !! i = Some p -> vs !! i = Some v ->
      dict_zip funcparams vs !! p = Some v) /\
  (forall p, p ∉ take (length args) funcparams ->
      dict_zip funcparams vs !! p = None) /\
  (forall u cells'',
      runinstr_block decls fuel body {[ (-1) := default_output procname ]}
        (dict_zip funcparams vs) = (Return u, cells'') ->
      exists v, cells'' !! (-1) = Some v /\
        runinstr_expr decls (S fuel) (Ecall procname args) c params
          = (Return v, c)).
Proof.
  intros Hd Ha _. pose proof (eval_args_length _ _ _ _ _ Ha) as Hlen.
  split; [exact Hlen|]. split; [|split].
  - intros i p v. apply dict_zip_bound.
  - intros p. rewrite <- Hlen. apply dict_zip_unbound.
  - intros u cells'' Hb. eapply call_completes; eauto.
Qed.

Lemma call_binds_shorter_list_witness :
  exists v,
    runinstr_expr
      {[ "first" := (["A"; "B"], Block 0 [Sassign (Lcell (-1)) (Eparamfetch "A")]) ]}
      3 (Ecall "first" [Enum 7]) ∅ ∅ = (Return v, ∅).
Proof.
  destruct (call_binds_shorter_list
              {[ "first" := (["A"; "B"], Block 0 [Sassign (Lcell (-1)) (Eparamfetch "A")]) ]}
              2 "first" [Enum 7] ∅ ∅ ["A"; "B"]
              (Block 0 [Sassign (Lcell (-1)) (Eparamfetch "A")])
              [VInt 7] ∅) as (_ & _ & _ & H).
  - vm_compute. reflexivity.
  - vm_compute. reflexivity.
  - simpl. lia.
  - destruct (H tt {[ (-1) := VInt 7 ]}) as (v & _ & Hv).
    + vm_compute. reflexivity.
    + exists v. exact Hv.
Defined.

(** ** Procedure calls *)

(** C4.  A call that returns [v] has found the procedure in [decls], has
    evaluated its arguments, and has run the body in a store of its own
    that started as [{-1: False}] when the name ends in [?] and as [{-1: 0}]
    otherwise; [v] is what cell -1 of that store holds when the body is
    done.  Conversely every call whose arguments evaluate and whose body
    returns gives that value.  So [add(2, 3)] with body [OUTPUT <= A + B]
    returns 5, [is_zero?(0)] returns true, [is_zero?(3)] and a predicate
    that never assigns OUTPUT return false, and a procedure that is no
    predicate and never assigns OUTPUT returns 0. *)
Theorem call_returns_output_cell :
  (forall decls fuel procname args (c : cells_t) params v c',
      runinstr_expr decls fuel (Ecall procname args) c params = (Return v, c') ->
      exists fuel' funcparams body vs u cells'',
        fuel = S fuel' /\
        decls !! procname = Some (funcparams, body) /\
        eval_args (fun arg c0 => runinstr_expr decls fuel' arg c0 params) args c
          = (Return vs, c) /\
        runinstr_block decls fuel' body
          {[ (-1) := if endswith procname "?" then VBool false else VInt 0 ]}
          (dict_zip funcparams vs) = (Return u, cells'') /\
        cells'' !! (-1) = Some v /\ c' = c) /\
  (forall decls fuel procname args (c : cells_t) params funcparams body vs u cells'',
      decls !! procname = Some (funcparams, body) ->
      eval_args (fun arg c0 => runinstr_expr decls fuel arg c0 params) args c
        = (Return vs, c) ->
      runinstr_block decls fuel body
        {[ (-1) := if endswith procname "?" then VBool false else VInt 0 ]}
        (dict_zip funcparams vs) = (Return u, cells'') ->
      exists v, cells'' !! (-1) = Some v /\
        runinstr_expr decls (S fuel) (Ecall procname args) c params
          = (Return v, c)) /\
  (forall fuel, (5 <= fuel)%nat ->
      run_program fuel prog_add = Return (Some (VInt 5))) /\
  (forall fuel, (5 <= fuel)%nat ->
      run_program fuel [decl_is_zero; Icall "is_zero?" [Enum 0]]
        = Return (Some (VBool true))) /\
  (forall fuel, (5 <= fuel)%nat ->
      run_program fuel [decl_is_zero; Icall "is_zero?" [Enum 3]]
        = Return (Some (VBool false))) /\
  (forall fuel, (5 <= fuel)%nat ->
      run_program fuel [decl_idle_p; Icall "idle?" [Enum 1]]
        = Return (Some (VBool false))) /\
  (forall fuel, (5 <= fuel)%nat ->
      run_program fuel [decl_idle; Icall "idle" [Enum 1]]
        = Return (Some (VInt 0))).
Proof.
  split; [|split].
  - intros decls fuel procname args c params v c' H.
    pose proof (runinstr_expr_cells _ _ _ _ _ _ _ H) as ->.
    destruct fuel as [|fuel]; simpl in H; [discriminate|].
    destruct (eval_args _ args c) as [[vs|e|] c1] eqn:Ha; try discriminate.
    assert (Hc1 : c1 = c).
    { pose proof (eval_args_frame
                    (fun arg c0 => runinstr_expr decls fuel arg c0 params) args c
                    (fun a c0 => runinstr_expr_frame decls fuel a c0 params)) as F.
      rewrite Ha in F. exact F. }
    subst c1.
    destruct (decls !! procname) as [[funcparams body]|] eqn:Hd; try discriminate.
    simpl in H. fold (default_output procname).
    destruct (runinstr_block decls fuel body _ _) as [[u|e|] c2] eqn:Hb.
    + destruct (c2 !! (-1)) as [w|] eqn:Hw; try discriminate.
      injection H as ->.
      exists fuel, funcparams, body, vs, u, c2.
      repeat split; try reflexivity; assumption.
    + destruct e; discriminate.
    + discriminate.
  - intros decls fuel procname args c params funcparams body vs u cells'' Hd Ha Hb.
    eapply call_completes; eauto.
  - repeat apply conj; program_at 5%nat.
Qed.

Lemma call_returns_output_cell_witness :
  exists v,
    runinstr_expr
      {[ "idle?" := (["X"], Block 0 []) ]} 2 (Ecall "idle?" [Enum 1]) ∅ ∅
    = (Return v, ∅) /\ v = VBool false.
Proof.
  destruct call_returns_output_cell as (_ & H & _).
  destruct (H {[ "idle?" := (["X"], Block 0 []) ]} 1%nat "idle?" [Enum 1] ∅ ∅
              ["X"] (Block 0 []) [VInt 1] tt {[ (-1) := VBool false ]})
    as (v & Hv & Hr).
  - vm_compute. reflexivity.
  - vm_compute. reflexivity.
  - vm_compute. reflexivity.
  - exists v. split; [exact Hr|].
    rewrite lookup_singleton_eq in Hv. injection Hv as <-. reflexivity.
Defined.

(** ** Operators *)

(** C3, as the claim states it, fails: with cell 0 holding the Boolean
    true, the operations [CELL(0) + 1], [CELL(0) * 3], [CELL(0) < 2],
    [CELL(0) > 0] and [CELL(0) = 1] all produce a value (2, 3, true, true,
    true), in a store given as such and in the procedure [mix], which puts
    the value of [1 = 1] in cell 0 first. *)
Lemma type_mismatch_counterexample :
  runinstr_expr ∅ 1 (Ebinop Oplus (Ecellfetch 0) (Enum 1))
    {[ 0 := VBool true ]} ∅ = (Return (VInt 2), {[ 0 := VBool true ]}) /\
  runinstr_expr ∅ 1 (Ebinop Oeq (Ecellfetch 0) (Enum 1))
    {[ 0 := VBool true ]} ∅ = (Return (VBool true), {[ 0 := VBool true ]}) /\
  run_program 5 (prog_mix Oplus 1) = Return (Some (VInt 2)) /\
  run_program 5 (prog_mix Otimes 3) = Return (Some (VInt 3)) /\
  run_program 5 (prog_mix Olt 2) = Return (Some (VBool true)) /\
  run_program 5 (prog_mix Ogt 0) = Return (Some (VBool true)) /\
  run_program 5 (prog_mix Oeq 1) = Return (Some (VBool true)).
Proof. repeat split; vm_compute; reflexivity. Qed.

(** C3, amended.  An add, multiply, less, greater or equality operation
    whose two operands evaluate never fails, also when an operand is a
    Boolean or the tags differ: a Boolean counts as 1 (true) or 0 (false),
    add and multiply give the Integer sum and product, less, greater and
    equality give the Boolean of the numeric comparison. *)
Theorem binop_never_fails decls fuel op a b (c : cells_t) params va c1 vb c2 :
  runinstr_expr decls fuel a c params = (Return va, c1) ->
  runinstr_expr decls fuel b c1 params = (Return vb, c2) ->
  runinstr_expr decls (S fuel) (Ebinop op a b) c params =
    (Return
       match op with
       | Oplus => VInt (py_int va + py_int vb)
       | Otimes => VInt (py_int va * py_int vb)
       | Olt => VBool (bool_decide (py_int va < py_int vb))
       | Ogt => VBool (bool_decide (py_int va > py_int vb))
       | Oeq => VBool (bool_decide (py_int va = py_int vb))
       end, c) /\
  py_int (VBool true) = 1 /\ py_int (VBool false) = 0.
Proof.
  intros Ha Hb.
  pose proof (runinstr_expr_cells _ _ _ _ _ _ _ Ha) as ->.
  pose proof (runinstr_expr_cells _ _ _ _ _ _ _ Hb) as ->.
  split; [|split; reflexivity].
  simpl. rewrite Ha, Hb. do 2 f_equal.
  destruct op; simpl; f_equal.
  - destruct (Z.eqb_spec (py_int va) (py_int vb)) as [E|E].
    + rewrite bool_decide_eq_true_2 by lia. reflexivity.
    + rewrite bool_decide_eq_false_2 by lia. reflexivity.
  - destruct (Z.ltb_spec (py_int va) (py_int vb)) as [E|E].
    + rewrite bool_decide_eq_true_2 by lia. reflexivity.
    + rewrite bool_decide_eq_false_2 by lia. reflexivity.
  - rewrite Z.gtb_ltb.
    destruct (Z.ltb_spec (py_int vb) (py_int va)) as [E|E].
    + rewrite bool_decide_eq_true_2 by lia. reflexivity.
    + rewrite bool_decide_eq_false_2 by lia. reflexivity.
Qed.

Lemma binop_never_fails_witness :
  runinstr_expr ∅ 1 (Ebinop Oplus (Ecellfetch 0) (Enum 1))
    {[ 0 := VBool true ]} ∅
  = (Return (VInt 2), {[ 0 := VBool true ]}).
Proof.
  apply (binop_never_fails ∅ 0 Oplus (Ecellfetch 0) (Enum 1)
           {[ 0 := VBool true ]} ∅ (VBool true) {[ 0 := VBool true ]}
           (VInt 1) {[ 0 := VBool true ]}).
  - vm_compute. reflexivity.
  - vm_compute. reflexivity.
Defined.

(** C10.  The equality operator on two evaluated operands always returns a
    Boolean and never fails, whatever the tags: it compares the operands as
    numbers, so [True] equals 1 and [False] equals 0, and a cell that holds
    [True] passes the test [CELL(i) = 1]: a conditional with that test runs
    its block. *)
Theorem eq_returns_Boolean decls fuel a b (c : cells_t) params va c1 vb c2 :
  runinstr_expr decls fuel a c params = (Return va, c1) ->
  runinstr_expr decls fuel b c1 params = (Return vb, c2) ->
  (exists r : bool,
      runinstr_expr decls (S fuel) (Ebinop Oeq a b) c params
        = (Return (VBool r), c2)) /\
  eval_binop Oeq (VBool true) (VInt 1) = VBool true /\
  eval_binop Oeq (VBool false) (VInt 0) = VBool true /\
  (forall i (cs : cells_t) body,
      cs !! i = Some (VBool true) ->
      runinstr_expr decls (S fuel) (Ebinop Oeq (Ecellfetch i) (Enum 1)) cs params
        = (Return (VBool true), cs) /\
      runinstr_stmt decls (S (S fuel))
        (Scond (Ebinop Oeq (Ecellfetch i) (Enum 1)) body) cs params
        = runinstr_block decls (S fuel) body cs params).
Proof.
  intros Ha Hb. repeat split.
  - exists (py_int va =? py_int vb). simpl. rewrite Ha, Hb. reflexivity.
  - simpl. rewrite runinstr_expr_cellfetch, H, runinstr_expr_num. reflexivity.
  - simpl. rewrite runinstr_expr_cellfetch, H, runinstr_expr_num. reflexivity.
Qed.

Lemma eq_returns_Boolean_witness :
  exists r : bool,
    runinstr_expr ∅ 1 (Ebinop Oeq (Ebool true) (Enum 7)) ∅ ∅
      = (Return (VBool r), ∅).
Proof.
  destruct (eq_returns_Boolean ∅ 0 (Ebool true) (Enum 7) ∅ ∅
              (VBool true) ∅ (VInt 7) ∅) as [H _].
  - reflexivity.
  - reflexivity.
  - exact H.
Defined.

(** ** The caller's store *)

(** C9.  Evaluating a call leaves the store it is evaluated in as it was,
    whatever the outcome: the arguments are expressions, which write no
    cell, and the body of the callee runs on a store made for that call.
    The parameter binding of the caller is only read.  So the assignment
    [CELL(i) <= f(...)] changes cell [i] of the caller and nothing else,
    whatever cells the callee (or the callees it calls in turn) writes. *)
Theorem call_leaves_caller_store :
  forall decls fuel procname args (c : cells_t) params,
    snd (runinstr_expr decls fuel (Ecall procname args) c params) = c /\
    (forall i v c',
      runinstr_stmt decls (S fuel) (Sassign (Lcell i) (Ecall procname args))
        c params = (Return v, c') ->
      forall j, j <> i -> c' !! j = c !! j) /\
    (forall fuel', (6 <= fuel')%nat ->
      run_program fuel' prog_nested = Return (Some (VInt 1))).
Proof.
  intros decls fuel procname args c params. split; [|split].
  - apply runinstr_expr_frame.
  - intros i v c' H j Hj. simpl in H.
    destruct (runinstr_expr decls fuel (Ecall procname args) c params)
      as [[w|e|] c1] eqn:E; try discriminate.
    apply runinstr_expr_cells in E. subst c1.
    injection H as _ <-. rewrite lookup_insert_ne; auto.
  - program_at 6%nat.
Qed.

Lemma call_leaves_caller_store_witness :
  (<[ 2 := VInt 99 ]> ({[ 0 := VInt 1 ]} : cells_t)) !! 0
  = ({[ 0 := VInt 1 ]} : cells_t) !! 0.
Proof.
  destruct (call_leaves_caller_store
              {[ "inner" := (["X"], Block 0 [Sassign (Lcell (-1)) (Enum 99)]) ]}
              3 "inner" [Enum 0] {[ 0 := VInt 1 ]} ∅) as (_ & F & _).
  apply (F 2 tt).
  - vm_compute. reflexivity.
  - lia.
Defined.

(** ** Reading cells *)

(** C8.  Reading a cell that holds nothing raises [KeyError] with the index
    of the cell, and no handler of the interpreter stops it: a block, a loop
    pass and a call pass it on.  Cell -1 is the exception inside a procedure:
    the store made for a call starts with cell -1 set, no statement ever
    removes a cell, so after any statements and any blocks run from it, with
    whatever outcome, reading cell -1 returns a value.  [peek] reads the
    unset cell 3 and dies with [KeyError 3]; [bump] reads OUTPUT before it
    assigns it and returns 1.  (The arguments of the call that ends a
    program are evaluated outside any procedure, in the empty store of
    line 285: there OUTPUT is unset like any other cell.) *)
Theorem unset_cell_raises_KeyError :
  forall decls fuel params,
    (forall i (c : cells_t), c !! i = None ->
        runinstr_expr decls fuel (Ecellfetch i) c params
          = (Raise (KeyError (KInt i)), c)) /\
    (forall k n stmts (c c1 : cells_t),
        run (fun s c0 => runinstr_stmt decls fuel s c0 params) stmts c
          = (Raise (KeyError k), c1) ->
        runinstr_block decls (S fuel) (Block n stmts) c params
          = (Raise (KeyError k), c1)) /\
    (forall k body blocknum (c c1 : cells_t),
        body c = (Raise (KeyError k), c1) ->
        loop_pass body blocknum c = (Some (Raise (KeyError k)), c1)) /\
    (forall procname,
        ({[ (-1) := default_output procname ]} : cells_t) !! (-1)
          = Some (default_output procname)) /\
    (forall stmts (c : cells_t) r c1,
        is_Some (c !! (-1)) ->
        run (fun s c0 => runinstr_stmt decls fuel s c0 params) stmts c = (r, c1) ->
        exists v, runinstr_expr decls fuel (Ecellfetch (-1)) c1 params
                  = (Return v, c1)) /\
    (forall b (c : cells_t) r c1,
        is_Some (c !! (-1)) ->
        runinstr_block decls fuel b c params = (r, c1) ->
        exists v, runinstr_expr decls fuel (Ecellfetch (-1)) c1 params
                  = (Return v, c1)) /\
    (forall fuel', (5 <= fuel')%nat ->
        run_program fuel' prog_peek = Raise (KeyError (KInt 3))) /\
    (forall fuel', (5 <= fuel')%nat ->
        run_program fuel' prog_bump = Return (Some (VInt 1))) /\
    (forall fuel', (5 <= fuel')%nat ->
        run_program fuel' prog_top_output = Raise (KeyError (KInt (-1)))).
Proof.
  intros decls fuel params. repeat apply conj.
  - intros i c H. rewrite runinstr_expr_cellfetch, H. reflexivity.
  - intros k n stmts c c1 H. simpl. rewrite H. reflexivity.
  - intros k body blocknum c c1 H. unfold loop_pass. rewrite H. reflexivity.
  - intros procname. apply lookup_singleton_eq.
  - intros stmts c r c1 Hc H.
    pose proof (run_keeps (fun c0 => is_Some (c0 !! (-1)))
                  (fun s c0 => runinstr_stmt decls fuel s c0 params) stmts
                  (fun s c0 H0 => runinstr_stmt_keeps_cell decls fuel s params c0 (-1) H0)
                  c Hc) as K.
    rewrite H in K. destruct K as [v Hv]. exists v.
    rewrite runinstr_expr_cellfetch. simpl in Hv. rewrite Hv. reflexivity.
  - intros b c r c1 Hc H.
    pose proof (runinstr_block_keeps_cell decls fuel b params c (-1) Hc) as K.
    rewrite H in K. destruct K as [v Hv]. exists v.
    rewrite runinstr_expr_cellfetch. simpl in Hv. rewrite Hv. reflexivity.
  - program_at 5%nat.
  - program_at 5%nat.
  - program_at 5%nat.
Qed.

Lemma unset_cell_raises_KeyError_witness :
  runinstr_expr ∅ 0 (Ecellfetch 3) {[ (-1) := VInt 0 ]} ∅
  = (Raise (KeyError (KInt 3)), {[ (-1) := VInt 0 ]}).
Proof.
  destruct (unset_cell_raises_KeyError ∅ 0 ∅) as [H _].
  apply H. vm_compute. reflexivity.
Defined.

(** ** Statement lists and loops *)

Lemma run_app ev pre rest (c : cells_t) :
  run ev (pre ++ rest) c =
  match run ev pre c with
  | (Return _, c1) => run ev rest c1
  | r => r
  end.
Proof.
  revert c. induction pre as [|s pre IH]; intros c; simpl.
  - reflexivity.
  - destruct (ev s c) as [[u|e|] c1]; auto.
Qed.

Lemma loop_pass_ext body1 body2 blocknum (c : cells_t) :
  (forall c0, body1 c0 = body2 c0) ->
  loop_pass body1 blocknum c = loop_pass body2 blocknum c.
Proof. intros H. unfold loop_pass. rewrite H. reflexivity. Qed.

Lemma for_range_ext bound body1 body2 blocknum (c : cells_t) :
  (forall c0, body1 c0 = body2 c0) ->
  for_range bound body1 blocknum c = for_range bound body2 blocknum c.
Proof.
  intros H. revert c. induction bound as [|n IH]; intros c; simpl; auto.
  rewrite (loop_pass_ext body1 body2) by exact H.
  destruct (loop_pass body2 blocknum c) as [[r|] c1]; auto.
Qed.

Lemma while_true_ext fuel body1 body2 blocknum (c : cells_t) :
  (forall c0, body1 c0 = body2 c0) ->
  while_true fuel body1 blocknum c = while_true fuel body2 blocknum c.
Proof.
  intros H. revert c. induction fuel as [|n IH]; intros c; simpl; auto.
  rewrite (loop_pass_ext body1 body2) by exact H.
  destruct (loop_pass body2 blocknum c) as [[r|] c1]; auto.
Qed.

(** The [for] loop of the source against the loop of the specification. *)
Lemma for_range_meets_spec body blocknum N (c : cells_t) :
  exists k, (k <= N)%nat /\
    bounded_loop_spec body blocknum N c k
      (fst (for_range N body blocknum c)) (snd (for_range N body blocknum c)).
Proof.
  revert c. induction N as [|N IH]; intros c; simpl.
  - exists O. split; [lia | constructor].
  - unfold loop_pass. destruct (body c) as [[u|e|] c1] eqn:Hb.
    + destruct (IH c1) as (k & Hk & Hs). exists (S k). split; [lia|].
      eapply bl_pass; eauto.
    + exists 1%nat. split; [lia|].
      destruct e as [n|n|k| |]; simpl;
        try (apply bl_raise; [exact Hb | discriminate]).
      destruct (Z.eqb_spec n blocknum) as [->|Hne]; simpl.
      * apply bl_abort. exact Hb.
      * apply bl_raise; [exact Hb | congruence].
    + exists 1%nat. split; [lia|]. apply bl_fuel. exact Hb.
Qed.

Lemma spec_gives_for_range body blocknum N (c : cells_t) k r c' :
  bounded_loop_spec body blocknum N c k r c' ->
  for_range N body blocknum c = (r, c').
Proof.
  induction 1 as [c|N c u c1 k r c2 Hb _ IH|N c c1 Hb|N c e c1 Hb Hne|N c c1 Hb];
    simpl; unfold loop_pass; try rewrite Hb; auto.
  - rewrite Z.eqb_refl. reflexivity.
  - destruct e as [n| | | |]; auto.
    destruct (Z.eqb_spec n blocknum) as [->|]; [congruence | reflexivity].
Qed.

(** [k] normal passes, then a pass that raises something else than the
    [Abort] of the body: the loop lets it through. *)
Lemma for_range_passes_raise body blocknum N (c : cells_t) k c1 e c2 :
  passes body k c c1 -> (k < N)%nat ->
  body c1 = (Raise e, c2) -> e <> Abort blocknum ->
  for_range N body blocknum c = (Raise e, c2).
Proof.
  intros Hp. revert N. induction Hp as [c|k c u c1 c3 Hb _ IH]; intros N Hk He Hne.
  - destruct N as [|N]; [lia|]. simpl. unfold loop_pass. rewrite He.
    destruct e as [n| | | |]; auto.
    destruct (Z.eqb_spec n blocknum) as [->|]; [congruence | reflexivity].
  - destruct N as [|N]; [lia|]. simpl. unfold loop_pass. rewrite Hb.
    apply IH; auto. lia.
Qed.

Lemma while_true_passes_raise body blocknum fuel (c : cells_t) k c1 e c2 :
  passes body k c c1 -> (k < fuel)%nat ->
  body c1 = (Raise e, c2) -> e <> Abort blocknum ->
  while_true fuel body blocknum c = (Raise e, c2).
Proof.
  intros Hp. revert fuel. induction Hp as [c|k c u c1 c3 Hb _ IH]; intros N Hk He Hne.
  - destruct N as [|N]; [lia|]. simpl. unfold loop_pass. rewrite He.
    destruct e as [n| | | |]; auto.
    destruct (Z.eqb_spec n blocknum) as [->|]; [congruence | reflexivity].
  - destruct N as [|N]; [lia|]. simpl. unfold loop_pass. rewrite Hb.
    apply IH; auto. lia.
Qed.

(** A block that ends in [QUIT] of its own label behaves as the block cut
    there. *)
Lemma runinstr_block_quit_own decls fuel n pre post (c : cells_t) params :
  runinstr_block decls fuel (Block n (pre ++ Squit n :: post)) c params
  = runinstr_block decls fuel (Block n pre) c params.
Proof.
  destruct fuel as [|fuel]; simpl; [reflexivity|].
  rewrite run_app.
  destruct (run _ pre c) as [[u|e|] c1]; auto.
  simpl. rewrite runinstr_stmt_quit. rewrite Z.eqb_refl. simpl.
  destruct u. reflexivity.
Qed.

(** ** QUIT *)

(** C5.  [QUIT BLOCK n] raises [Break n].  The exception leaves the rest of
    a statement list unexecuted, passes through a conditional, through a
    bounded loop and through a MU-LOOP (which ends there, after any number
    of normal passes), and through a block of another label, unchanged;
    the block whose label is [n] swallows it and returns normally, with the
    store as the statements before the [QUIT] left it.  So a [QUIT] of the
    label of a loop's body only cuts the pass short: the loop behaves as if
    its body ended at the [QUIT], and goes on to its next pass.  In
    [loop_quit] the three passes all happen: cell 0 goes from 0 to 3 and the
    statement after the [QUIT] never runs. *)
Theorem quit_unwinds_to_its_block :
  forall decls fuel params,
    (forall n (c : cells_t),
        runinstr_stmt decls fuel (Squit n) c params = (Raise (Break n), c)) /\
    (forall ev pre s post (c c1 c2 : cells_t) n,
        run ev pre c = (Return tt, c1) ->
        ev s c1 = (Raise (Break n), c2) ->
        run ev (pre ++ s :: post) c = (Raise (Break n), c2)) /\
    (forall t body (c c2 : cells_t) v n,
        fst (runinstr_expr decls fuel t c params) = Return v ->
        truthy v = true ->
        runinstr_block decls fuel body c params = (Raise (Break n), c2) ->
        runinstr_stmt decls (S fuel) (Scond t body) c params
          = (Raise (Break n), c2)) /\
    (forall e body (c c1 c2 : cells_t) bound k n,
        fst (runinstr_expr decls fuel e c params) = Return bound ->
        passes (fun c0 => runinstr_block decls fuel body c0 params) k c c1 ->
        (k < Z.to_nat (py_int bound))%nat ->
        runinstr_block decls fuel body c1 params = (Raise (Break n), c2) ->
        runinstr_stmt decls (S fuel) (Sloop (Some e) body) c params
          = (Raise (Break n), c2)) /\
    (forall body (c c1 c2 : cells_t) k n,
        passes (fun c0 => runinstr_block decls fuel body c0 params) k c c1 ->
        (k < fuel)%nat ->
        runinstr_block decls fuel body c1 params = (Raise (Break n), c2) ->
        runinstr_stmt decls (S fuel) (Sloop None body) c params
          = (Raise (Break n), c2)) /\
    (forall n stmts (c c1 : cells_t),
        run (fun s c0 => runinstr_stmt decls fuel s c0 params) stmts c
          = (Raise (Break n), c1) ->
        runinstr_block decls (S fuel) (Block n stmts) c params
          = (Return tt, c1)) /\
    (forall m n stmts (c c1 : cells_t),
        m <> n ->
        run (fun s c0 => runinstr_stmt decls fuel s c0 params) stmts c
          = (Raise (Break n), c1) ->
        runinstr_block decls (S fuel) (Block m stmts) c params
          = (Raise (Break n), c1)) /\
    (forall bound n pre post (c : cells_t),
        runinstr_stmt decls fuel
          (Sloop bound (Block n (pre ++ Squit n :: post))) c params
        = runinstr_stmt decls fuel (Sloop bound (Block n pre)) c params) /\
    (forall fuel', (5 <= fuel')%nat ->
        runinstr_stmt ∅ fuel' loop_quit {[ 0 := VInt 0 ]} ∅
          = (Return tt, {[ 0 := VInt 3 ]})).
Proof.
  intros decls fuel params. repeat apply conj.
  - intros n c. apply runinstr_stmt_quit.
  - intros ev pre s post c c1 c2 n Hpre Hs.
    rewrite run_app, Hpre. simpl. rewrite Hs. reflexivity.
  - intros t body c c2 v n Ht Hv Hb. simpl.
    destruct (runinstr_expr decls fuel t c params) as [r c0] eqn:E.
    apply runinstr_expr_cells in E as ->. simpl in Ht. subst r.
    rewrite Hv. exact Hb.
  - intros e body c c1 c2 bound k n He Hp Hk Hb. simpl.
    destruct (runinstr_expr decls fuel e c params) as [r c0] eqn:E.
    apply runinstr_expr_cells in E as ->. simpl in He. subst r.
    eapply for_range_passes_raise; eauto; discriminate.
  - intros body c c1 c2 k n Hp Hk Hb. simpl.
    erewrite while_true_passes_raise; eauto; discriminate.
  - intros n stmts c c1 H. simpl. rewrite H, Z.eqb_refl. reflexivity.
  - intros m n stmts c c1 Hne H. simpl. rewrite H.
    destruct (Z.eqb_spec n m) as [->|]; [congruence | reflexivity].
  - intros bound n pre post c. destruct fuel as [|fuel].
    + destruct bound; reflexivity.
    + destruct bound as [e|]; simpl.
      * destruct (runinstr_expr decls fuel e c params) as [[v|x|] c1]; auto.
        apply for_range_ext. intros c0. apply runinstr_block_quit_own.
      * rewrite (while_true_ext fuel
                   (fun c0 => runinstr_block decls fuel
                                (Block n (pre ++ Squit n :: post)) c0 params)
                   (fun c0 => runinstr_block decls fuel (Block n pre) c0 params));
          [reflexivity|].
        intros c0. apply runinstr_block_quit_own.
  - intros fuel' Hf.
    apply (runinstr_stmt_more_fuel ∅ 5 fuel');
      [exact Hf | by_computation | discriminate].
Qed.

Lemma quit_unwinds_to_its_block_witness :
  runinstr_block ∅ 1 (Block 4 [Squit 4; Sassign (Lcell 0) (Enum 1)]) ∅ ∅
    = (Return tt, ∅) /\
  runinstr_block ∅ 1 (Block 5 [Squit 4; Sassign (Lcell 0) (Enum 1)]) ∅ ∅
    = (Raise (Break 4), ∅).
Proof.
  destruct (quit_unwinds_to_its_block ∅ 0 ∅)
    as (_ & _ & _ & _ & _ & Hsame & Hother & _).
  split.
  - apply Hsame. vm_compute. reflexivity.
  - apply Hother.
    + lia.
    + vm_compute. reflexivity.
Defined.

(** ** Bounded loops *)

(** C6.  A bounded loop evaluates its bound once, in the store it starts
    in; when the bound is the Integer [N], not negative, the loop is the
    loop of the specification with bound [N]: at most [N] passes of the
    body, each on the store and with the parameters the pass before left, an
    [Abort] of the body's label ending the loop normally and at once.  The
    two agree on every outcome and final store.  With [N = 0] the body is
    not evaluated and the store is unchanged.  In [loop_abort], of bound
    10, the body aborts its own label in the fifth pass: the loop returns
    normally with cell 0 at 5. *)
Theorem bounded_loop_meets_spec decls fuel bound_expr body (c : cells_t)
    params N :
  fst (runinstr_expr decls fuel bound_expr c params) = Return (VInt N) ->
  0 <= N ->
  (exists k r c',
      (k <= Z.to_nat N)%nat /\
      runinstr_stmt decls (S fuel) (Sloop (Some bound_expr) body) c params
        = (r, c') /\
      bounded_loop_spec (fun c0 => runinstr_block decls fuel body c0 params)
        (block_num body) (Z.to_nat N) c k r c') /\
  (forall k r c',
      bounded_loop_spec (fun c0 => runinstr_block decls fuel body c0 params)
        (block_num body) (Z.to_nat N) c k r c' ->
      runinstr_stmt decls (S fuel) (Sloop (Some bound_expr) body) c params
        = (r, c')) /\
  (N = 0 ->
      runinstr_stmt decls (S fuel) (Sloop (Some bound_expr) body) c params
        = (Return tt, c)) /\
  (forall fuel', (5 <= fuel')%nat ->
      runinstr_stmt ∅ fuel' loop_abort {[ 0 := VInt 0 ]} ∅
        = (Return tt, {[ 0 := VInt 5 ]})).
Proof.
  intros He HN.
  assert (Hloop : runinstr_stmt decls (S fuel) (Sloop (Some bound_expr) body) c params
          = for_range (Z.to_nat N)
              (fun c0 => runinstr_block decls fuel body c0 params)
              (block_num body) c).
  { simpl. destruct (runinstr_expr decls fuel bound_expr c params) as [r c0] eqn:E.
    apply runinstr_expr_cells in E as ->. simpl in He. subst r. reflexivity. }
  rewrite Hloop. split; [|split; [|split]].
  - destruct (for_range_meets_spec
                (fun c0 => runinstr_block decls fuel body c0 params)
                (block_num body) (Z.to_nat N) c) as (k & Hk & Hs).
    exists k. eexists. eexists. split; [exact Hk|]. split; [|exact Hs].
    apply surjective_pairing.
  - intros k r c' Hs. eapply spec_gives_for_range; eauto.
  - intros ->. reflexivity.
  - intros fuel' Hf.
    apply (runinstr_stmt_more_fuel ∅ 5 fuel');
      [exact Hf | by_computation | discriminate].
Qed.

Lemma bounded_loop_meets_spec_witness :
  runinstr_stmt ∅ 4 loop_incr {[ 0 := VInt 3 ]} ∅
  = (Return tt, {[ 0 := VInt 6 ]}).
Proof.
  destruct (bounded_loop_meets_spec ∅ 3 (Ecellfetch 0) incr_body
              {[ 0 := VInt 3 ]} ∅ 3) as (_ & H & _ & _).
  - vm_compute. reflexivity.
  - lia.
  - apply (H 3%nat).
    eapply bl_pass; [vm_compute; reflexivity|].
    eapply bl_pass; [vm_compute; reflexivity|].
    eapply bl_pass; [vm_compute; reflexivity|].
    apply bl_done.
Defined.

(** ** The block validator *)

(** *** The visit reaches the subtrees, and only them *)

Lemma tree_children_lookup (t c : Tree) :
  In c (tree_children t) <-> exists i : nat, children t !! i = Some (inl c).
Proof.
  unfold tree_children. rewrite <- list_elem_of_In, list_elem_of_omap. split.
  - intros ([c'|tok] & Hin & Hc); [|discriminate]. injection Hc as ->.
    apply list_elem_of_lookup in Hin. exact Hin.
  - intros [i Hi]. exists (inl c). split; [|reflexivity].
    apply list_elem_of_lookup. eauto.
Qed.

Lemma level_subtree_at d (t s : Tree) :
  In s (level d t) <-> exists p, length p = d /\ subtree_at t p = Some s.
Proof.
  revert t. induction d as [|d IH]; intros t; simpl.
  - split.
    + intros [->|[]]. exists []. auto.
    + intros ([|i p] & Hl & Hp); [|discriminate]. injection Hp as ->. auto.
  - rewrite in_flat_map. split.
    + intros (c & Hc & Hs). apply in_rev in Hc.
      apply tree_children_lookup in Hc as [i Hi].
      apply IH in Hs as (p & Hl & Hp).
      exists (i :: p). simpl. rewrite Hi. auto.
    + intros ([|i p] & Hl & Hp); [discriminate|]. simpl in Hp.
      destruct (children t !! i) as [[c|tok]|] eqn:Hi; try discriminate.
      exists c. split.
      * apply in_rev. rewrite rev_involutive.
        apply tree_children_lookup. eauto.
      * apply IH. exists p. split; [simpl in Hl; lia | exact Hp].
Qed.

Lemma height_child (t c : Tree) (i : nat) :
  children t !! i = Some (inl c) -> (height c < height t)%nat.
Proof.
  destruct t as [d cs]. simpl. revert i.
  induction cs as [|[t'|tok] cs IH]; intros i Hi.
  - discriminate.
  - destruct i as [|i]; simpl in Hi.
    + injection Hi as ->. lia.
    + specialize (IH i Hi). lia.
  - destruct i as [|i]; simpl in Hi; [discriminate|].
    specialize (IH i Hi). lia.
Qed.

Lemma subtree_at_height p (t s : Tree) :
  subtree_at t p = Some s -> (length p < height t)%nat.
Proof.
  revert t. induction p as [|i p IH]; intros t H; simpl in *.
  - destruct t. simpl. lia.
  - destruct (children t !! i) as [[c|tok]|] eqn:Hi; try discriminate.
    pose proof (height_child t c i Hi). specialize (IH c H). lia.
Qed.

Lemma queue_subtree_at (t s : Tree) :
  In s (queue t) <-> exists p, subtree_at t p = Some s.
Proof.
  unfold queue. rewrite in_flat_map. split.
  - intros (d & _ & Hs). apply level_subtree_at in Hs as (p & _ & Hp). eauto.
  - intros [p Hp]. exists (length p). split.
    + apply in_seq. pose proof (subtree_at_height p t s Hp). lia.
    + apply level_subtree_at. eauto.
Qed.

Lemma iter_subtrees_subtree_at (t s : Tree) :
  In s (iter_subtrees t) <-> exists p, subtree_at t p = Some s.
Proof.
  unfold iter_subtrees. rewrite <- in_rev. apply queue_subtree_at.
Qed.

Lemma visit_each_None subtrees :
  visit_each subtrees = None <->
  forall s, In s subtrees -> call_userfunc s = None.
Proof.
  induction subtrees as [|s rest IH]; simpl.
  - split; [intros _ s [] | reflexivity].
  - destruct (call_userfunc s) as [e|] eqn:Hs.
    + split; [discriminate|]. intros H. rewrite <- Hs. apply H. auto.
    + rewrite IH. split.
      * intros H s' [<-|Hin]; auto.
      * intros H s' Hin. apply H. auto.
Qed.

Lemma visit_each_Some subtrees e :
  visit_each subtrees = Some e ->
  exists s, In s subtrees /\ call_userfunc s = Some e.
Proof.
  induction subtrees as [|s rest IH]; simpl; [discriminate|].
  destruct (call_userfunc s) as [e'|] eqn:Hs.
  - intros [= ->]. eauto.
  - intros H. destruct (IH H) as (s' & Hin & Hs'). eauto.
Qed.

(** *** The check on one block *)

Lemma wf_block_labels b :
  wf_block b = true ->
  exists first final s e,
    open_token b = Some first /\ close_token b = Some final /\
    open_label b = Some s /\ close_label b = Some e /\
    int (tok_value first) = Some s /\ int (tok_value final) = Some e.
Proof.
  unfold wf_block. rewrite !andb_true_iff, !bool_decide_eq_true.
  intros [[_ [s Hs]] [e He]].
  unfold open_label, open_token in *. unfold close_label, close_token in *.
  destruct (head (children b)) as [[?|first]|]; try discriminate.
  destruct (last (children b)) as [[?|final]|]; try discriminate.
  simpl in *. exists first, final, s, e. auto 10.
Qed.

Lemma CheckBlocks_block_wf b :
  wf_block b = true ->
  exists tok s e,
    open_token b = Some tok /\ open_label b = Some s /\ close_label b = Some e /\
    CheckBlocks_block b =
      if negb (s =? e) then Some (SemanticError s e tok) else None.
Proof.
  intros H. destruct (wf_block_labels b H)
    as (first & final & s & e & Ho & Hc & Hol & Hcl & Hs & He).
  exists first, s, e. repeat split; auto.
  unfold CheckBlocks_block. unfold open_token, close_token in *.
  destruct (head (children b)) as [[?|first']|]; try discriminate.
  injection Ho as ->. rewrite Hs.
  destruct (last (children b)) as [[?|final']|]; try discriminate.
  injection Hc as ->. rewrite He. reflexivity.
Qed.

Lemma wf_tree_block t p b :
  wf_tree t = true -> subtree_at t p = Some b -> is_block b = true ->
  wf_block b = true.
Proof.
  unfold wf_tree. rewrite forallb_forall. intros Hwf Hp Hb.
  assert (Hin : In b (queue t)) by (apply queue_subtree_at; eauto).
  specialize (Hwf b Hin). rewrite Hb in Hwf. exact Hwf.
Qed.

(** *** Changing one closing label *)

Lemma subtree_at_app (t : Tree) p q :
  subtree_at t (p ++ q) = s ← subtree_at t p; subtree_at s q.
Proof.
  revert t. induction p as [|i p IH]; intros t; simpl; [reflexivity|].
  destruct (children t !! i) as [[c|tok]|]; auto.
Qed.

Lemma subtree_at_update p f (t b : Tree) :
  subtree_at t p = Some b ->
  subtree_at (update_at p f t) p = Some (f b).
Proof.
  revert t. induction p as [|i p IH]; intros t H; simpl in *.
  - injection H as ->. reflexivity.
  - destruct (children t !! i) as [[c|tok]|] eqn:Hi; try discriminate.
    rewrite list_lookup_alter_eq, Hi. simpl. auto.
Qed.

Lemma subtree_at_set_close_label text (t : Tree) j q :
  subtree_at (set_close_label text t) (j :: q) = subtree_at t (j :: q).
Proof.
  destruct t as [d cs]. simpl.
  destruct (decide ((length cs - 1)%nat = j)) as [<-|Hne].
  - rewrite list_lookup_alter_eq.
    destruct (cs !! (length cs - 1)%nat) as [[c|tok]|]; reflexivity.
  - rewrite list_lookup_alter_ne by exact Hne. reflexivity.
Qed.

(** A subtree of the changed tree is a subtree of the tree as it was, or
    one that lies on the way to the changed block, changed below. *)
Lemma subtree_at_update_inv text p (t b : Tree) q s' :
  subtree_at t p = Some b ->
  subtree_at (update_at p (set_close_label text) t) q = Some s' ->
  exists s, subtree_at t q = Some s /\
    (s' = s \/ exists r, p = q ++ r /\ s' = update_at r (set_close_label text) s).
Proof.
  revert t q. induction p as [|i p IH]; intros t q Hb Hq.
  - simpl in *. injection Hb as ->. destruct q as [|j q].
    + simpl in Hq. injection Hq as <-. exists b. split; [reflexivity|].
      right. exists []. auto.
    + rewrite subtree_at_set_close_label in Hq. eauto.
  - simpl in Hb.
    destruct (children t !! i) as [[c|tok]|] eqn:Hi; try discriminate.
    destruct q as [|j q].
    + simpl in Hq. injection Hq as <-. exists t. split; [reflexivity|].
      right. exists (i :: p). auto.
    + simpl in Hq. destruct (decide (i = j)) as [<-|Hne].
      * rewrite list_lookup_alter_eq, Hi in Hq. simpl in Hq.
        destruct (IH c q Hb Hq) as (s & Hs & Hcase).
        exists s. split; [simpl; rewrite Hi; exact Hs|].
        destruct Hcase as [->|(r & -> & ->)]; [auto|].
        right. exists r. auto.
      * rewrite list_lookup_alter_ne in Hq by exact Hne.
        exists s'. split; [exact Hq | auto].
Qed.

(** The check of a block looks at its first and last child only: changing a
    child that is a tree changes nothing. *)
Lemma CheckBlocks_block_alter d cs (i : nat) c (h : Tree -> Tree) :
  cs !! i = Some (inl c) ->
  CheckBlocks_block
    (mkTree d (alter (fun x => match x with
                               | inl t' => inl (h t')
                               | inr tok => inr tok
                               end) i cs))
  = CheckBlocks_block (mkTree d cs).
Proof.
  intros Hi. unfold CheckBlocks_block. simpl.
  rewrite !head_lookup, !last_lookup, length_alter.
  destruct (decide (i = O)) as [->|H0].
  - rewrite list_lookup_alter_eq, Hi. reflexivity.
  - rewrite list_lookup_alter_ne by exact H0.
    destruct (cs !! O) as [[?|first]|]; try reflexivity.
    destruct (int (tok_value first)); try reflexivity.
    destruct (decide (i = pred (length cs))) as [->|Hl].
    + rewrite list_lookup_alter_eq, Hi. reflexivity.
    + rewrite list_lookup_alter_ne by exact Hl. reflexivity.
Qed.

Lemma call_userfunc_update_below text i r (s c : Tree) :
  children s !! i = Some (inl c) ->
  call_userfunc (update_at (i :: r) (set_close_label text) s) = call_userfunc s.
Proof.
  intros Hi. unfold call_userfunc. simpl.
  destruct (String.eqb (data s) "block"); [|reflexivity].
  destruct s as [d cs]. simpl in *.
  apply (CheckBlocks_block_alter d cs i c _ Hi).
Qed.

(** The block whose closing label is rewritten. *)
Lemma CheckBlocks_block_set_close_label text b k :
  wf_block b = true -> int text = Some k ->
  exists tok s,
    open_token b = Some tok /\ open_label b = Some s /\
    CheckBlocks_block (set_close_label text b) =
      if negb (s =? k) then Some (SemanticError s k tok) else None.
Proof.
  intros Hwf Hk.
  destruct (wf_block_labels b Hwf)
    as (first & final & s & e & Ho & Hc & Hol & Hcl & Hs & He).
  exists first, s. repeat split; auto.
  assert (Hlen : (2 <= length (children b))%nat).
  { unfold wf_block in Hwf. rewrite !andb_true_iff in Hwf.
    destruct Hwf as [[Hl _] _]. apply Nat.leb_le in Hl. exact Hl. }
  destruct b as [d cs]. unfold open_token, close_token in *. simpl in *.
  unfold CheckBlocks_block. simpl.
  rewrite !head_lookup, !last_lookup, length_alter in *.
  rewrite list_lookup_alter_ne by lia.
  destruct (cs !! O) as [[?|first']|]; try discriminate.
  injection Ho as ->. rewrite Hs.
  replace (pred (length cs)) with (length cs - 1)%nat in * by lia.
  rewrite list_lookup_alter_eq.
  destruct (cs !! (length cs - 1)%nat) as [[?|final']|]; try discriminate.
  simpl. rewrite Hk. reflexivity.
Qed.

(** C7.  On a parse tree whose blocks are laid out as the grammar lays them
    out, [CheckBlocks().visit] returns (accepts) exactly when every block of
    the tree has equal opening and closing labels.  When it does not, it
    raises a [SemanticError] that carries the two labels of a block whose
    labels differ and the token of that block's opening label, with its line
    and column; the script then prints the error and evaluates nothing,
    while on acceptance it goes on to run the program.  Rewriting the
    closing label of any one block of an accepted tree to another integer
    makes the visit raise that error for that block. *)
Theorem CheckBlocks_accepts_iff_labels_match (t : Tree) :
  wf_tree t = true ->
  (visit t = None <->
     forall p b, subtree_at t p = Some b -> is_block b = true ->
       open_label b = close_label b) /\
  (forall e, visit t = Some e ->
     exists p b tok s e',
       subtree_at t p = Some b /\ is_block b = true /\
       open_token b = Some tok /\ open_label b = Some s /\
       close_label b = Some e' /\ s <> e' /\
       e = SemanticError s e' tok) /\
  (forall Sema_transform fuel e,
     visit t = Some e -> main Sema_transform fuel t = PrintError e) /\
  (forall Sema_transform fuel,
     visit t = None ->
     main Sema_transform fuel t
       = PrintResult (run_program fuel (Sema_transform t))) /\
  (forall p b text k,
     visit t = None ->
     subtree_at t p = Some b -> is_block b = true ->
     int text = Some k -> close_label b <> Some k ->
     exists tok s,
       open_token b = Some tok /\ open_label b = Some s /\
       visit (update_at p (set_close_label text) t)
         = Some (SemanticError s k tok)).
Proof.
  intros Hwf.
  assert (Hsome : forall e, visit t = Some e ->
     exists p b tok s e',
       subtree_at t p = Some b /\ is_block b = true /\
       open_token b = Some tok /\ open_label b = Some s /\
       close_label b = Some e' /\ s <> e' /\
       e = SemanticError s e' tok).
  { intros e He. apply visit_each_Some in He as (b & Hin & Hb).
    apply iter_subtrees_subtree_at in Hin as [p Hp].
    unfold call_userfunc in Hb. fold (is_block b) in Hb.
    destruct (is_block b) eqn:Hblock; [|discriminate].
    destruct (CheckBlocks_block_wf b (wf_tree_block t p b Hwf Hp Hblock))
      as (tok & s & e' & Ho & Hol & Hcl & Hck).
    rewrite Hck in Hb. destruct (Z.eqb_spec s e') as [->|Hne]; [discriminate|].
    injection Hb as <-. exists p, b, tok, s, e'. auto 10. }
  assert (Hnone : visit t = None ->
     forall p b, subtree_at t p = Some b -> is_block b = true ->
       open_label b = close_label b).
  { intros Hv p b Hp Hblock.
    pose proof (proj1 (visit_each_None _) Hv b
                  (proj2 (iter_subtrees_subtree_at t b) (ex_intro _ p Hp))) as Hb.
    unfold call_userfunc in Hb. fold (is_block b) in Hb. rewrite Hblock in Hb.
    destruct (CheckBlocks_block_wf b (wf_tree_block t p b Hwf Hp Hblock))
      as (tok & s & e' & Ho & Hol & Hcl & Hck).
    rewrite Hck in Hb. rewrite Hol, Hcl.
    destruct (Z.eqb_spec s e') as [->|Hne]; [reflexivity | discriminate]. }
  split; [|split; [|split; [|split]]].
  - split; [exact Hnone|].
    intros Hall. apply visit_each_None. intros b Hin.
    apply iter_subtrees_subtree_at in Hin as [p Hp].
    unfold call_userfunc. fold (is_block b).
    destruct (is_block b) eqn:Hblock; [|reflexivity].
    destruct (CheckBlocks_block_wf b (wf_tree_block t p b Hwf Hp Hblock))
      as (tok & s & e' & Ho & Hol & Hcl & Hck).
    rewrite Hck. specialize (Hall p b Hp Hblock). rewrite Hol, Hcl in Hall.
    injection Hall as ->. rewrite Z.eqb_refl. reflexivity.
  - exact Hsome.
  - intros Sema_transform fuel e He.
    destruct (Hsome e He) as (p & b & tok & s & e' & _ & _ & _ & _ & _ & _ & ->).
    unfold main. rewrite He. reflexivity.
  - intros Sema_transform fuel Hv. unfold main. rewrite Hv. reflexivity.
  - intros p b text k Hv Hp Hblock Hk Hne.
    pose proof (wf_tree_block t p b Hwf Hp Hblock) as Hwfb.
    destruct (CheckBlocks_block_set_close_label text b k Hwfb Hk)
      as (tok & s & Ho & Hol & Hck).
    pose proof (Hnone Hv p b Hp Hblock) as Heq. rewrite Hol in Heq.
    assert (Hsk : s <> k) by (intros ->; apply Hne; rewrite <- Heq; reflexivity).
    destruct (Z.eqb_spec s k) as [|_]; [contradiction|]. simpl in Hck.
    assert (Hdata : forall x, data (set_close_label text x) = data x)
      by (intros [d cs]; reflexivity).
    exists tok, s. split; [exact Ho|]. split; [exact Hol|].
    set (t' := update_at p (set_close_label text) t).
    assert (Hbad : call_userfunc (set_close_label text b)
                   = Some (SemanticError s k tok)).
    { unfold call_userfunc. rewrite Hdata. fold (is_block b).
      rewrite Hblock. exact Hck. }
    destruct (visit t') as [e|] eqn:Hv'.
    + apply visit_each_Some in Hv' as (s' & Hin & Hs').
      apply iter_subtrees_subtree_at in Hin as [q Hq].
      destruct (subtree_at_update_inv text p t b q s' Hp Hq)
        as (s0 & Hs0 & [->|(r & -> & ->)]).
      * pose proof (proj1 (visit_each_None _) Hv s0
                      (proj2 (iter_subtrees_subtree_at t s0)
                         (ex_intro _ q Hs0))) as H0.
        congruence.
      * rewrite subtree_at_app, Hs0 in Hp. simpl in Hp.
        destruct r as [|i r].
        -- simpl in Hp. injection Hp as ->. simpl in Hs'. congruence.
        -- simpl in Hp.
           destruct (children s0 !! i) as [[c|?]|] eqn:Hi; try discriminate.
           rewrite (call_userfunc_update_below text i r s0 c Hi) in Hs'.
           pose proof (proj1 (visit_each_None _) Hv s0
                         (proj2 (iter_subtrees_subtree_at t s0)
                            (ex_intro _ q Hs0))) as H0.
           congruence.
    + exfalso.
      pose proof (proj1 (visit_each_None _) Hv' (set_close_label text b)
                    (proj2 (iter_subtrees_subtree_at t' _)
                       (ex_intro _ p (subtree_at_update p _ t b Hp)))) as H0.
      congruence.
Qed.

Lemma CheckBlocks_accepts_iff_labels_match_witness :
  visit tree_f = None /\
  visit (update_at path_inner_block (set_close_label "2") tree_f)
    = Some (SemanticError 1 2 (mkToken "NUMBER" "1" 2 27)).
Proof.
  destruct (CheckBlocks_accepts_iff_labels_match tree_f) as (_ & _ & _ & _ & H).
  - vm_compute. reflexivity.
  - split; [vm_compute; reflexivity|].
    destruct (H path_inner_block tree_inner_block "2" 2) as (tok & s & Ho & Hs & Hv).
    + vm_compute. reflexivity.
    + vm_compute. reflexivity.
    + vm_compute. reflexivity.
    + vm_compute. reflexivity.
    + vm_compute. discriminate.
    + vm_compute in Ho. vm_compute in Hs.
      injection Ho as <-. injection Hs as <-. exact Hv.
Defined.

(** * Further properties of the evaluator *)

(** ** ABORT *)

Lemma for_range_passes_abort body blocknum N (c : cells_t) k c1 c2 :
  passes body k c c1 -> (k < N)%nat ->
  body c1 = (Raise (Abort blocknum), c2) ->
  for_range N body blocknum c = (Return tt, c2).
Proof.
  intros Hp. revert N. induction Hp as [c|k c u c1 c3 Hb _ IH]; intros N Hk He.
  - destruct N as [|N]; [lia|]. simpl. unfold loop_pass.
    rewrite He, Z.eqb_refl. reflexivity.
  - destruct N as [|N]; [lia|]. simpl. unfold loop_pass. rewrite Hb.
    apply IH; [lia | exact He].
Qed.

(** X1.  [ABORT LOOP n] raises [Abort n].  No block stops it, the block of
    label [n] no more than another: only a loop does, and only the loop
    whose body has label [n].  A bounded loop whose body, after [k] normal
    passes with [k] below the bound, raises the [Abort] of the body's label
    returns normally at once, with the store as the abort left it; a loop,
    bounded or not, whose body raises an [Abort] of another label lets it
    through. *)
Theorem abort_unwinds_to_its_loop decls fuel params :
  (forall n (c : cells_t),
      runinstr_stmt decls fuel (Sabort n) c params = (Raise (Abort n), c)) /\
  (forall m n stmts (c c1 : cells_t),
      run (fun s c0 => runinstr_stmt decls fuel s c0 params) stmts c
        = (Raise (Abort n), c1) ->
      runinstr_block decls (S fuel) (Block m stmts) c params
        = (Raise (Abort n), c1)) /\
  (forall e body (c c1 c2 : cells_t) bound k,
      fst (runinstr_expr decls fuel e c params) = Return bound ->
      passes (fun c0 => runinstr_block decls fuel body c0 params) k c c1 ->
      (k < Z.to_nat (py_int bound))%nat ->
      runinstr_block decls fuel body c1 params
        = (Raise (Abort (block_num body)), c2) ->
      runinstr_stmt decls (S fuel) (Sloop (Some e) body) c params
        = (Return tt, c2)) /\
  (forall e body (c c1 c2 : cells_t) bound k n,
      fst (runinstr_expr decls fuel e c params) = Return bound ->
      passes (fun c0 => runinstr_block decls fuel body c0 params) k c c1 ->
      (k < Z.to_nat (py_int bound))%nat ->
      n <> block_num body ->
      runinstr_block decls fuel body c1 params = (Raise (Abort n), c2) ->
      runinstr_stmt decls (S fuel) (Sloop (Some e) body) c params
        = (Raise (Abort n), c2)) /\
  (forall body (c c1 c2 : cells_t) k n,
      passes (fun c0 => runinstr_block decls fuel body c0 params) k c c1 ->
      (k < fuel)%nat ->
      n <> block_num body ->
      runinstr_block decls fuel body c1 params = (Raise (Abort n), c2) ->
      runinstr_stmt decls (S fuel) (Sloop None body) c params
        = (Raise (Abort n), c2)).
Proof.
  repeat apply conj.
  - intros n c. apply runinstr_stmt_abort.
  - intros m n stmts c c1 H. rewrite runinstr_block_S, H. reflexivity.
  - intros e body c c1 c2 bound k He Hp Hk Hb. rewrite runinstr_stmt_loop.
    destruct (runinstr_expr decls fuel e c params) as [r c0] eqn:E.
    apply runinstr_expr_cells in E as ->. simpl in He. subst r.
    eapply for_range_passes_abort; eauto.
  - intros e body c c1 c2 bound k n He Hp Hk Hn Hb. rewrite runinstr_stmt_loop.
    destruct (runinstr_expr decls fuel e c params) as [r c0] eqn:E.
    apply runinstr_expr_cells in E as ->. simpl in He. subst r.
    eapply for_range_passes_raise; eauto. congruence.
  - intros body c c1 c2 k n Hp Hk Hn Hb. rewrite runinstr_stmt_mu_loop.
    erewrite while_true_passes_raise; eauto. congruence.
Qed.

Lemma abort_unwinds_to_its_loop_witness :
  runinstr_stmt ∅ 4
    (Sloop (Some (Enum 4)) (Block 7 [Scond (Ebool true) (Block 7 [Sabort 7])]))
    ∅ ∅ = (Return tt, ∅).
Proof.
  destruct (abort_unwinds_to_its_loop ∅ 3 ∅) as (_ & _ & H & _).
  apply (H (Enum 4) (Block 7 [Scond (Ebool true) (Block 7 [Sabort 7])])
           ∅ ∅ ∅ (VInt 4) 0%nat).
  - reflexivity.
  - apply passes_O.
  - simpl. lia.
  - vm_compute. reflexivity.
Defined.

(** ** What a call lets out *)

Lemma eval_args_no_signal ev args (c : cells_t) e c' :
  (forall a c0 x c1, ev a c0 = (Raise x, c1) -> is_signal x = false) ->
  eval_args ev args c = (Raise e, c') -> is_signal e = false.
Proof.
  intros Hev. revert c. induction args as [|a rest IH]; intros c H; simpl in H.
  - discriminate.
  - destruct (ev a c) as [[v|x|] c1] eqn:E1.
    + destruct (eval_args ev rest c1) as [[vs|x|] c2] eqn:E2; try discriminate.
      injection H as <- <-. eapply IH; eauto.
    + injection H as <- <-. eapply Hev; eauto.
    + discriminate.
Qed.

Lemma runinstr_expr_no_signal decls fuel tup (c : cells_t) params e c' :
  runinstr_expr decls fuel tup c params = (Raise e, c') -> is_signal e = false.
Proof.
  revert tup c params e c'. induction fuel as [|fuel IH]; intros tup c params e c' H.
  - destruct tup as [b|n|i|p|op a b|procname args]; simpl in H; try discriminate.
    + destruct (c !! i); [discriminate|]. injection H as <- _. reflexivity.
    + destruct (params !! p); [discriminate|]. injection H as <- _. reflexivity.
  - destruct tup as [b|n|i|p|op a b|procname args].
    + discriminate.
    + discriminate.
    + simpl in H. destruct (c !! i); [discriminate|]. injection H as <- _. reflexivity.
    + simpl in H. destruct (params !! p); [discriminate|]. injection H as <- _. reflexivity.
    + rewrite runinstr_expr_binop in H.
      destruct (runinstr_expr decls fuel a c params) as [[va|x|] c1] eqn:E1.
      * destruct (runinstr_expr decls fuel b c1 params) as [[vb|x|] c2] eqn:E2;
          try discriminate.
        injection H as <- <-. eapply IH; eauto.
      * injection H as <- <-. eapply IH; eauto.
      * discriminate.
    + rewrite runinstr_expr_call in H.
      destruct (eval_args _ args c) as [[vs|x|] c1] eqn:E1.
      * destruct (decls !! procname) as [[funcparams body]|].
        -- destruct (runinstr_block decls fuel body _ _) as [[u|x|] c2] eqn:E2.
           ++ destruct (c2 !! (-1)); [discriminate|].
              injection H as <- _. reflexivity.
           ++ destruct x; injection H as <- _; reflexivity.
           ++ discriminate.
        -- injection H as <- _. reflexivity.
      * injection H as <- <-.
        eapply (eval_args_no_signal _ args c x c1); [|exact E1].
        intros a c0 y c3 Hy. exact (IH a c0 params y c3 Hy).
      * discriminate.
Qed.

(** X2.  No [Abort] and no [Break] ever comes out of an expression, a call
    in particular: when the body of the callee lets one escape, the handlers
    of lines 160-163 run into [a.str()], and the call raises
    [AttributeError] in its place, in the store of the caller; and no
    program ends with an [Abort] or a [Break]. *)
Theorem call_lets_no_signal_out :
  (forall decls fuel tup (c : cells_t) params n,
      fst (runinstr_expr decls fuel tup c params) <> Raise (Abort n) /\
      fst (runinstr_expr decls fuel tup c params) <> Raise (Break n)) /\
  (forall decls fuel procname args (c : cells_t) params funcparams body
          vs c1 e c'',
      decls !! procname = Some (funcparams, body) ->
      eval_args (fun arg c0 => runinstr_expr decls fuel arg c0 params) args c
        = (Return vs, c1) ->
      runinstr_block decls fuel body {[ (-1) := default_output procname ]}
        (dict_zip funcparams vs) = (Raise e, c'') ->
      is_signal e = true ->
      runinstr_expr decls (S fuel) (Ecall procname args) c params
        = (Raise AttributeError, c)) /\
  (forall fuel ev n,
      run_program fuel ev <> Raise (Abort n) /\
      run_program fuel ev <> Raise (Break n)).
Proof.
  assert (Hexpr : forall decls fuel tup (c : cells_t) params e,
             fst (runinstr_expr decls fuel tup c params) = Raise e ->
             is_signal e = false).
  { intros decls fuel tup c params e H.
    destruct (runinstr_expr decls fuel tup c params) as [r c'] eqn:E.
    simpl in H. subst r. eapply runinstr_expr_no_signal; eauto. }
  repeat apply conj.
  - intros decls fuel tup c params n.
    split; intros H; apply Hexpr in H; discriminate.
  - intros decls fuel procname args c params funcparams body vs c1 e c''
      Hd Ha Hb He.
    pose proof (eval_args_frame
                  (fun arg c0 => runinstr_expr decls fuel arg c0 params) args c
                  (fun a c0 => runinstr_expr_frame decls fuel a c0 params)) as F.
    rewrite Ha in F. simpl in F. subst c1.
    rewrite runinstr_expr_call, Ha, Hd, Hb.
    destruct e; try discriminate; reflexivity.
  - intros fuel ev n. unfold run_program.
    assert (Hitems : forall instrs res decls (c : cells_t) params e,
               fst (fst (run_items fuel instrs res decls c params)) = Raise e ->
               is_signal e = false).
    { induction instrs as [|tup rest IH]; intros res decls c params e H; simpl in H.
      - discriminate.
      - destruct tup as [procname ps body|procname args]; simpl in H.
        + eapply IH; eauto.
        + destruct (runinstr_expr decls fuel (Ecall procname args) c params)
            as [[v|x|] c1] eqn:E; simpl in H.
          * eapply IH; eauto.
          * injection H as <-. eapply runinstr_expr_no_signal; eauto.
          * discriminate. }
    split; intros H; apply Hitems in H; discriminate.
Qed.

Lemma call_lets_no_signal_out_witness :
  runinstr_expr {[ "leak" := (["X"], Block 0 [Squit 9]) ]} 2
    (Ecall "leak" [Enum 1]) {[ 0 := VInt 3 ]} ∅
  = (Raise AttributeError, {[ 0 := VInt 3 ]}).
Proof.
  destruct call_lets_no_signal_out as (_ & H & _).
  apply (H {[ "leak" := (["X"], Block 0 [Squit 9]) ]} 1%nat "leak" [Enum 1]
           {[ 0 := VInt 3 ]} ∅ ["X"] (Block 0 [Squit 9]) [VInt 1]
           {[ 0 := VInt 3 ]} (Break 9) {[ (-1) := VInt 0 ]}).
  - vm_compute. reflexivity.
  - vm_compute. reflexivity.
  - vm_compute. reflexivity.
  - reflexivity.
Defined.

(** ** Missing names *)

(** X3.  A call evaluates its arguments before it looks the procedure up:
    when an argument raises, the call raises that, declared procedure or
    not; when the arguments evaluate and [decls] has no procedure of that
    name, the call raises [KeyError] with the name.  Either way the store of
    the caller is as it was. *)
Theorem undefined_procedure_KeyError decls fuel procname args (c : cells_t)
    params :
  (forall e c1,
      eval_args (fun arg c0 => runinstr_expr decls fuel arg c0 params) args c
        = (Raise e, c1) ->
      runinstr_expr decls (S fuel) (Ecall procname args) c params
        = (Raise e, c)) /\
  (forall vs c1,
      decls !! procname = None ->
      eval_args (fun arg c0 => runinstr_expr decls fuel arg c0 params) args c
        = (Return vs, c1) ->
      runinstr_expr decls (S fuel) (Ecall procname args) c params
        = (Raise (KeyError (KStr procname)), c)).
Proof.
  assert (F : forall r c1,
             eval_args (fun arg c0 => runinstr_expr decls fuel arg c0 params)
               args c = (r, c1) -> c1 = c).
  { intros r c1 H.
    pose proof (eval_args_frame
                  (fun arg c0 => runinstr_expr decls fuel arg c0 params) args c
                  (fun a c0 => runinstr_expr_frame decls fuel a c0 params)) as E.
    rewrite H in E. exact E. }
  split.
  - intros e c1 Ha. pose proof (F _ _ Ha) as ->.
    rewrite runinstr_expr_call, Ha. reflexivity.
  - intros vs c1 Hd Ha. pose proof (F _ _ Ha) as ->.
    rewrite runinstr_expr_call, Ha, Hd. reflexivity.
Qed.

Lemma undefined_procedure_KeyError_witness :
  runinstr_expr ∅ 1 (Ecall "nowhere" [Enum 1]) ∅ ∅
    = (Raise (KeyError (KStr "nowhere")), ∅) /\
  runinstr_expr ∅ 1 (Ecall "nowhere" [Ecellfetch 4]) ∅ ∅
    = (Raise (KeyError (KInt 4)), ∅).
Proof.
  destruct (undefined_procedure_KeyError ∅ 0 "nowhere" [Enum 1] ∅ ∅) as [_ H1].
  destruct (undefined_procedure_KeyError ∅ 0 "nowhere" [Ecellfetch 4] ∅ ∅)
    as [H2 _].
  split.
  - apply (H1 [VInt 1] ∅); reflexivity.
  - apply (H2 (KeyError (KInt 4)) ∅). reflexivity.
Defined.

(** X4.  A parameter that got no argument is unbound in the callee: a
    procedure whose body assigns such a parameter to a cell, called with
    arguments that evaluate, raises [KeyError] with the name of the
    parameter, whatever the binding of the caller holds under that name. *)
Theorem surplus_parameter_KeyError decls fuel procname args (c : cells_t)
    params funcparams n i p vs c1 :
  decls !! procname
    = Some (funcparams, Block n [Sassign (Lcell i) (Eparamfetch p)]) ->
  eval_args (fun arg c0 => runinstr_expr decls (S (S fuel)) arg c0 params)
    args c = (Return vs, c1) ->
  p ∉ take (length args) funcparams ->
  runinstr_expr decls (S (S (S fuel))) (Ecall procname args) c params
    = (Raise (KeyError (KStr p)), c).
Proof.
  intros Hd Ha Hp.
  pose proof (eval_args_length _ _ _ _ _ Ha) as Hlen.
  pose proof (eval_args_frame
                (fun arg c0 => runinstr_expr decls (S (S fuel)) arg c0 params)
                args c
                (fun a c0 => runinstr_expr_frame decls (S (S fuel)) a c0 params))
    as F.
  rewrite Ha in F. simpl in F. subst c1.
  rewrite runinstr_expr_call, Ha, Hd.
  rewrite runinstr_block_S. cbn [run]. rewrite runinstr_stmt_assign.
  rewrite runinstr_expr_paramfetch.
  rewrite dict_zip_unbound by (rewrite Hlen; exact Hp).
  reflexivity.
Qed.

Lemma surplus_parameter_KeyError_witness :
  runinstr_expr
    {[ "second" := (["A"; "B"], Block 0 [Sassign (Lcell (-1)) (Eparamfetch "B")]) ]}
    3 (Ecall "second" [Enum 7]) ∅ {[ "B" := VInt 1 ]}
  = (Raise (KeyError (KStr "B")), ∅).
Proof.
  apply (surplus_parameter_KeyError
           {[ "second" := (["A"; "B"], Block 0 [Sassign (Lcell (-1)) (Eparamfetch "B")]) ]}
           0 "second" [Enum 7] ∅ {[ "B" := VInt 1 ]} ["A"; "B"] 0 (-1) "B"
           [VInt 7] ∅).
  - vm_compute. reflexivity.
  - vm_compute. reflexivity.
  - simpl. intros H. apply list_elem_of_In in H. simpl in H.
    destruct H as [H|[]]. discriminate.
Defined.

(** ** The registry *)

Lemma declared_app l1 l2 decls :
  declared (l1 ++ l2) decls = declared l2 (declared l1 decls).
Proof. unfold declared. apply fold_left_app. Qed.

Lemma declared_other l procname (decls : decls_t) :
  forallb (fun tup => negb (declares procname tup)) l = true ->
  declared l decls !! procname = decls !! procname.
Proof.
  revert decls. induction l as [|tup l IH]; intros decls H; simpl in *.
  - reflexivity.
  - apply andb_true_iff in H as [Ht Hl].
    change (declared l (declare decls tup) !! procname = decls !! procname).
    rewrite IH by exact Hl.
    destruct tup as [name ps body|name args]; simpl in *; [|reflexivity].
    destruct (String.eqb_spec name procname) as [|Hne]; [discriminate|].
    apply lookup_insert_ne. exact Hne.
Qed.

Lemma run_items_decls fuel instrs res decls (c : cells_t) params :
  forallb is_decl instrs = true ->
  run_items fuel instrs res decls c params
  = (Return (if instrs is [] then res else None), declared instrs decls, c).
Proof.
  revert res decls. induction instrs as [|tup l IH]; intros res decls H; simpl in *.
  - reflexivity.
  - apply andb_true_iff in H as [Ht Hl].
    destruct tup as [name ps body|name args]; [|discriminate]. simpl.
    rewrite IH by exact Hl. destruct l; reflexivity.
Qed.

(** X5.  Declarations never fail and need no fuel, and the last one of a
    name wins: after a list of declarations has run, the registry holds,
    under a name, the parameters and body of the last declaration of that
    name in the list, and under a name the list does not declare what it
    held before; the cells are untouched and the result is [None]. *)
Theorem last_declaration_wins fuel l1 l2 procname ps body res decls
    (c : cells_t) params :
  forallb is_decl (l1 ++ Idecl procname ps body :: l2) = true ->
  forallb (fun tup => negb (declares procname tup)) l2 = true ->
  exists decls',
    run_items fuel (l1 ++ Idecl procname ps body :: l2) res decls c params
      = (Return None, decls', c) /\
    decls' !! procname = Some (ps, body) /\
    forall other,
      forallb (fun tup => negb (declares other tup))
        (l1 ++ Idecl procname ps body :: l2) = true ->
      decls' !! other = decls !! other.
Proof.
  intros Hd Hl2.
  exists (declared (l1 ++ Idecl procname ps body :: l2) decls).
  split; [|split].
  - rewrite run_items_decls by exact Hd. destruct l1; reflexivity.
  - rewrite declared_app.
    change (declared l2 (<[procname := (ps, body)]> (declared l1 decls))
              !! procname = Some (ps, body)).
    rewrite declared_other by exact Hl2. apply lookup_insert_eq.
  - intros other Ho. apply declared_other. exact Ho.
Qed.

Lemma last_declaration_wins_witness :
  exists decls' : decls_t,
    run_items 0 [Idecl "f" ["A"] (Block 0 []); Idecl "g" ["B"] (Block 1 []);
                 Idecl "f" ["C"] (Block 2 [])] None ∅ ∅ ∅
      = (Return None, decls', ∅) /\
    decls' !! "f" = Some (["C"], Block 2 []).
Proof.
  destruct (last_declaration_wins 0
              [Idecl "f" ["A"] (Block 0 []); Idecl "g" ["B"] (Block 1 [])] []
              "f" ["C"] (Block 2 []) None ∅ ∅ ∅) as (d & H1 & H2 & _).
  - reflexivity.
  - reflexivity.
  - exists d. split; [exact H1 | exact H2].
Defined.

(** X6.  A program is its last call in the registry of its declarations:
    the declarations before the call, whatever their order, give the
    registry [declared], with every name at its last declaration, and the
    result of the program is the result of the call evaluated there, in an
    empty store and an empty binding; so a body may call a procedure
    declared after it.  A program of declarations alone gives [None]. *)
Theorem program_is_its_last_call fuel ds procname args :
  forallb is_decl ds = true ->
  run_program fuel ds = Return None /\
  run_program fuel (ds ++ [Icall procname args]) =
    match fst (runinstr_expr (declared ds ∅) fuel (Ecall procname args) ∅ ∅) with
    | Return v => Return (Some v)
    | Raise e => Raise e
    | OutOfFuel => OutOfFuel
    end.
Proof.
  intros Hd. unfold run_program. split.
  - rewrite run_items_decls by exact Hd. destruct ds; reflexivity.
  - assert (Happ : forall l res decls (c : cells_t) params,
               forallb is_decl l = true ->
               run_items fuel (l ++ [Icall procname args]) res decls c params
               = run_items fuel [Icall procname args]
                   (if l is [] then res else None) (declared l decls) c params).
    { induction l as [|tup l IH]; intros res decls c params H.
      - reflexivity.
      - simpl in H. apply andb_true_iff in H as [Ht Hl].
        destruct tup as [name ps body|name a]; [|discriminate].
        simpl. rewrite IH by exact Hl. destruct l; reflexivity. }
    rewrite Happ by exact Hd. simpl.
    destruct (runinstr_expr (declared ds ∅) fuel (Ecall procname args) ∅ ∅)
      as [[v|e|] c1]; reflexivity.
Qed.

Lemma program_is_its_last_call_witness :
  run_program 8
    [ Idecl "twice" ["X"]
        (Block 0 [Sassign (Lcell (-1)) (Ecall "add" [Eparamfetch "X"; Eparamfetch "X"])]);
      decl_add;
      Icall "twice" [Enum 4] ]
  = Return (Some (VInt 8)).
Proof.
  destruct (program_is_its_last_call 8
              [ Idecl "twice" ["X"]
                  (Block 0 [Sassign (Lcell (-1))
                              (Ecall "add" [Eparamfetch "X"; Eparamfetch "X"])]);
                decl_add ] "twice" [Enum 4]) as [_ H].
  - reflexivity.
  - simpl app in H. rewrite H. vm_compute. reflexivity.
Defined.

(** ** Cells a statement does not name *)

Lemma run_keeps_in (P : cells_t -> Prop) ev instrs :
  (forall s, In s instrs -> keeps P (ev s)) -> keeps P (run ev instrs).
Proof.
  induction instrs as [|s rest IH]; intros Hev c Hc; simpl; auto.
  pose proof (Hev s (or_introl eq_refl) c Hc) as Hs.
  destruct (ev s c) as [[u|e|] c1]; simpl in *; auto.
  apply IH; [|exact Hs]. intros s' Hin. apply Hev. right. exact Hin.
Qed.

Lemma runinstr_frame decls fuel (j : Z) (v : option value) :
  (forall s params, ~ In j (writes_stmt s) ->
      keeps (fun c => c !! j = v) (fun c => runinstr_stmt decls fuel s c params)) /\
  (forall b params, ~ In j (writes_block b) ->
      keeps (fun c => c !! j = v) (fun c => runinstr_block decls fuel b c params)).
Proof.
  induction fuel as [|fuel [IHs IHb]].
  - split.
    + intros s params _ c Hc.
      destruct s as [[bd|] body|t body|n|n|[i] e]; simpl; exact Hc.
    + intros [n stmts] params _ c Hc. simpl. exact Hc.
  - split.
    + intros s params Hj c Hc.
      destruct s as [[bd|] body|t body|n|n|[i] e].
      * rewrite runinstr_stmt_loop.
        destruct (runinstr_expr decls fuel bd c params) as [[w|x|] c1] eqn:E;
          apply runinstr_expr_cells in E; subst c1; simpl; auto.
        apply (for_range_keeps (fun c0 => c0 !! j = v)); [|exact Hc].
        apply IHb. exact Hj.
      * rewrite runinstr_stmt_mu_loop.
        pose proof (while_true_keeps (fun c0 => c0 !! j = v) fuel
                      (fun c0 => runinstr_block decls fuel body c0 params)
                      (block_num body) (IHb body params Hj) c Hc) as Hw.
        destruct (while_true _ _ _ c) as [[u|x|] c1]; simpl in *; auto.
      * rewrite runinstr_stmt_cond.
        destruct (runinstr_expr decls fuel t c params) as [[w|x|] c1] eqn:E;
          apply runinstr_expr_cells in E; subst c1; simpl; auto.
        destruct (truthy w); simpl; auto. apply IHb; auto.
      * simpl. exact Hc.
      * simpl. exact Hc.
      * rewrite runinstr_stmt_assign.
        destruct (runinstr_expr decls fuel e c params) as [[w|x|] c1] eqn:E;
          apply runinstr_expr_cells in E; subst c1; simpl; auto.
        rewrite lookup_insert_ne; [exact Hc|].
        intros ->. apply Hj. simpl. auto.
    + intros [n stmts] params Hj c Hc. rewrite runinstr_block_S.
      pose proof (run_keeps_in (fun c0 => c0 !! j = v)
                    (fun s c0 => runinstr_stmt decls fuel s c0 params) stmts) as Hr.
      assert (Hall : forall s, In s stmts ->
                keeps (fun c0 => c0 !! j = v)
                  (fun c0 => runinstr_stmt decls fuel s c0 params)).
      { intros s Hin. apply IHs. intros Hw. apply Hj. simpl.
        apply in_flat_map. eauto. }
      specialize (Hr Hall c Hc).
      destruct (run _ stmts c) as [[u|x|] c1]; simpl in *; auto.
      destruct x as [m|m|k| |]; simpl; auto.
      destruct (negb (m =? n)); simpl; auto.
Qed.

(** X7.  A statement changes no cell but those its assignments name: a cell
    whose index is the target of no assignment in a statement, or in a
    block, holds after it what it held before (or is still unset), whatever
    the outcome (a return, an exception, a loop cut short) and whatever
    the procedures called on the way write in stores of their own. *)
Theorem statement_writes_only_its_targets decls fuel params (c : cells_t) j :
  (forall s, ~ In j (writes_stmt s) ->
      snd (runinstr_stmt decls fuel s c params) !! j = c !! j) /\
  (forall b, ~ In j (writes_block b) ->
      snd (runinstr_block decls fuel b c params) !! j = c !! j).
Proof.
  destruct (runinstr_frame decls fuel j (c !! j)) as [Hs Hb]. split.
  - intros s Hj. apply (Hs s params Hj c). reflexivity.
  - intros b Hj. apply (Hb b params Hj c). reflexivity.
Qed.

Lemma statement_writes_only_its_targets_witness :
  snd (runinstr_stmt ∅ 6 loop_quit {[ 0 := VInt 0; 5 := VBool true ]} ∅) !! 5
  = Some (VBool true).
Proof.
  destruct (statement_writes_only_its_targets ∅ 6 ∅
              {[ 0 := VInt 0; 5 := VBool true ]} 5) as [H _].
  rewrite H.
  - vm_compute. reflexivity.
  - vm_compute. intros [H0|[H0|[]]]; discriminate.
Defined.

(** ** A MU-LOOP that nothing leaves *)

Lemma while_true_no_exit (P : cells_t -> Prop) body blocknum n (c : cells_t) :
  (forall c0 r c1, P c0 -> body c0 = (r, c1) ->
      (r = Return tt \/ r = OutOfFuel) /\ P c1) ->
  P c -> fst (while_true n body blocknum c) = OutOfFuel.
Proof.
  intros Hb. revert c. induction n as [|n IH]; intros c Hc; simpl.
  - reflexivity.
  - unfold loop_pass. destruct (body c) as [r c1] eqn:E.
    destruct (Hb c r c1 Hc E) as [[->| ->] Hc1].
    + apply IH. exact Hc1.
    + reflexivity.
Qed.

(** X8.  A MU-LOOP ends only by an exception: when, from the stores of some
    set that the body does not leave, no pass of the body raises anything,
    the loop started in that set never ends, however much fuel it is
    given. *)
Theorem mu_loop_without_exit_never_ends decls body params
    (P : cells_t -> Prop) (c : cells_t) :
  (forall fuel c0 r c1, P c0 ->
      runinstr_block decls fuel body c0 params = (r, c1) ->
      (r = Return tt \/ r = OutOfFuel) /\ P c1) ->
  P c ->
  forall fuel,
    fst (runinstr_stmt decls fuel (Sloop None body) c params) = OutOfFuel.
Proof.
  intros Hb Hc fuel. destruct fuel as [|fuel]; [reflexivity|].
  rewrite runinstr_stmt_mu_loop.
  pose proof (while_true_no_exit P
                (fun c0 => runinstr_block decls fuel body c0 params)
                (block_num body) fuel c (Hb fuel) Hc) as H.
  destruct (while_true _ _ _ c) as [r c1]. simpl in H. subst r. reflexivity.
Qed.

Lemma mu_loop_without_exit_never_ends_witness :
  fst (runinstr_stmt ∅ 1000 (Sloop None (Block 1 [Squit 1])) ∅ ∅) = OutOfFuel.
Proof.
  apply (mu_loop_without_exit_never_ends ∅ (Block 1 [Squit 1]) ∅
           (fun _ => True) ∅).
  - intros fuel c0 r c1 _ H. split; [|exact I].
    destruct fuel as [|fuel]; simpl in H.
    + injection H as <- _. auto.
    + rewrite runinstr_stmt_quit in H. simpl in H. injection H as <- _. auto.
  - exact I.
Defined.

(** ** Counting up *)

Lemma count_up_passes decls fuel params n i m :
  forall (c : cells_t) k,
    c !! i = Some (VInt k) ->
    for_range m
      (fun c0 => runinstr_block decls (S (S (S fuel)))
                   (Block n [Sassign (Lcell i)
                               (Ebinop Oplus (Ecellfetch i) (Enum 1))])
                   c0 params)
      n c
    = (Return tt, <[i := VInt (k + Z.of_nat m)]> c).
Proof.
  induction m as [|m IH]; intros c k Hk.
  - simpl. rewrite Z.add_0_r, insert_id by exact Hk. reflexivity.
  - cbn [for_range]. unfold loop_pass.
    rewrite runinstr_block_S. cbn [run].
    rewrite runinstr_stmt_assign, runinstr_expr_binop.
    rewrite runinstr_expr_cellfetch, Hk, runinstr_expr_num. cbn [eval_binop py_int].
    rewrite (IH (<[i := VInt (k + 1)]> c) (k + 1)) by apply lookup_insert_eq.
    rewrite insert_insert_eq. do 3 f_equal. lia.
Qed.

(** X9.  The loop [LOOP e TIMES: BLOCK n: BEGIN CELL(i) <= CELL(i) + 1;
    BLOCK n: END] adds the value of [e] to cell [i]: when [e] evaluates to
    the Integer [N], not negative, and cell [i] holds the Integer [k], the
    loop returns with cell [i] at [k + N] and every other cell as it was,
    also when [e] reads cell [i] itself. *)
Theorem count_up_adds decls fuel params e n i (c : cells_t) N k :
  fst (runinstr_expr decls (S (S (S fuel))) e c params) = Return (VInt N) ->
  0 <= N ->
  c !! i = Some (VInt k) ->
  runinstr_stmt decls (S (S (S (S fuel)))) (count_up e n i) c params
  = (Return tt, <[i := VInt (k + N)]> c).
Proof.
  intros He HN Hk. unfold count_up. rewrite runinstr_stmt_loop.
  destruct (runinstr_expr decls (S (S (S fuel))) e c params) as [r c0] eqn:E.
  apply runinstr_expr_cells in E as ->. simpl in He. subst r.
  cbn [py_int block_num].
  rewrite (count_up_passes decls fuel params n i (Z.to_nat N) c k Hk).
  rewrite Z2Nat.id by exact HN. reflexivity.
Qed.

Lemma count_up_adds_witness :
  runinstr_stmt ∅ 4 (count_up (Ecellfetch 0) 1 0) {[ 0 := VInt 3 ]} ∅
  = (Return tt, <[ 0 := VInt (3 + 3) ]> {[ 0 := VInt 3 ]}).
Proof.
  apply (count_up_adds ∅ 0 ∅ (Ecellfetch 0) 1 0 {[ 0 := VInt 3 ]} 3 3).
  - vm_compute. reflexivity.
  - lia.
  - vm_compute. reflexivity.
Defined.

(** ** No negative number *)

Lemma eval_binop_nonneg op a b :
  nonneg_value a -> nonneg_value b -> nonneg_value (eval_binop op a b).
Proof.
  unfold nonneg_value. intros Ha Hb. destruct op; simpl.
  - destruct (py_int a =? py_int b); lia.
  - destruct (py_int a <? py_int b); lia.
  - destruct (py_int a >? py_int b); lia.
  - lia.
  - nia.
Qed.

Lemma default_output_nonneg procname : nonneg_value (default_output procname).
Proof.
  unfold default_output, nonneg_value.
  destruct (endswith procname "?"); simpl; lia.
Qed.

Lemma dict_zip_nonneg ps vs :
  Forall nonneg_value vs -> nonneg_params (dict_zip ps vs).
Proof.
  unfold dict_zip, nonneg_params. intros Hvs.
  assert (H : forall (m : params_t),
             map_Forall (fun _ v => nonneg_value v) m ->
             map_Forall (fun _ v => nonneg_value v)
               (fold_left (fun d kv => <[fst kv := snd kv]> d) (zip ps vs) m)).
  { revert vs Hvs. induction ps as [|p ps IH]; intros vs Hvs m Hm.
    - exact Hm.
    - destruct vs as [|v vs]; [exact Hm|]. simpl.
      apply Forall_cons in Hvs as [Hv Hvs].
      apply IH; [exact Hvs|]. apply map_Forall_insert_2; assumption. }
  apply H. apply map_Forall_empty.
Qed.

Lemma eval_args_nonneg (P : cells_t -> Prop) ev args (c : cells_t) vs c1 :
  (forall a c0 v c2, In a args -> P c0 -> ev a c0 = (Return v, c2) ->
      P c2 /\ nonneg_value v) ->
  P c ->
  eval_args ev args c = (Return vs, c1) -> Forall nonneg_value vs.
Proof.
  revert c vs. induction args as [|a rest IH]; intros c vs Hev Hc H; simpl in H.
  - injection H as <- _. constructor.
  - destruct (ev a c) as [[v|e|] c0] eqn:E1; try discriminate.
    destruct (eval_args ev rest c0) as [[ws|e|] c2] eqn:E2; try discriminate.
    injection H as <- <-.
    destruct (Hev a c v c0 (or_introl eq_refl) Hc E1) as [Hc0 Hv].
    constructor; [exact Hv|].
    eapply IH; [|exact Hc0|exact E2].
    intros a' c3 v' c4 Hin. apply Hev. right. exact Hin.
Qed.

Lemma runinstr_nonneg decls fuel :
  nonneg_decls decls ->
  (forall e (c : cells_t) params v c',
      nonneg_cells c -> nonneg_params params -> nonneg_expr e = true ->
      runinstr_expr decls fuel e c params = (Return v, c') ->
      nonneg_value v) /\
  (forall s params,
      nonneg_params params -> nonneg_stmt s = true ->
      keeps nonneg_cells (fun c => runinstr_stmt decls fuel s c params)) /\
  (forall b params,
      nonneg_params params -> nonneg_block b = true ->
      keeps nonneg_cells (fun c => runinstr_block decls fuel b c params)).
Proof.
  intros Hdecls.
  assert (Hleaf : forall fuel0 e (c : cells_t) params v c',
             (forall op a b, e <> Ebinop op a b) ->
             (forall p args, e <> Ecall p args) ->
             nonneg_cells c -> nonneg_params params -> nonneg_expr e = true ->
             runinstr_expr decls fuel0 e c params = (Return v, c') ->
             nonneg_value v).
  { intros fuel0 e c params v c' Hb Hcall Hc Hp He H.
    destruct e as [b|n|i|p|op a b|procname args].
    - rewrite runinstr_expr_bool in H. injection H as <- _.
      unfold nonneg_value. destruct b; simpl; lia.
    - rewrite runinstr_expr_num in H. injection H as <- _.
      unfold nonneg_value. simpl in *. lia.
    - rewrite runinstr_expr_cellfetch in H.
      destruct (c !! i) as [w|] eqn:E; [|discriminate].
      injection H as <- _. exact (Hc i w E).
    - rewrite runinstr_expr_paramfetch in H.
      destruct (params !! p) as [w|] eqn:E; [|discriminate].
      injection H as <- _. exact (Hp p w E).
    - exfalso. eapply Hb. reflexivity.
    - exfalso. eapply Hcall. reflexivity. }
  induction fuel as [|fuel (IHe & IHs & IHb)].
  - repeat apply conj.
    + intros e c params v c' Hc Hp He H.
      destruct e as [b|n|i|p|op a b|procname args];
        try (eapply Hleaf; eauto; discriminate); discriminate.
    + intros s params Hp Hs c Hc.
      destruct s as [[bd|] body|t body|n|n|[i] e]; simpl; exact Hc.
    + intros [n stmts] params Hp Hb c Hc. simpl. exact Hc.
  - repeat apply conj.
    + intros e c params v c' Hc Hp He H.
      destruct e as [b|n|i|p|op a b|procname args];
        try (eapply Hleaf; eauto; discriminate).
      * simpl in He. apply andb_true_iff in He as [Hea Heb].
        rewrite runinstr_expr_binop in H.
        destruct (runinstr_expr decls fuel a c params) as [[va|x|] c1] eqn:E1;
          try discriminate.
        pose proof (runinstr_expr_cells _ _ _ _ _ _ _ E1) as ->.
        destruct (runinstr_expr decls fuel b c params) as [[vb|x|] c2] eqn:E2;
          try discriminate.
        injection H as <- _. apply eval_binop_nonneg; eauto.
      * simpl in He. rewrite forallb_forall in He.
        rewrite runinstr_expr_call in H.
        destruct (eval_args _ args c) as [[vs|x|] c1] eqn:E1; try discriminate.
        assert (Hvs : Forall nonneg_value vs).
        { eapply (eval_args_nonneg nonneg_cells _ args c vs c1); [|exact Hc|exact E1].
          intros a c0 w c2 Hin Hc0 Ha.
          pose proof (runinstr_expr_cells _ _ _ _ _ _ _ Ha) as ->.
          split; [exact Hc0|]. eapply IHe; eauto. }
        destruct (decls !! procname) as [[funcparams body]|] eqn:Hd;
          [|discriminate].
        pose proof (Hdecls procname _ Hd) as Hbody. simpl in Hbody.
        pose proof (IHb body (dict_zip funcparams vs)
                      (dict_zip_nonneg funcparams vs Hvs) Hbody
                      {[ (-1) := default_output procname ]}) as Hk.
        destruct (runinstr_block decls fuel body _ _) as [[u|x|] c2] eqn:E2.
        -- destruct (c2 !! (-1)) as [w|] eqn:Hw; [|discriminate].
           injection H as <- _. unfold keeps in Hk. rewrite E2 in Hk.
           assert (Hfresh : nonneg_cells {[ (-1) := default_output procname ]}).
           { apply map_Forall_singleton. apply default_output_nonneg. }
           exact (Hk Hfresh (-1) w Hw).
        -- destruct x; discriminate.
        -- discriminate.
    + intros s params Hp Hs c Hc.
      destruct s as [[bd|] body|t body|n|n|[i] e].
      * simpl in Hs. apply andb_true_iff in Hs as [Hbd Hbody].
        rewrite runinstr_stmt_loop.
        destruct (runinstr_expr decls fuel bd c params) as [[w|x|] c1] eqn:E;
          apply runinstr_expr_cells in E; subst c1; simpl; auto.
        apply (for_range_keeps nonneg_cells); [|exact Hc].
        apply IHb; assumption.
      * simpl in Hs. rewrite runinstr_stmt_mu_loop.
        pose proof (while_true_keeps nonneg_cells fuel
                      (fun c0 => runinstr_block decls fuel body c0 params)
                      (block_num body) (IHb body params Hp Hs) c Hc) as Hw.
        destruct (while_true _ _ _ c) as [[u|x|] c1]; simpl in *; auto.
      * simpl in Hs. apply andb_true_iff in Hs as [Ht Hbody].
        rewrite runinstr_stmt_cond.
        destruct (runinstr_expr decls fuel t c params) as [[w|x|] c1] eqn:E;
          apply runinstr_expr_cells in E; subst c1; simpl; auto.
        destruct (truthy w); simpl; auto. apply IHb; auto.
      * simpl. exact Hc.
      * simpl. exact Hc.
      * simpl in Hs. rewrite runinstr_stmt_assign.
        destruct (runinstr_expr decls fuel e c params) as [[w|x|] c1] eqn:E;
          pose proof (runinstr_expr_cells _ _ _ _ _ _ _ E) as ->; simpl; auto.
        apply map_Forall_insert_2; [|exact Hc]. eapply IHe; eauto.
    + intros [n stmts] params Hp Hb c Hc. simpl in Hb.
      rewrite forallb_forall in Hb. rewrite runinstr_block_S.
      pose proof (run_keeps_in nonneg_cells
                    (fun s c0 => runinstr_stmt decls fuel s c0 params) stmts
                    (fun s Hin => IHs s params Hp (Hb s Hin)) c Hc) as Hr.
      destruct (run _ stmts c) as [[u|x|] c1]; simpl in *; auto.
      destruct x as [m|m|k| |]; simpl; auto.
      destruct (negb (m =? n)); simpl; auto.
Qed.

Lemma declared_nonneg l decls :
  forallb nonneg_item l = true -> nonneg_decls decls ->
  nonneg_decls (declared l decls).
Proof.
  revert decls. induction l as [|tup l IH]; intros decls Hl Hd; simpl in *.
  - exact Hd.
  - apply andb_true_iff in Hl as [Ht Hl].
    change (nonneg_decls (declared l (declare decls tup))).
    apply IH; [exact Hl|].
    destruct tup as [name ps body|name args]; simpl in *; [|exact Hd].
    apply map_Forall_insert_2; assumption.
Qed.

(** X10.  The interpreter makes no negative number.  When no ["num"] tuple
    of the program holds one (no numeral of the grammar does), and the cells
    and parameters it starts from hold none, then every value an expression
    returns is a Boolean or an Integer that is not negative, every statement
    and block leaves a store without negative number, and so is the result
    of the program. *)
Theorem no_negative_number :
  (forall decls fuel e (c : cells_t) params v c',
      nonneg_decls decls -> nonneg_cells c -> nonneg_params params ->
      nonneg_expr e = true ->
      runinstr_expr decls fuel e c params = (Return v, c') ->
      0 <= py_int v) /\
  (forall decls fuel b (c : cells_t) params r c' i v,
      nonneg_decls decls -> nonneg_cells c -> nonneg_params params ->
      nonneg_block b = true ->
      runinstr_block decls fuel b c params = (r, c') ->
      c' !! i = Some v -> 0 <= py_int v) /\
  (forall fuel ev v,
      forallb nonneg_item ev = true ->
      run_program fuel ev = Return (Some v) -> 0 <= py_int v).
Proof.
  repeat apply conj.
  - intros decls fuel e c params v c' Hd Hc Hp He H.
    exact (proj1 (runinstr_nonneg decls fuel Hd) e c params v c' Hc Hp He H).
  - intros decls fuel b c params r c' i v Hd Hc Hp Hb H Hi.
    pose proof (proj2 (proj2 (runinstr_nonneg decls fuel Hd)) b params Hp Hb c Hc)
      as Hk.
    simpl in Hk. rewrite H in Hk. exact (Hk i v Hi).
  - intros fuel ev v Hev H. unfold run_program in H.
    assert (Hitems : forall instrs res decls (c : cells_t) w,
               forallb nonneg_item instrs = true ->
               nonneg_decls decls -> nonneg_cells c ->
               (forall x, res = Some x -> nonneg_value x) ->
               fst (fst (run_items fuel instrs res decls c ∅)) = Return (Some w) ->
               nonneg_value w).
    { induction instrs as [|tup rest IH]; intros res decls c w Hl Hd Hc Hres Hr;
        simpl in *.
      - injection Hr as ->. apply Hres. reflexivity.
      - apply andb_true_iff in Hl as [Ht Hl].
        destruct tup as [name ps body|name args]; simpl in *.
        + eapply (IH None); [exact Hl| |exact Hc|discriminate|exact Hr].
          apply map_Forall_insert_2; assumption.
        + destruct (runinstr_expr decls fuel (Ecall name args) c ∅)
            as [[x|e|] c1] eqn:E; simpl in Hr; try discriminate.
          pose proof (runinstr_expr_cells _ _ _ _ _ _ _ E) as ->.
          eapply (IH (Some x)); [exact Hl|exact Hd|exact Hc| |exact Hr].
          intros y Hy. assert (Hyx : y = x) by congruence. subst y.
          apply (proj1 (runinstr_nonneg decls fuel Hd) (Ecall name args) c ∅ x c);
            [exact Hc | apply map_Forall_empty | exact Ht | exact E]. }
    eapply (Hitems ev None ∅ ∅ v Hev); [| |discriminate|exact H];
      apply map_Forall_empty.
Qed.

Lemma no_negative_number_witness :
  forallb nonneg_item prog_add = true /\ 0 <= py_int (VInt 5).
Proof.
  split; [reflexivity|].
  destruct no_negative_number as (_ & _ & H).
  apply (H 5%nat prog_add (VInt 5)).
  - reflexivity.
  - vm_compute. reflexivity.
Defined.

(** ** What a procedure sees *)

(** X11.  A procedure sees of its caller the values of the arguments and
    nothing else: two calls of one name whose arguments evaluate to the
    same values have the same outcome, whatever the cells and the
    parameters of the two callers hold and whatever the argument
    expressions are. *)
Theorem call_depends_on_argument_values decls fuel procname
    args1 (c1 : cells_t) params1 args2 (c2 : cells_t) params2 vs c1' c2' :
  eval_args (fun arg c0 => runinstr_expr decls fuel arg c0 params1) args1 c1
    = (Return vs, c1') ->
  eval_args (fun arg c0 => runinstr_expr decls fuel arg c0 params2) args2 c2
    = (Return vs, c2') ->
  fst (runinstr_expr decls (S fuel) (Ecall procname args1) c1 params1)
  = fst (runinstr_expr decls (S fuel) (Ecall procname args2) c2 params2).
Proof.
  intros H1 H2. rewrite !runinstr_expr_call, H1, H2.
  destruct (decls !! procname) as [[funcparams body]|]; [|reflexivity].
  destruct (runinstr_block decls fuel body _ _) as [[u|e|] c'']; simpl.
  - destruct (c'' !! (-1)); reflexivity.
  - destruct e; reflexivity.
  - reflexivity.
Qed.

Lemma call_depends_on_argument_values_witness :
  fst (runinstr_expr {[ "id" := (["X"], Block 0 [Sassign (Lcell (-1)) (Eparamfetch "X")]) ]}
         4 (Ecall "id" [Ecellfetch 0]) {[ 0 := VInt 2 ]} ∅)
  = fst (runinstr_expr {[ "id" := (["X"], Block 0 [Sassign (Lcell (-1)) (Eparamfetch "X")]) ]}
           4 (Ecall "id" [Eparamfetch "Y"]) ∅ {[ "Y" := VInt 2 ]}).
Proof.
  apply (call_depends_on_argument_values _ 3 "id" [Ecellfetch 0]
           {[ 0 := VInt 2 ]} ∅ [Eparamfetch "Y"] ∅ {[ "Y" := VInt 2 ]}
           [VInt 2] {[ 0 := VInt 2 ]} ∅).
  - vm_compute. reflexivity.
  - vm_compute. reflexivity.
Defined.

(** * The builder *)

(** ** [transform], child by child *)

Lemma transform_eq d cs :
  transform (mkTree d cs) =
  items ← mapM transform_child cs; Sema_call_userfunc d items.
Proof.
  simpl. f_equal.
  induction cs as [|[t|tok] cs IH]; simpl.
  - reflexivity.
  - destruct (transform t); simpl; [|reflexivity]. rewrite IH. reflexivity.
  - destruct (Sema_token tok); simpl; [|reflexivity]. rewrite IH. reflexivity.
Qed.

Lemma grammar_inv t :
  grammar t = true ->
  rule_ok t = true /\
  forall c, In (inl c) (children t) -> grammar c = true.
Proof.
  destruct t as [d cs]. simpl. intros H.
  apply andb_true_iff in H as [Hr Hall]. split; [exact Hr|].
  clear Hr. induction cs as [|[t|tok] cs IH]; simpl in *.
  - intros c [].
  - apply andb_true_iff in Hall as [Ht Hall].
    intros c [Hc|Hc]; [injection Hc as <-; exact Ht | auto].
  - intros c [Hc|Hc]; [discriminate | auto].
Qed.

Lemma visit_None_checked t : visit t = None <-> checked t.
Proof.
  unfold visit, checked. rewrite visit_each_None. split.
  - intros H p b Hp. apply H. apply iter_subtrees_subtree_at. eauto.
  - intros H b Hb. apply iter_subtrees_subtree_at in Hb as [p Hp]. eauto.
Qed.

Lemma checked_child t c :
  checked t -> In (inl c) (children t) -> checked c.
Proof.
  intros H Hin p b Hp.
  apply list_elem_of_In, list_elem_of_lookup in Hin as [i Hi].
  apply (H (i :: p)). simpl. rewrite Hi. exact Hp.
Qed.

Lemma height_child_In t c :
  In (inl c) (children t) -> (height c < height t)%nat.
Proof.
  intros Hin. apply list_elem_of_In, list_elem_of_lookup in Hin as [i Hi].
  eapply height_child; eauto.
Qed.

Lemma int_digits_nonneg s acc n :
  0 <= acc -> int_digits acc s = Some n -> 0 <= n.
Proof.
  revert acc. induction s as [|a s IH]; intros acc Hacc H; simpl in H.
  - injection H as <-. exact Hacc.
  - unfold digit_of_ascii in H.
    destruct ((48 <=? Ascii.nat_of_ascii a)%nat && (Ascii.nat_of_ascii a <=? 57)%nat);
      [|discriminate].
    eapply IH; [|exact H]. lia.
Qed.

Lemma int_nonneg s n : int s = Some n -> 0 <= n.
Proof.
  destruct s as [|a s]; [discriminate|]. unfold int.
  apply int_digits_nonneg. lia.
Qed.

Lemma Sema_token_number c :
  is_number c = true ->
  exists n, transform_child c = Some (PInt n) /\ 0 <= n /\
    exists tok, c = inr tok /\ int (tok_value tok) = Some n.
Proof.
  destruct c as [t|tok]; simpl; [discriminate|].
  rewrite andb_true_iff, bool_decide_eq_true. intros [Hty [n Hn]].
  exists n. unfold Sema_token. rewrite Hty, Hn. simpl.
  split; [reflexivity|]. split; [eapply int_nonneg; eauto|]. eauto.
Qed.

Lemma Sema_token_word c :
  is_word c = true ->
  exists tok, c = inr tok /\ transform_child c = Some (PToken tok).
Proof.
  destruct c as [t|tok]; simpl; [discriminate|]. intros Hp.
  exists tok. split; [reflexivity|]. unfold Sema_token, plain_token_type.
  rewrite Hp, orb_true_r.
  destruct (String.eqb_spec (tok_type tok) "NUMBER") as [E|_]; [|reflexivity].
  rewrite E in Hp. discriminate.
Qed.

Lemma Sema_token_terminal names c :
  is_terminal names c = true ->
  exists tok ty text, c = inr tok /\ transform_child c = Some (PToken tok) /\
    tok_type tok = ty /\ tok_value tok = text /\
    In (ty, text)
      (filter (fun p => bool_decide (fst p ∈ names))
         [("YES", "YES"); ("NO", "NO"); ("PLUS", "+"); ("TIMES", "*");
          ("EQ", "="); ("LT", "<"); ("GT", ">")]).
Proof.
  destruct c as [t|tok]; simpl; [discriminate|].
  rewrite bool_decide_eq_true. intros Hin.
  exists tok, (tok_type tok), (tok_value tok).
  split; [reflexivity|]. split; [|split; [reflexivity|split; [reflexivity|]]].
  - apply list_elem_of_filter in Hin as [_ Hin].
    unfold Sema_token, plain_token_type.
    repeat (apply elem_of_cons in Hin as [Hin|Hin];
            [injection Hin as -> ->; reflexivity|]).
    apply elem_of_nil in Hin. contradiction.
  - apply list_elem_of_In. exact Hin.
Qed.

Lemma decodes_lit name k v :
  kind_of name = Some k -> (decodes name v <-> decodes_kind k v).
Proof. unfold decodes. intros ->. reflexivity. Qed.

Lemma decode_args_mapM vs :
  (fix decode_args (l : list pyobj) : option (list expr) :=
     match l with
     | [] => Some []
     | x :: rest => e ← decode_expr x; es ← decode_args rest; Some (e :: es)
     end) vs = mapM decode_expr vs.
Proof.
  induction vs as [|x vs IH]; simpl; [reflexivity|].
  destruct (decode_expr x); simpl; [|reflexivity]. rewrite IH. reflexivity.
Qed.

Lemma decode_stmts_mapM vs :
  (fix decode_stmts (l : list pyobj) : option (list stmt) :=
     match l with
     | [] => Some []
     | x :: rest => s ← decode_stmt x; ss ← decode_stmts rest; Some (s :: ss)
     end) vs = mapM decode_stmt vs.
Proof.
  induction vs as [|x vs IH]; simpl; [reflexivity|].
  destruct (decode_stmt x); simpl; [|reflexivity]. rewrite IH. reflexivity.
Qed.

Lemma call_as_expr v :
  decodes_kind KCall v -> decodes_kind KExpr v.
Proof.
  intros (procname & vs & args & -> & Hargs & Hnn).
  exists (Ecall procname args). split; [|exact Hnn].
  cbn [decode_expr]. cbn [String.eqb Ascii.eqb Bool.eqb].
  rewrite decode_args_mapM, Hargs. reflexivity.
Qed.

Lemma kind_le_decodes k' k v :
  kind_le k' k = true -> decodes_kind k' v -> decodes_kind k v.
Proof.
  destruct k', k; try discriminate; intros _ H; try exact H.
  apply call_as_expr. exact H.
Qed.

Lemma child_kind names k c cs :
  (forall t, In (inl t) cs ->
     exists v, transform_child (inl t) = Some v /\ decodes (data t) v) ->
  is_tree names c = true -> In c cs ->
  names_of_kind k names = true ->
  exists v, transform_child c = Some v /\ decodes_kind k v.
Proof.
  intros Hch Hc Hin Hk. destruct c as [t|tok]; [|discriminate].
  simpl in Hc. apply bool_decide_eq_true in Hc.
  destruct (Hch t Hin) as (v & Hv & Hd). exists v. split; [exact Hv|].
  unfold names_of_kind in Hk. rewrite forallb_forall in Hk.
  specialize (Hk (data t) (proj1 (list_elem_of_In _ _) Hc)).
  unfold decodes in Hd. destruct (kind_of (data t)) as [k'|]; [|contradiction].
  eapply kind_le_decodes; eauto.
Qed.

Lemma children_Forall (Q : pyobj -> Prop) cs :
  (forall c, In c cs -> exists v, transform_child c = Some v /\ Q v) ->
  exists vs, mapM transform_child cs = Some vs /\ Forall Q vs.
Proof.
  induction cs as [|c cs IH]; intros H.
  - exists []. split; [reflexivity | constructor].
  - destruct (H c (or_introl eq_refl)) as (v & Hv & HQ).
    destruct IH as (vs & Hvs & HQs); [intros c' Hin; apply H; right; exact Hin|].
    exists (v :: vs). split; [|constructor; assumption].
    simpl. rewrite Hv. simpl. rewrite Hvs. reflexivity.
Qed.

Lemma Forall_decode {A} (dec : pyobj -> option A) (ok : A -> bool) vs :
  Forall (fun v => exists x, dec v = Some x /\ ok x = true) vs ->
  exists xs, mapM dec vs = Some xs /\ forallb ok xs = true.
Proof.
  induction 1 as [|v vs (x & Hx & Hok) _ (xs & Hxs & Hoks)].
  - exists []. split; reflexivity.
  - exists (x :: xs). split.
    + simpl. rewrite Hx. simpl. rewrite Hxs. reflexivity.
    + simpl. rewrite Hok, Hoks. reflexivity.
Qed.

Lemma trees_of_kind names k cs l :
  (forall t, In (inl t) cs ->
     exists v, transform_child (inl t) = Some v /\ decodes (data t) v) ->
  forallb (is_tree names) l = true -> (forall c, In c l -> In c cs) ->
  names_of_kind k names = true ->
  exists vs, mapM transform_child l = Some vs /\ Forall (decodes_kind k) vs.
Proof.
  intros Hch Hl Hsub Hk. apply children_Forall. intros c Hin.
  rewrite forallb_forall in Hl.
  eapply child_kind; eauto.
Qed.

Lemma mapM_decode_name_inv vs ps :
  mapM decode_name vs = Some ps -> vs = PStr <$> ps.
Proof.
  revert ps. induction vs as [|v vs IH]; intros ps H; simpl in H.
  - injection H as <-. reflexivity.
  - destruct v; simpl in H; try discriminate.
    destruct (mapM decode_name vs) as [qs|] eqn:E; simpl in H; [|discriminate].
    injection H as <-. simpl. f_equal. apply IH. reflexivity.
Qed.

Lemma mapM_decode_name ps : mapM decode_name (PStr <$> ps) = Some ps.
Proof.
  apply mapM_Some. induction ps as [|p ps IH]; csimpl; constructor; auto.
Qed.

Lemma mapM_transform_app l1 l2 vs1 vs2 :
  mapM transform_child l1 = Some vs1 -> mapM transform_child l2 = Some vs2 ->
  mapM transform_child (l1 ++ l2) = Some (vs1 ++ vs2).
Proof.
  rewrite !mapM_Some. apply Forall2_app.
Qed.

Lemma decode_expr_tuple v e :
  decode_expr v = Some e -> exists items, v = PTuple items.
Proof. destruct v; try discriminate. eauto. Qed.

Lemma decode_stmt_loop a b e body :
  decode_expr a = Some e -> decode_block b = Some body ->
  decode_stmt (PTuple [PStr "loop"; a; b]) = Some (Sloop (Some e) body).
Proof.
  intros Ha Hb. destruct (decode_expr_tuple a e Ha) as [items ->].
  cbn [decode_stmt]. cbn [String.eqb Ascii.eqb Bool.eqb].
  rewrite Hb. cbn [mbind option_bind]. rewrite Ha. reflexivity.
Qed.

Lemma decode_stmt_muloop b body :
  decode_block b = Some body ->
  decode_stmt (PTuple [PStr "loop"; PNone; b]) = Some (Sloop None body).
Proof.
  intros Hb. cbn [decode_stmt]. cbn [String.eqb Ascii.eqb Bool.eqb].
  rewrite Hb. reflexivity.
Qed.

Lemma decode_stmt_cond a b e body :
  decode_expr a = Some e -> decode_block b = Some body ->
  decode_stmt (PTuple [PStr "cond"; a; b]) = Some (Scond e body).
Proof.
  intros Ha Hb. destruct (decode_expr_tuple a e Ha) as [items ->].
  cbn [decode_stmt]. cbn [String.eqb Ascii.eqb Bool.eqb].
  rewrite Ha. cbn [mbind option_bind]. rewrite Hb. reflexivity.
Qed.

Lemma decode_stmt_assign i b e :
  decode_expr b = Some e ->
  decode_stmt (PTuple [PStr "assign"; PTuple [PStr "cell"; PInt i]; b])
  = Some (Sassign (Lcell i) e).
Proof.
  intros Hb. cbn [decode_stmt]. cbn [String.eqb Ascii.eqb Bool.eqb].
  cbn [decode_lvalue String.eqb Ascii.eqb Bool.eqb mbind option_bind].
  rewrite Hb. reflexivity.
Qed.

Lemma decode_expr_binop tag op a b ea eb :
  binop_of_tag tag = Some op ->
  decode_expr a = Some ea -> decode_expr b = Some eb ->
  decode_expr (PTuple [PStr tag; a; b]) = Some (Ebinop op ea eb).
Proof.
  intros Hop Ha Hb. cbn [decode_expr].
  destruct (String.eqb_spec tag "call") as [->|_]; [discriminate|].
  rewrite Hop. cbn [mbind option_bind]. rewrite Ha. cbn [mbind option_bind].
  rewrite Hb. reflexivity.
Qed.

Lemma decode_block_tuple n vs stmts :
  mapM decode_stmt vs = Some stmts ->
  decode_block (PTuple [PStr "block"; PInt n; PList vs]) = Some (Block n stmts).
Proof.
  intros H. cbn [decode_block]. cbn [String.eqb Ascii.eqb Bool.eqb].
  rewrite decode_stmts_mapM, H. reflexivity.
Qed.

Lemma is_tree_weaken l1 l2 c :
  (forall n : string, n ∈ l1 -> n ∈ l2) ->
  is_tree l1 c = true -> is_tree l2 c = true.
Proof.
  intros Hsub. destruct c as [t|tok]; [|discriminate]. simpl.
  rewrite !bool_decide_eq_true. apply Hsub.
Qed.

Lemma is_terminal_weaken l1 l2 c :
  (forall n : string, n ∈ l1 -> n ∈ l2) ->
  is_terminal l1 c = true -> is_terminal l2 c = true.
Proof.
  intros Hsub. destruct c as [t|tok]; [discriminate|]. simpl.
  rewrite !bool_decide_eq_true. rewrite !list_elem_of_filter.
  intros [H1 H2]. split; [|exact H2].
  apply bool_decide_unpack in H1. apply bool_decide_pack. apply Hsub. exact H1.
Qed.

Lemma boolexpr_parts a op b :
  (is_tree ["boolval"] a && is_terminal ["EQ"] op && is_tree ["boolval"] b)
  || (is_tree ["intval"] a && is_terminal ["EQ"; "LT"; "GT"] op
      && is_tree ["intval"] b) = true ->
  is_tree ["boolval"; "intval"] a = true /\
  is_terminal ["EQ"; "LT"; "GT"] op = true /\
  is_tree ["boolval"; "intval"] b = true.
Proof.
  intros H. apply orb_true_iff in H as [H|H];
    apply andb_true_iff in H as [H H3]; apply andb_true_iff in H as [H1 H2].
  - split; [|split].
    + eapply is_tree_weaken; [|exact H1]. intros n Hn.
      apply elem_of_cons. left. apply list_elem_of_singleton in Hn. exact Hn.
    + eapply is_terminal_weaken; [|exact H2]. intros n Hn.
      apply elem_of_cons. left. apply list_elem_of_singleton in Hn. exact Hn.
    + eapply is_tree_weaken; [|exact H3]. intros n Hn.
      apply elem_of_cons. left. apply list_elem_of_singleton in Hn. exact Hn.
  - split; [|split].
    + eapply is_tree_weaken; [|exact H1]. intros n Hn.
      apply elem_of_cons. right. exact Hn.
    + exact H2.
    + eapply is_tree_weaken; [|exact H3]. intros n Hn.
      apply elem_of_cons. right. exact Hn.
Qed.

Ltac kind_goal :=
  match goal with
  | |- context [decodes ?name ?v] =>
      let k := eval vm_compute in (kind_of name) in
      change (decodes name v)
        with (match k with Some k0 => decodes_kind k0 v | None => False end);
      cbv beta iota
  end.

Ltac child H K v Hv Hd :=
  match type of H with
  | is_tree ?names ?c = true =>
      match goal with
      | Hch : forall t, In (inl t) ?cs -> _ |- _ =>
          destruct (child_kind names K c cs Hch H
                      ltac:(simpl; tauto) ltac:(vm_compute; reflexivity))
            as (v & Hv & Hd)
      end
  end.

Ltac items_are l :=
  match goal with
  | |- context [mapM transform_child ?cs] =>
      let Hm := fresh "Hm" in
      assert (Hm : mapM transform_child cs = Some l)
        by (apply mapM_Some; repeat constructor; assumption);
      rewrite Hm; clear Hm
  end.

Lemma one_inv (p : Tree + Token -> bool) cs :
  one p cs = true -> exists c, cs = [c] /\ p c = true.
Proof.
  destruct cs as [|c [|? ?]]; try discriminate. intros H. eauto.
Qed.

(** On a tree of the grammar whose blocks pass the check, every method of
    [Sema] returns, and returns a tuple of the kind of its rule. *)
Lemma transform_decodes n t :
  (height t <= n)%nat -> grammar t = true -> checked t ->
  exists v, transform t = Some v /\ decodes (data t) v.
Proof.
  revert t. induction n as [|n IH]; intros t Hh Hg Hc.
  { destruct t. simpl in Hh. lia. }
  destruct (grammar_inv t Hg) as [Hr Hgc].
  assert (Hch : forall c, In (inl c) (children t) ->
             exists v, transform_child (inl c) = Some v /\ decodes (data c) v).
  { intros c Hin. apply IH.
    - pose proof (height_child_In t c Hin). lia.
    - apply Hgc. exact Hin.
    - eapply checked_child; eauto. }
  clear IH Hgc Hg Hh.
  destruct t as [d cs]. rewrite transform_eq. simpl data in *. simpl children in *.
  unfold rule_ok, Grammar_rules in Hr. cbn [lookup_rule data children] in Hr.
  repeat match type of Hr with
         | context [String.eqb ?a d] =>
             destruct (String.eqb_spec a d) as [<-|?]
         end.
  all: try discriminate.
  - (* start *)
    apply andb_true_iff in Hr as [Hinit Hlast].
    assert (Hall : forallb (is_tree ["decl"; "call"]) cs = true).
    { apply forallb_forall. intros c Hin.
      destruct (last cs) as [final|] eqn:El.
      - apply last_Some in El as [init ->].
        rewrite removelast_last in Hinit. rewrite forallb_forall in Hinit.
        apply in_app_iff in Hin as [Hin|[<-|[]]]; [|exact Hlast].
        specialize (Hinit c Hin). destruct c as [t|tok]; [|discriminate].
        simpl in *. apply bool_decide_eq_true in Hinit.
        apply bool_decide_eq_true. apply elem_of_cons. left.
        apply list_elem_of_singleton in Hinit. exact Hinit.
      - apply last_None in El. subst cs. destruct Hin. }
    assert (Hitems : exists vs, mapM transform_child cs = Some vs /\
              Forall (fun v => exists it, decode_item v = Some it /\
                                 nonneg_item it = true) vs).
    { apply children_Forall. intros c Hin. rewrite forallb_forall in Hall.
      specialize (Hall c Hin). destruct c as [t|tok]; [|discriminate].
      destruct (Hch t Hin) as (v & Hv & Hd). exists v. split; [exact Hv|].
      simpl in Hall. apply bool_decide_eq_true in Hall.
      apply elem_of_cons in Hall as [E|Hall]; [|apply elem_of_cons in Hall as [E|Hall]].
      - rewrite E in Hd. revert Hd. kind_goal.
        intros (it & Hit & _ & Hnn). eauto.
      - rewrite E in Hd. revert Hd. kind_goal.
        intros (procname & ws & args & -> & Hargs & Hnn).
        exists (Icall procname args). split; [|exact Hnn].
        cbn [decode_item]. cbn [String.eqb Ascii.eqb Bool.eqb].
        rewrite Hargs. reflexivity.
      - apply elem_of_nil in Hall. contradiction. }
    destruct Hitems as (vs & Hvs & Hdec).
    destruct (Forall_decode decode_item nonneg_item vs Hdec) as (prog & Hprog & Hnn).
    exists (PList vs). rewrite Hvs. split; [reflexivity|]. kind_goal.
    exists prog. split; [exact Hprog | exact Hnn].
  - (* decl *)
    destruct cs as [|a [|b [|c [|? ?]]]]; try discriminate.
    apply andb_true_iff in Hr as [Hr Hc3]. apply andb_true_iff in Hr as [Hc1 Hc2].
    child Hc1 KName va Hva Hda. child Hc2 KParams vb Hvb Hdb.
    child Hc3 KBlock vc Hvc Hdc.
    destruct Hda as [name ->]. destruct Hdb as [ps ->].
    destruct Hdc as (body & Hbody & Hnn).
    items_are [PStr name; PList (PStr <$> ps); vc].
    eexists. split; [reflexivity|]. kind_goal.
    exists (Idecl name ps body). split; [|split; [reflexivity | exact Hnn]].
    cbn [decode_item]. cbn [String.eqb Ascii.eqb Bool.eqb].
    rewrite mapM_decode_name. simpl. rewrite Hbody. reflexivity.
  - (* params *)
    apply andb_true_iff in Hr as [_ Hall].
    destruct (trees_of_kind ["param"] KName cs cs Hch Hall (fun c H => H)
                ltac:(vm_compute; reflexivity)) as (vs & Hvs & Hnames).
    rewrite Hvs. exists (PList vs). split; [reflexivity|]. kind_goal.
    assert (Hps : exists ps, mapM decode_name vs = Some ps).
    { clear Hvs. induction Hnames as [|v vs [s ->] _ [ps Hps]].
      - exists []. reflexivity.
      - exists (s :: ps). simpl. rewrite Hps. reflexivity. }
    destruct Hps as [ps Hps]. exists ps.
    f_equal. apply mapM_decode_name_inv. exact Hps.
  - (* param *)
    apply one_inv in Hr as (c & -> & Hw).
    apply Sema_token_word in Hw as (tok & -> & Hv).
    items_are [PToken tok]. eexists. split; [reflexivity|]. kind_goal.
    eexists. reflexivity.
  - (* procname *)
    apply one_inv in Hr as (c & -> & Hc1). child Hc1 KName va Hva Hda.
    destruct Hda as [name ->]. items_are [PStr name].
    eexists. split; [reflexivity|]. kind_goal. eexists. reflexivity.
  - (* testname *)
    apply one_inv in Hr as (c & -> & Hw).
    apply Sema_token_word in Hw as (tok & -> & Hv).
    items_are [PToken tok]. eexists. split; [reflexivity|]. kind_goal.
    eexists. reflexivity.
  - (* funcname *)
    apply one_inv in Hr as (c & -> & Hw).
    apply Sema_token_word in Hw as (tok & -> & Hv).
    items_are [PToken tok]. eexists. split; [reflexivity|]. kind_goal.
    eexists. reflexivity.
  - (* block *)
    destruct cs as [|first rest]; [discriminate|].
    apply andb_true_iff in Hr as [Hr Hmid]. apply andb_true_iff in Hr as [H1 H2].
    destruct (last rest) as [final|] eqn:El; [|discriminate].
    apply last_Some in El as [mid ->]. rewrite removelast_last in Hmid.
    apply Sema_token_number in H1 as (s & Hv1 & _ & tok1 & -> & Hint1).
    apply Sema_token_number in H2 as (e & Hv2 & _ & tok2 & -> & Hint2).
    destruct (trees_of_kind ["stmt"] KStmt (inr tok1 :: mid ++ [inr tok2]) mid
                Hch Hmid) as (vs & Hvs & Hst).
    { intros c Hin. right. apply in_app_iff. left. exact Hin. }
    { vm_compute. reflexivity. }
    assert (Hse : e = s).
    { pose proof (Hc [] _ eq_refl) as Hb. unfold call_userfunc in Hb.
      cbn [data String.eqb Ascii.eqb Bool.eqb] in Hb.
      unfold CheckBlocks_block in Hb. cbn [children head] in Hb.
      rewrite Hint1 in Hb.
      change (inr tok1 :: mid ++ [inr tok2])
        with ((inr tok1 :: mid) ++ [inr tok2] : list (Tree + Token)) in Hb.
      rewrite last_snoc, Hint2 in Hb.
      destruct (Z.eqb_spec s e) as [->|]; [reflexivity | discriminate]. }
    subst e.
    assert (Hm : mapM transform_child (inr tok1 :: mid ++ [inr tok2])
                 = Some (PInt s :: vs ++ [PInt s])).
    { apply mapM_Some. constructor; [exact Hv1|].
      apply Forall2_app; [apply mapM_Some; exact Hvs|].
      constructor; [exact Hv2 | constructor]. }
    rewrite Hm. clear Hm.
    destruct (Forall_decode decode_stmt nonneg_stmt vs Hst) as (stmts & Hstmts & Hnn).
    exists (PTuple [PStr "block"; PInt s; PList vs]). split.
    + change (Sema_block (PInt s :: vs ++ [PInt s])
              = Some (PTuple [PStr "block"; PInt s; PList vs])).
      unfold Sema_block. cbn [head mbind option_bind int_obj].
      change (PInt s :: vs ++ [PInt s]) with ((PInt s :: vs) ++ [PInt s]).
      rewrite last_snoc. cbn [mbind option_bind int_obj].
      rewrite Z.eqb_refl. unfold slice_1_m1.
      change (tail ((PInt s :: vs) ++ [PInt s])) with (vs ++ [PInt s]).
      rewrite removelast_last. reflexivity.
    + kind_goal. exists (Block s stmts). split; [|exact Hnn].
      apply decode_block_tuple. exact Hstmts.
  - (* stmt *)
    apply one_inv in Hr as (c & -> & Hc1). child Hc1 KStmt va Hva Hda.
    items_are [va]. exists va. split; [reflexivity|]. kind_goal. exact Hda.
  - (* loophead *)
    apply one_inv in Hr as (c & -> & Hc1). child Hc1 KExpr va Hva Hda.
    items_are [va]. exists va. split; [reflexivity|]. kind_goal. exact Hda.
  - (* loop *)
    destruct cs as [|a [|b [|? ?]]]; try discriminate.
    apply andb_true_iff in Hr as [Hc1 Hc2].
    child Hc1 KExpr va Hva Hda. child Hc2 KBlock vb Hvb Hdb.
    destruct Hda as (e & He & Hne). destruct Hdb as (body & Hbody & Hnb).
    items_are [va; vb]. eexists. split; [reflexivity|]. kind_goal.
    exists (Sloop (Some e) body). split; [apply decode_stmt_loop; assumption|].
    simpl. rewrite Hne, Hnb. reflexivity.
  - (* muloop *)
    apply one_inv in Hr as (c & -> & Hc1). child Hc1 KBlock vb Hvb Hdb.
    destruct Hdb as (body & Hbody & Hnb).
    items_are [vb]. eexists. split; [reflexivity|]. kind_goal.
    exists (Sloop None body). split; [apply decode_stmt_muloop; assumption|].
    exact Hnb.
  - (* assign *)
    destruct cs as [|a [|b [|? ?]]]; try discriminate.
    apply andb_true_iff in Hr as [Hc1 Hc2].
    child Hc1 KLvalue va Hva Hda. child Hc2 KExpr vb Hvb Hdb.
    destruct Hda as [i ->]. destruct Hdb as (e & He & Hne).
    items_are [PTuple [PStr "cell"; PInt i]; vb].
    eexists. split; [reflexivity|]. kind_goal.
    exists (Sassign (Lcell i) e). split; [apply decode_stmt_assign; assumption|].
    exact Hne.
  - (* lvalue *)
    apply one_inv in Hr as (c & -> & Hc1). child Hc1 KLvalue va Hva Hda.
    items_are [va]. exists va. split; [reflexivity|]. kind_goal. exact Hda.
  - (* cell *)
    apply one_inv in Hr as (c & -> & H1).
    apply Sema_token_number in H1 as (i & Hv1 & _ & tok1 & -> & _).
    items_are [PInt i]. eexists. split; [reflexivity|]. kind_goal.
    eexists. reflexivity.
  - (* expr *)
    apply one_inv in Hr as (c & -> & Hc1). child Hc1 KExpr va Hva Hda.
    items_are [va]. exists va. split; [reflexivity|]. kind_goal. exact Hda.
  - (* intexpr *)
    destruct cs as [|a [|op [|b [|? ?]]]]; try discriminate.
    + child Hr KExpr va Hva Hda.
      items_are [va]. exists va. split; [reflexivity|]. kind_goal. exact Hda.
    + apply andb_true_iff in Hr as [Hr Hc2]. apply andb_true_iff in Hr as [Hc1 Hop].
      child Hc1 KExpr va Hva Hda. child Hc2 KExpr vb Hvb Hdb.
      destruct Hda as (ea & Hea & Hna). destruct Hdb as (eb & Heb & Hnb).
      apply Sema_token_terminal in Hop as (tok & ty & text & -> & Hvo & Hty & Hval & Hin).
      items_are [va; PToken tok; vb].
      vm_compute in Hin.
      destruct Hin as [Hin|[Hin|[]]]; injection Hin as <- <-.
      * exists (PTuple [PStr "plus"; va; vb]). split.
        -- change (Sema_intexpr [va; PToken tok; vb]
                   = Some (PTuple [PStr "plus"; va; vb])).
           unfold Sema_intexpr. simpl. rewrite Hval. reflexivity.
        -- kind_goal. exists (Ebinop Oplus ea eb). split.
           ++ apply decode_expr_binop; auto.
           ++ simpl. rewrite Hna, Hnb. reflexivity.
      * exists (PTuple [PStr "times"; va; vb]). split.
        -- change (Sema_intexpr [va; PToken tok; vb]
                   = Some (PTuple [PStr "times"; va; vb])).
           unfold Sema_intexpr. simpl. rewrite Hval. reflexivity.
        -- kind_goal. exists (Ebinop Otimes ea eb). split.
           ++ apply decode_expr_binop; auto.
           ++ simpl. rewrite Hna, Hnb. reflexivity.
  - (* boolexpr *)
    destruct cs as [|a [|op [|b [|? ?]]]]; try discriminate.
    + child Hr KExpr va Hva Hda.
      items_are [va]. exists va. split; [reflexivity|]. kind_goal. exact Hda.
    + apply boolexpr_parts in Hr.
      destruct Hr as (Hc1 & Hop & Hc2).
      child Hc1 KExpr va Hva Hda. child Hc2 KExpr vb Hvb Hdb.
      destruct Hda as (ea & Hea & Hna). destruct Hdb as (eb & Heb & Hnb).
      apply Sema_token_terminal in Hop as (tok & ty & text & -> & Hvo & Hty & Hval & Hin).
      items_are [va; PToken tok; vb].
      vm_compute in Hin.
      destruct Hin as [Hin|[Hin|[Hin|[]]]]; injection Hin as <- <-.
      * exists (PTuple [PStr "eq"; va; vb]). split.
        -- change (Sema_boolexpr [va; PToken tok; vb]
                   = Some (PTuple [PStr "eq"; va; vb])).
           unfold Sema_boolexpr. simpl. rewrite Hval. reflexivity.
        -- kind_goal. exists (Ebinop Oeq ea eb). split.
           ++ apply decode_expr_binop; auto.
           ++ simpl. rewrite Hna, Hnb. reflexivity.
      * exists (PTuple [PStr "lt"; va; vb]). split.
        -- change (Sema_boolexpr [va; PToken tok; vb]
                   = Some (PTuple [PStr "lt"; va; vb])).
           unfold Sema_boolexpr. simpl. rewrite Hval. reflexivity.
        -- kind_goal. exists (Ebinop Olt ea eb). split.
           ++ apply decode_expr_binop; auto.
           ++ simpl. rewrite Hna, Hnb. reflexivity.
      * exists (PTuple [PStr "gt"; va; vb]). split.
        -- change (Sema_boolexpr [va; PToken tok; vb]
                   = Some (PTuple [PStr "gt"; va; vb])).
           unfold Sema_boolexpr. simpl. rewrite Hval. reflexivity.
        -- kind_goal. exists (Ebinop Ogt ea eb). split.
           ++ apply decode_expr_binop; auto.
           ++ simpl. rewrite Hna, Hnb. reflexivity.
  - (* intval *)
    apply one_inv in Hr as (c & -> & Hc1). child Hc1 KExpr va Hva Hda.
    items_are [va]. exists va. split; [reflexivity|]. kind_goal. exact Hda.
  - (* boolval *)
    apply one_inv in Hr as (c & -> & Hc1). child Hc1 KExpr va Hva Hda.
    items_are [va]. exists va. split; [reflexivity|]. kind_goal. exact Hda.
  - (* cellfetch *)
    apply one_inv in Hr as (c & -> & Hc1). child Hc1 KLvalue va Hva Hda.
    destruct Hda as [i ->]. items_are [PTuple [PStr "cell"; PInt i]].
    eexists. split; [reflexivity|]. kind_goal.
    exists (Ecellfetch i). split; reflexivity.
  - (* paramfetch *)
    apply one_inv in Hr as (c & -> & Hc1). child Hc1 KName va Hva Hda.
    destruct Hda as [p ->]. items_are [PStr p].
    eexists. split; [reflexivity|]. kind_goal.
    exists (Eparamfetch p). split; reflexivity.
  - (* outputfetch *)
    apply one_inv in Hr as (c & -> & Hc1). child Hc1 KLvalue va Hva Hda.
    items_are [va]. eexists. split; [reflexivity|]. kind_goal.
    exists (Ecellfetch (-1)). split; reflexivity.
  - (* cond *)
    destruct cs as [|a [|b [|? ?]]]; try discriminate.
    apply andb_true_iff in Hr as [Hc1 Hc2].
    child Hc1 KExpr va Hva Hda. child Hc2 KBlock vb Hvb Hdb.
    destruct Hda as (e & He & Hne). destruct Hdb as (body & Hbody & Hnb).
    items_are [va; vb]. eexists. split; [reflexivity|]. kind_goal.
    exists (Scond e body). split; [apply decode_stmt_cond; assumption|].
    simpl. rewrite Hne, Hnb. reflexivity.
  - (* quit *)
    apply one_inv in Hr as (c & -> & H1).
    apply Sema_token_number in H1 as (i & Hv1 & _ & tok1 & -> & _).
    items_are [PInt i]. eexists. split; [reflexivity|]. kind_goal.
    exists (Squit i). split; reflexivity.
  - (* abort *)
    apply one_inv in Hr as (c & -> & H1).
    apply Sema_token_number in H1 as (i & Hv1 & _ & tok1 & -> & _).
    items_are [PInt i]. eexists. split; [reflexivity|]. kind_goal.
    exists (Sabort i). split; reflexivity.
  - (* output *)
    apply bool_decide_eq_true in Hr. subst cs.
    eexists. split; [reflexivity|]. kind_goal. eexists. reflexivity.
  - (* bool *)
    apply one_inv in Hr as (c & -> & Hop).
    apply Sema_token_terminal in Hop as (tok & ty & text & -> & Hvo & Hty & Hval & Hin).
    items_are [PToken tok].
    vm_compute in Hin.
    destruct Hin as [Hin|[Hin|[]]]; injection Hin as <- <-.
    * exists (PTuple [PStr "bool"; PBool true]). split.
      -- change (Sema_bool [PToken tok] = Some (PTuple [PStr "bool"; PBool true])).
         unfold Sema_bool. simpl. rewrite Hval. reflexivity.
      -- kind_goal. exists (Ebool true). split; reflexivity.
    * exists (PTuple [PStr "bool"; PBool false]). split.
      -- change (Sema_bool [PToken tok] = Some (PTuple [PStr "bool"; PBool false])).
         unfold Sema_bool. simpl. rewrite Hval. reflexivity.
      -- kind_goal. exists (Ebool false). split; reflexivity.
  - (* num *)
    apply one_inv in Hr as (c & -> & H1).
    apply Sema_token_number in H1 as (i & Hv1 & Hi & tok1 & -> & _).
    items_are [PInt i]. eexists. split; [reflexivity|]. kind_goal.
    exists (Enum i). split; [reflexivity|]. simpl. lia.
  - (* call *)
    destruct cs as [|name [|arg args]]; try discriminate.
    apply andb_true_iff in Hr as [Hc1 Hargs].
    child Hc1 KName va Hva Hda. destruct Hda as [procname ->].
    destruct (trees_of_kind ["intval"] KExpr (name :: arg :: args) (arg :: args)
                Hch Hargs) as (vs & Hvs & Hes).
    { intros c Hin. right. exact Hin. }
    { vm_compute. reflexivity. }
    assert (Hm : mapM transform_child (name :: arg :: args)
                 = Some (PStr procname :: vs)).
    { apply mapM_Some. constructor; [exact Hva|]. apply mapM_Some. exact Hvs. }
    rewrite Hm. clear Hm.
    destruct (Forall_decode decode_expr nonneg_expr vs Hes) as (es & Hdec & Hnn).
    exists (PTuple [PStr "call"; PStr procname; PList vs]).
    split; [reflexivity|]. kind_goal. exists procname, vs, es. auto.
Qed.

(** ** What the builder gives *)

(** X12.  On a parse tree of the grammar that [CheckBlocks] accepts,
    [Sema().transform] raises nothing and returns a list of tuples of the
    shapes [runinstr] reads: declarations and calls whose operands, bounds,
    conditions and arguments are expression tuples, whose assignment
    targets are [("cell", index)] tuples and whose loop and conditional
    bodies are block tuples; no ["num"] tuple in it holds a negative
    number.  The script then prints the result of running that program. *)
Theorem Sema_builds_typed_tuples (t : Tree) :
  data t = "start" -> grammar t = true -> visit t = None ->
  exists v prog,
    transform t = Some v /\
    decode_program v = Some prog /\
    forallb nonneg_item prog = true /\
    build t = Some prog /\
    forall fuel,
      main (fun tree => default [] (build tree)) fuel t
        = PrintResult (run_program fuel prog).
Proof.
  intros Hd Hg Hv.
  destruct (transform_decodes (height t) t (le_n _) Hg
              (proj1 (visit_None_checked t) Hv)) as (v & Ht & Hdec).
  rewrite Hd in Hdec. revert Hdec. kind_goal.
  intros (prog & Hprog & Hnn).
  assert (Hb : build t = Some prog).
  { unfold build. rewrite Hv, Ht. exact Hprog. }
  exists v, prog. repeat split; auto.
  intros fuel. unfold main. rewrite Hv, Hb. reflexivity.
Qed.

Lemma Sema_builds_typed_tuples_witness :
  exists v prog,
    transform tree_f = Some v /\
    decode_program v = Some prog /\
    forallb nonneg_item prog = true /\
    build tree_f = Some prog /\
    forall fuel,
      main (fun tree => default [] (build tree)) fuel tree_f
        = PrintResult (run_program fuel prog).
Proof.
  apply (Sema_builds_typed_tuples tree_f).
  - reflexivity.
  - vm_compute. reflexivity.
  - vm_compute. reflexivity.
Defined.

(** ** The assertion of [Sema.block] *)

Lemma mapM_transform_block first mid final items :
  mapM transform_child (first :: mid ++ [final]) = Some items ->
  exists x vs y,
    items = x :: vs ++ [y] /\
    transform_child first = Some x /\
    mapM transform_child mid = Some vs /\
    transform_child final = Some y.
Proof.
  rewrite mapM_Some. intros H.
  apply Forall2_cons_inv_l in H as (x & rest & Hx & Hrest & ->).
  apply Forall2_app_inv_l in Hrest as (vs & ys & Hvs & Hys & ->).
  apply Forall2_cons_inv_l in Hys as (y & nil & Hy & Hnil & ->).
  apply Forall2_nil_inv_l in Hnil as ->.
  exists x, vs, y. rewrite mapM_Some. auto.
Qed.

Lemma transform_Some_child t v c :
  transform t = Some v -> In (inl c) (children t) ->
  is_Some (transform c).
Proof.
  destruct t as [d cs]. rewrite transform_eq. simpl. intros H Hin.
  destruct (mapM transform_child cs) as [items|] eqn:E; [|discriminate].
  apply mapM_Some in E.
  apply list_elem_of_In, list_elem_of_lookup in Hin as [i Hi].
  destruct (Forall2_lookup_l _ _ _ _ _ E Hi) as (y & _ & Hy).
  simpl in Hy. rewrite Hy. eauto.
Qed.

Lemma block_shape cs :
  rule_ok (mkTree "block" cs) = true ->
  exists tok1 mid tok2 s e,
    cs = inr tok1 :: mid ++ [inr tok2] /\
    int (tok_value tok1) = Some s /\ int (tok_value tok2) = Some e /\
    transform_child (inr tok1) = Some (PInt s) /\
    transform_child (inr tok2) = Some (PInt e).
Proof.
  unfold rule_ok. cbn [lookup_rule Grammar_rules data children String.eqb
                         Ascii.eqb Bool.eqb].
  destruct cs as [|first rest]; [discriminate|]. intros Hr.
  apply andb_true_iff in Hr as [Hr _]. apply andb_true_iff in Hr as [H1 H2].
  destruct (last rest) as [final|] eqn:El; [|discriminate].
  apply last_Some in El as [mid ->].
  apply Sema_token_number in H1 as (s & Hv1 & _ & tok1 & -> & Hint1).
  apply Sema_token_number in H2 as (e & Hv2 & _ & tok2 & -> & Hint2).
  exists tok1, mid, tok2, s, e. auto 10.
Qed.

Lemma transform_checked p :
  forall t b,
    grammar t = true -> is_Some (transform t) ->
    subtree_at t p = Some b -> call_userfunc b = None.
Proof.
  induction p as [|i p IH]; intros t b Hg [v Hv] Hp.
  - simpl in Hp. injection Hp as <-. unfold call_userfunc.
    destruct (String.eqb_spec (data t) "block") as [Hd|_]; [|reflexivity].
    destruct (grammar_inv t Hg) as [Hr _].
    destruct t as [d cs]. simpl in Hd. subst d.
    destruct (block_shape cs Hr)
      as (tok1 & mid & tok2 & s & e & -> & Hint1 & Hint2 & Hv1 & Hv2).
    rewrite transform_eq in Hv.
    destruct (mapM transform_child (inr tok1 :: mid ++ [inr tok2]))
      as [items|] eqn:E; [|discriminate].
    apply mapM_transform_block in E as (x & vs & y & -> & Hx & _ & Hy).
    rewrite Hv1 in Hx. injection Hx as <-.
    rewrite Hv2 in Hy. injection Hy as <-.
    change (Sema_block (PInt s :: vs ++ [PInt e]) = Some v) in Hv.
    unfold Sema_block in Hv. cbn [head mbind option_bind int_obj] in Hv.
    change (PInt s :: vs ++ [PInt e]) with ((PInt s :: vs) ++ [PInt e]) in Hv.
    rewrite last_snoc in Hv. cbn [mbind option_bind int_obj] in Hv.
    destruct (Z.eqb_spec e s) as [Hes|]; [|discriminate].
    unfold CheckBlocks_block. cbn [children head]. rewrite Hint1.
    change (inr tok1 :: mid ++ [inr tok2])
      with ((inr tok1 :: mid) ++ [inr tok2] : list (Tree + Token)).
    rewrite last_snoc, Hint2, Hes, Z.eqb_refl. reflexivity.
  - simpl in Hp.
    destruct (children t !! i) as [[c|tok]|] eqn:Hi; try discriminate.
    assert (Hin : In (inl c) (children t)).
    { apply list_elem_of_In, list_elem_of_lookup. eauto. }
    apply (IH c b); [|eapply transform_Some_child; eauto | exact Hp].
    apply (proj2 (grammar_inv t Hg)). exact Hin.
Qed.

(** X13.  On a parse tree of the grammar, [Sema().transform] returns exactly
    when [CheckBlocks] accepts the tree: the assertion of [Sema.block]
    (line 191) fails on the blocks that [CheckBlocks.block] reports, so
    that after an accepting visit no assertion of the builder can fail. *)
Theorem Sema_returns_iff_CheckBlocks_accepts (t : Tree) :
  grammar t = true ->
  (is_Some (transform t) <-> visit t = None).
Proof.
  intros Hg. split.
  - intros Hs. apply visit_None_checked. intros p b Hp.
    eapply transform_checked; eauto.
  - intros Hv.
    destruct (transform_decodes (height t) t (le_n _) Hg
                (proj1 (visit_None_checked t) Hv)) as (v & Ht & _).
    rewrite Ht. eauto.
Qed.

Lemma Sema_returns_iff_CheckBlocks_accepts_witness :
  transform (update_at path_inner_block (set_close_label "2") tree_f) = None.
Proof.
  destruct (transform (update_at path_inner_block (set_close_label "2") tree_f))
    as [v|] eqn:E; [|reflexivity].
  exfalso.
  assert (Hs : is_Some (transform
                 (update_at path_inner_block (set_close_label "2") tree_f)))
    by (rewrite E; eauto).
  apply (Sema_returns_iff_CheckBlocks_accepts
           (update_at path_inner_block (set_close_label "2") tree_f)) in Hs.
  - vm_compute in Hs. discriminate.
  - vm_compute. reflexivity.
Defined.

(** ** Names *)

Lemma substring_whole (t : string) : substring 0 (String.length t) t = t.
Proof.
  induction t as [|b t IH]; simpl; [reflexivity|]. rewrite IH. reflexivity.
Qed.

Lemma substring_append_last (s t : string) :
  substring (String.length s) (String.length t) (s ++ t) = t.
Proof.
  induction s as [|a s IH]; simpl.
  - apply substring_whole.
  - exact IH.
Qed.

Lemma endswith_append (s t : string) : endswith (s ++ t) t = true.
Proof.
  unfold endswith.
  assert (Hlen : String.length (s ++ t)
                 = (String.length s + String.length t)%nat).
  { induction s as [|a s IH]; simpl; [reflexivity|]. rewrite IH. reflexivity. }
  rewrite Hlen.
  destruct (Nat.leb_spec (String.length t) (String.length s + String.length t));
    [|lia].
  replace (String.length s + String.length t - String.length t)%nat
    with (String.length s) by lia.
  rewrite substring_append_last. apply String.eqb_refl.
Qed.

(** X14.  Whatever text the token of a [testname] holds, the name [Sema]
    builds from it ends in a question mark (one is appended), so that a
    procedure declared or called under that name starts its OUTPUT at
    [False]; the name of a [funcname] is the text of the token as it is,
    and its OUTPUT starts at 0 unless that text ends in a question mark. *)
Theorem testname_gives_predicate_name (tok : Token) :
  (exists procname,
      Sema_testname [PToken tok] = Some (PStr procname) /\
      procname = (tok_value tok ++ "?")%string /\
      default_output procname = VBool false) /\
  Sema_funcname [PToken tok] = Some (PStr (tok_value tok)) /\
  (endswith (tok_value tok) "?" = false ->
   default_output (tok_value tok) = VInt 0).
Proof.
  repeat split.
  - exists (tok_value tok ++ "?")%string. repeat split.
    unfold default_output. rewrite endswith_append. reflexivity.
  - intros H. unfold default_output. rewrite H. reflexivity.
Qed.

Lemma testname_gives_predicate_name_witness :
  default_output "add" = VInt 0.
Proof.
  destruct (testname_gives_predicate_name (mkToken "__ANON_1" "add" 1 1))
    as (_ & _ & H).
  apply H. reflexivity.
Defined.
